(** * Battery-constrained layered exploration (main.py)

    A shallow embedding of the constrained explorer of [main.py]
    ([map_surface_with_battery_constraint] and its helpers) and of the map
    assembly ([_sparse_to_dense], [_trim_unknown_border]), with the
    properties stated about them.

    Python dictionaries keyed by coordinates are finite maps ([gmap]);
    Python integers are [Z]; lists are lists.  The [Rover] class is not part
    of [main.py]: the explorer is written against its two methods
    [move] and [get_current_location], gathered in [RoverOps]. *)

From Stdlib Require Import ZArith Lia Ascii String.
From stdpp Require Import gmap strings list fin_maps.

(** ** Coordinates and directions *)

Abbreviation Coord := (Z * Z)%type.

(** The keys ['N'], ['S'], ['E'], ['W'] of [DIRS]. *)
Inductive Dir := North | South | East | West.

Global Instance Dir_eq_dec : EqDecision Dir.
Proof. solve_decision. Defined.

Definition FULL_BATTERY : Z := 20.

(** [DIRS = {'N': (-1, 0), 'S': (1, 0), 'E': (0, 1), 'W': (0, -1)}], in
    insertion order, which is the order [DIRS.items()] iterates in. *)
Definition DIRS : list (Dir * (Z * Z)) :=
  [(North, (-1, 0)%Z); (South, (1, 0)%Z); (East, (0, 1)%Z); (West, (0, -1)%Z)].

Definition OPPOSITE (d : Dir) : Dir :=
  match d with
  | North => South
  | South => North
  | East => West
  | West => East
  end.

(** The entry of [DIRS] for a direction. *)
Definition delta (d : Dir) : Z * Z :=
  match d with
  | North => (-1, 0)%Z
  | South => (1, 0)%Z
  | East => (0, 1)%Z
  | West => (0, -1)%Z
  end.

Definition shift (pos : Coord) (dv : Z * Z) : Coord :=
  (pos.1 + dv.1, pos.2 + dv.2)%Z.

(** Applying the unit deltas of a sequence of directions, in order. *)
Definition walk (start : Coord) (path : list Dir) : Coord :=
  foldl (fun pos d => shift pos (delta d)) start path.

(** ** Exceptions *)

Inductive exn :=
| KeyError (k : Coord)
| OutOfFuel.

Inductive result (A : Type) :=
| Ok (a : A)
| Raise (e : exn).
Arguments Ok {A} a.
Arguments Raise {A} e.

Global Instance result_bind : MBind result := λ A B k m,
  match m with
  | Ok a => k a
  | Raise e => Raise e
  end.

(** ** Helper functions *)

(** [_neighbours(pos)]: the generator's items, in order. *)
Definition _neighbours (pos : Coord) : list (Dir * Coord) :=
  let '(r, c) := pos in
  map (fun '(d, (dr, dc)) => (d, ((r + dr)%Z, (c + dc)%Z))) DIRS.

(** The inner [for] of [_reconstruct_path]: append the first direction
    whose delta leads from [prev] to [cur], then [break]; append nothing
    when no direction does. *)
Fixpoint append_dir (prev cur : Coord) (dirs : list (Dir * (Z * Z)))
    (path : list Dir) : list Dir :=
  match dirs with
  | [] => path
  | (d, (dr, dc)) :: rest =>
      if decide (((prev.1 + dr)%Z, (prev.2 + dc)%Z) = cur)
      then path ++ [d]
      else append_dir prev cur rest path
  end.

(** The [while parents[cur]:] loop.  [parents[cur]] raises [KeyError] for a
    missing key; [None] is falsy and every coordinate pair is truthy. *)
Fixpoint reconstruct_loop (fuel : nat) (parents : gmap Coord (option Coord))
    (cur : Coord) (path : list Dir) : result (list Dir) :=
  match parents !! cur with
  | None => Raise (KeyError cur)
  | Some None => Ok path
  | Some (Some prev) =>
      match fuel with
      | O => Raise OutOfFuel
      | S fuel' =>
          reconstruct_loop fuel' parents prev (append_dir prev cur DIRS path)
      end
  end.

Definition _reconstruct_path (fuel : nat) (target : Coord)
    (parents : gmap Coord (option Coord)) : result (list Dir) :=
  path ← reconstruct_loop fuel parents target [];
  Ok (reverse path).

Definition _reverse_path (path : list Dir) : list Dir :=
  map OPPOSITE (reverse path).

Definition _manhattan (a b : Coord) : Z :=
  (Z.abs (a.1 - b.1) + Z.abs (a.2 - b.2))%Z.

Definition _roundtrip_cost (path_to_tile : list Dir) (nbr home : Coord) : Z :=
  (Z.of_nat (length path_to_tile) + 1 + _manhattan nbr home)%Z.

(** ** The rover interface

    [move(d)] returns [(success, reason)] and changes the rover;
    [get_current_location()] reports the symbol under the rover.  A reason
    is [None] or a string. *)
Record RoverOps (R : Type) := {
  move : Dir → R → (bool * option string) * R;
  get_current_location : R → string;
}.
Arguments move {R} _ _ _.
Arguments get_current_location {R} _ _.

(** [reason == "Obstructed Space"] *)
Definition is_obstructed (reason : option string) : bool :=
  match reason with
  | Some s => bool_decide (s = "Obstructed Space")
  | None => false
  end.

(** Ghost record of one probe: the neighbour a move was attempted for and
    what came back.  The algorithm never reads it. *)
Inductive outcome :=
| Moved (symbol : string)
| Refused (reason : option string).

Definition home : Coord := (0, 0)%Z.

Section Explorer.
Context {R : Type} (ops : RoverOps R).

(** [_travel(rover, path)]: the results of the moves are dropped. *)
Definition _travel (rover : R) (path : list Dir) : R :=
  foldl (fun r d => (move ops d r).2) rover path.

(** The variables of [map_surface_with_battery_constraint] that its loops
    change, and the ghost list of probes. *)
Record vars := Vars {
  rover : R;
  explored : gmap Coord string;
  parents : gmap Coord (option Coord);
  next_frontier : list Coord;
  attempts : list (Coord * outcome);
}.

(** One turn of [for d, nbr in _neighbours(tile)]. *)
Definition probe (tile : Coord) (path : list Dir) (v : vars)
    (dn : Dir * Coord) : vars :=
  let '(d, nbr) := dn in
  if decide (is_Some (explored v !! nbr)) then v
  else if decide (FULL_BATTERY < _roundtrip_cost path nbr home)%Z then v
  else
    let '((success, reason), rover1) := move ops d (rover v) in
    if negb success then
      Vars rover1
        (if is_obstructed reason then <[nbr := "X"]> (explored v)
         else explored v)
        (parents v) (next_frontier v)
        (attempts v ++ [(nbr, Refused reason)])
    else
      let symbol := get_current_location ops rover1 in
      Vars (move ops (OPPOSITE d) rover1).2
        (<[nbr := symbol]> (explored v))
        (<[nbr := Some tile]> (parents v))
        (next_frontier v ++ [nbr])
        (attempts v ++ [(nbr, Moved symbol)]).

(** One turn of [for tile in frontier]. *)
Definition visit (fuel : nat) (v : vars) (tile : Coord) : result vars :=
  path ← _reconstruct_path fuel tile (parents v);
  let v1 := Vars (_travel (rover v) path) (explored v) (parents v)
              (next_frontier v) (attempts v) in
  let v2 := foldl (probe tile path) v1 (_neighbours tile) in
  Ok (Vars (_travel (rover v2) (_reverse_path path)) (explored v2)
        (parents v2) (next_frontier v2) (attempts v2)).

Fixpoint for_frontier (fuel : nat) (v : vars) (frontier : list Coord)
    : result vars :=
  match frontier with
  | [] => Ok v
  | tile :: rest =>
      v' ← visit fuel v tile;
      for_frontier fuel v' rest
  end.

(** The guard of the [while]. *)
Definition loop_guard (frontier : list Coord) (radius : Z) : bool :=
  match frontier with
  | [] => false
  | _ :: _ => bool_decide (2 * (radius + 1) ≤ FULL_BATTERY)%Z
  end.

(** The [while] loop; it returns the variables, the frontier and the
    radius it ended with. *)
Fixpoint while_loop (fuel n : nat) (v : vars) (frontier : list Coord)
    (radius : Z) : result (vars * list Coord * Z) :=
  if loop_guard frontier radius then
    match n with
    | O => Raise OutOfFuel
    | S n' =>
        v' ← for_frontier fuel
               (Vars (rover v) (explored v) (parents v) [] (attempts v))
               frontier;
        while_loop fuel n' v' (next_frontier v') (radius + 1)%Z
    end
  else Ok (v, frontier, radius).

(** The state before the loop, for the rover [Rover(planet)]. *)
Definition initial (rover0 : R) : vars :=
  Vars rover0 {[ home := get_current_location ops rover0 ]}
    {[ home := None ]} [] [].

(** The body of [map_surface_with_battery_constraint] up to its
    [return]. *)
Definition explore (fuel : nat) (rover0 : R)
    : result (vars * list Coord * Z) :=
  while_loop fuel fuel (initial rover0) [home] 0%Z.
End Explorer.

Arguments vars : clear implicits.
Arguments rover {R} _.
Arguments explored {R} _.
Arguments parents {R} _.
Arguments next_frontier {R} _.
Arguments attempts {R} _.
Arguments Vars {R} _ _ _ _ _.

(** ** A rover on a grid planet *)

Module RoverModel.

(** Modelled from the spec: the planet grid of [planet_intel.py], which is
    not part of [main.py]: a fixed 2-D grid of characters, one string per
    row, with one ['H'] cell; ['X'] cells are obstructed.  A position
    outside the grid holds no cell. *)
Definition cell (grid : list string) (pos : Coord) : option ascii :=
  if decide (0 ≤ pos.1 ∧ 0 ≤ pos.2)%Z then
    row ← grid !! Z.to_nat pos.1;
    String.get (Z.to_nat pos.2) row
  else None.

Fixpoint find_in_row (row : string) (c : Z) : option Z :=
  match row with
  | EmptyString => None
  | String ch rest =>
      if decide (ch = "H"%char) then Some c else find_in_row rest (c + 1)%Z
  end.

Fixpoint find_home (grid : list string) (r : Z) : Coord :=
  match grid with
  | [] => (0, 0)%Z
  | row :: rest =>
      match find_in_row row 0%Z with
      | Some c => (r, c)
      | None => find_home rest (r + 1)%Z
      end
  end.

Record Rover := {
  grid : list string;
  location : Coord;
  battery : Z;
  capacity : Z;
  recharges : bool;
}.

(** The reason of a move refused for lack of battery.  The spec gives no
    text for it, only that it is not ["Obstructed Space"]. *)
Definition BATTERY_EXHAUSTED : string := "Battery Exhausted".

(** Modelled from the spec: the method [Rover.move] of [rover.py], which
    is not part of [main.py].  The rover refuses a move when its battery
    is exhausted or when the destination is obstructed, and a successful
    move costs one unit of battery.  The spec does not say whether the
    battery is refilled when the rover is back on the ['H'] cell:
    [recharges = false] follows its words, and [recharges = true] is the
    rover that refills there.  A destination outside the grid is taken as
    obstructed. *)
Definition move (d : Dir) (r : Rover) : (bool * option string) * Rover :=
  if decide (battery r ≤ 0)%Z then ((false, Some BATTERY_EXHAUSTED), r)
  else
    let dest := shift (location r) (delta d) in
    match cell (grid r) dest with
    | None => ((false, Some "Obstructed Space"), r)
    | Some ch =>
        if decide (ch = "X"%char) then ((false, Some "Obstructed Space"), r)
        else
          ((true, None),
           {| grid := grid r; location := dest;
              battery := if recharges r && bool_decide (ch = "H"%char)
                         then capacity r else (battery r - 1)%Z;
              capacity := capacity r; recharges := recharges r |})
    end.

(** Modelled from the spec: [Rover.get_current_location] of [rover.py]:
    the single-character symbol of the cell the rover is on. *)
Definition get_current_location (r : Rover) : string :=
  match cell (grid r) (location r) with
  | Some ch => String ch EmptyString
  | None => "?"
  end.

Definition ops : RoverOps Rover :=
  Build_RoverOps Rover move get_current_location.

(** Modelled from the spec: [Rover(planet)], a rover on the ['H'] cell
    with the default full battery of 20 units. *)
Definition new (recharge : bool) (planet : list string) : Rover :=
  {| grid := planet; location := find_home planet 0%Z;
     battery := FULL_BATTERY; capacity := FULL_BATTERY;
     recharges := recharge |}.

(** The rover's displacement from the ['H'] cell, which is the
    explorer's coordinate of its position. *)
Definition displacement (r : Rover) : Coord :=
  let h := find_home (grid r) 0%Z in
  ((location r).1 - h.1, (location r).2 - h.2)%Z.

End RoverModel.

(** ** Map assembly *)

(** [[pos for pos, ch in explored.items() if ch != 'X']] *)
Definition in_bounds (explored : gmap Coord string) : list Coord :=
  (filter (λ kv, kv.2 ≠ "X") (map_to_list explored)).*1.

(** [min] and [max] of a non-empty sequence of integers. *)
Definition list_min (x : Z) (xs : list Z) : Z := foldl Z.min x xs.
Definition list_max (x : Z) (xs : list Z) : Z := foldl Z.max x xs.

(** [rows, cols = zip] of the coordinates, then
    [(min(rows), max(rows), min(cols), max(cols))]; none for no
    coordinate. *)
Definition box_of (points : list Coord) : option (Z * Z * Z * Z) :=
  match points with
  | [] => None
  | (r, c) :: rest =>
      Some (list_min r rest.*1, list_max r rest.*1,
            list_min c rest.*2, list_max c rest.*2)
  end.

(** [(min_r, max_r, min_c, max_c)] of [_sparse_to_dense], when [in_bounds]
    is not empty. *)
Definition bounding_box (explored : gmap Coord string)
    : option (Z * Z * Z * Z) :=
  box_of (in_bounds explored).

(** [if 0 <= rr < h and 0 <= cc < w: grid[rr][cc] = ch] *)
Definition write_cell (min_r min_c h w : Z) (grid : list (list string))
    (kv : Coord * string) : list (list string) :=
  let '((r, c), ch) := kv in
  let rr := (r - min_r)%Z in
  let cc := (c - min_c)%Z in
  if decide (0 ≤ rr < h ∧ 0 ≤ cc < w)%Z
  then alter (λ row, <[Z.to_nat cc := ch]> row) (Z.to_nat rr) grid
  else grid.

(** [h] rows of [w] placeholders, then one write per item. *)
Definition fill_grid (items : list (Coord * string)) (box : Z * Z * Z * Z)
    : list (list string) :=
  let '(min_r, max_r, min_c, max_c) := box in
  let h := (max_r - min_r + 1)%Z in
  let w := (max_c - min_c + 1)%Z in
  foldl (write_cell min_r min_c h w)
    (replicate (Z.to_nat h) (replicate (Z.to_nat w) "?")) items.

(** The grid of [_sparse_to_dense] before it is trimmed.  The items of a
    dictionary come in insertion order and those of a [gmap] in the order
    of [map_to_list]; the box and the grid are the same for every order
    ([box_of_order], [fill_grid_order]). *)
Definition dense_grid (explored : gmap Coord string) (box : Z * Z * Z * Z)
    : list (list string) :=
  fill_grid (map_to_list explored) box.

(** [all(ch == '?' for ch in row)] *)
Definition all_unknown (row : list string) : bool :=
  forallb (λ ch, bool_decide (ch = "?")) row.

(** [while grid and all(ch == '?' for ch in grid[0]): grid.pop(0)] *)
Fixpoint pop_leading (grid : list (list string)) : list (list string) :=
  match grid with
  | [] => []
  | row :: rest => if all_unknown row then pop_leading rest else grid
  end.

(** [while grid and all(ch == '?' for ch in grid[-1]): grid.pop()]; every
    turn shortens the list, so its length bounds the number of turns. *)
Fixpoint pop_trailing_loop (n : nat) (grid : list (list string))
    : list (list string) :=
  match n with
  | O => grid
  | S n' =>
      match last grid with
      | Some row =>
          if all_unknown row then pop_trailing_loop n' (removelast grid)
          else grid
      | None => grid
      end
  end.

Definition pop_trailing (grid : list (list string)) : list (list string) :=
  pop_trailing_loop (length grid) grid.

(** [zip] applied to the rows of [grid] (the starred call): the columns of
    [grid], as many as its shortest row has cells; none for a grid of no
    rows.  Every row has a cell at [j], the default is never taken. *)
Definition zip_star (grid : list (list string)) : list (list string) :=
  match grid with
  | [] => []
  | row :: rest =>
      let n := foldl Nat.min (length row) (length <$> rest) in
      (λ j, (λ r, default "?" (r !! j)) <$> grid) <$> seq 0 n
  end.

Definition _trim_unknown_border (grid : list (list string))
    : list (list string) :=
  let grid := pop_trailing (pop_leading grid) in
  match grid with
  | [] => [[]]
  | _ :: _ =>
      let transposed := pop_trailing (pop_leading (zip_star grid)) in
      zip_star transposed
  end.

Definition _sparse_to_dense (explored : gmap Coord string)
    : list (list string) :=
  match bounding_box explored with
  | None => [[]]
  | Some box => _trim_unknown_border (dense_grid explored box)
  end.

(** ** The whole function *)

(** The Discovered-Map [explored] at the [return]. *)
Definition discovered {R} (ops : RoverOps R) (fuel : nat) (rover0 : R)
    : result (gmap Coord string) :=
  s ← explore ops fuel rover0;
  Ok (explored s.1.1).

Definition map_surface_with_battery_constraint {R} (ops : RoverOps R)
    (fuel : nat) (rover0 : R) : result (list (list string)) :=
  s ← explore ops fuel rover0;
  Ok (_sparse_to_dense (explored s.1.1)).

(** * Vocabulary of the statements *)

(** ** Parent links *)

(** [chain parents c n]: following the parent links from [c] reaches home
    in [n] steps, each link joining two adjacent cells. *)
Inductive chain (parents : gmap Coord (option Coord)) : Coord → nat → Prop :=
| chain_home :
    parents !! home = Some None → chain parents home 0
| chain_link c p d n :
    parents !! c = Some (Some p) →
    c = shift p (delta d) →
    chain parents p n →
    chain parents c (S n).

(** [route parents c path]: [path] is the sequence of directions of the
    parent links from home to [c]. *)
Inductive route (parents : gmap Coord (option Coord))
    : Coord → list Dir → Prop :=
| route_home :
    parents !! home = Some None → route parents home []
| route_link c p d path :
    parents !! c = Some (Some p) →
    c = shift p (delta d) →
    route parents p path →
    route parents c (path ++ [d]).

(** ** The invariant of the exploration *)

(** The variables with [next_frontier] emptied, as at the head of a turn
    of the [while]. *)
Definition reset {R} (v : vars R) : vars R :=
  Vars (rover v) (explored v) (parents v) [] (attempts v).

(** What holds of the variables while the frontier of depth [k] is
    visited. *)
Record inv {R} (k : nat) (v : vars R) : Prop := {
  inv_chain : ∀ c, is_Some (parents v !! c) →
              ∃ n, n ≤ S k ∧ chain (parents v) c n;
  inv_dom : ∀ c, is_Some (parents v !! c) → is_Some (explored v !! c);
  inv_next : Forall (λ c, chain (parents v) c (S k)) (next_frontier v);
  inv_near : ∀ c, is_Some (explored v !! c) → (_manhattan c home ≤ 10)%Z;
  inv_moved : ∀ nbr sym, (nbr, Moved sym) ∈ attempts v →
              explored v !! nbr = Some sym;
  inv_refused : ∀ nbr reason, (nbr, Refused reason) ∈ attempts v →
                is_obstructed reason = true →
                explored v !! nbr = Some "X";
}.

(** Every entry of the Discovered-Map is the entry of home, or that of a
    coordinate with a probe whose move succeeded or failed with
    ["Obstructed Space"]. *)
Definition logged {R} (v : vars R) : Prop :=
  ∀ c, is_Some (explored v !! c) →
    c = home
    ∨ (∃ symbol, (c, Moved symbol) ∈ attempts v)
    ∨ (c, Refused (Some "Obstructed Space")) ∈ attempts v.

(** ** Rovers that answer alike *)

(** Two rovers that answer alike: related rovers give the same result to
    every move, stay related after it, and report the same symbol. *)
Definition answers_alike {R1 R2} (ops1 : RoverOps R1) (ops2 : RoverOps R2)
    (sim : R1 → R2 → Prop) : Prop :=
  ∀ r1 r2, sim r1 r2 →
    get_current_location ops1 r1 = get_current_location ops2 r2
    ∧ ∀ d, (move ops1 d r1).1 = (move ops2 d r2).1
           ∧ sim (move ops1 d r1).2 (move ops2 d r2).2.

(** The same variables, up to the rovers. *)
Definition same_vars {R1 R2} (sim : R1 → R2 → Prop) (v1 : vars R1)
    (v2 : vars R2) : Prop :=
  sim (rover v1) (rover v2)
  ∧ explored v1 = explored v2
  ∧ parents v1 = parents v2
  ∧ next_frontier v1 = next_frontier v2
  ∧ attempts v1 = attempts v2.

Definition same_result {A B} (rel : A → B → Prop) (x : result A)
    (y : result B) : Prop :=
  match x, y with
  | Ok a, Ok b => rel a b
  | Raise e1, Raise e2 => e1 = e2
  | _, _ => False
  end.

Definition same_state {R1 R2} (sim : R1 → R2 → Prop)
    (s1 : vars R1 * list Coord * Z) (s2 : vars R2 * list Coord * Z) : Prop :=
  same_vars sim s1.1.1 s2.1.1 ∧ s1.1.2 = s2.1.2 ∧ s1.2 = s2.2.

(** ** Rovers that are never short of battery *)

(** [place r] is the rover's position as the explorer counts it and [free]
    are the cells it can stand on: a move succeeds exactly when its
    destination is free, it takes the rover there, and a refused move
    leaves the rover where it is. *)
Definition never_short {R} (ops : RoverOps R) (place : R → Coord)
    (free : Coord → Prop) : Prop :=
  ∀ d r,
    (free (shift (place r) (delta d)) → (move ops d r).1.1 = true)
    ∧ ((move ops d r).1.1 = true →
       place (move ops d r).2 = shift (place r) (delta d)
       ∧ free (shift (place r) (delta d)))
    ∧ ((move ops d r).1.1 = false → place (move ops d r).2 = place r).

(** ** Grids and boxes *)

(** The cell in row [i] and column [j] of a grid, if there is one. *)
Definition grid_at (grid : list (list string)) (i j : nat) : option string :=
  row ← grid !! i; row !! j.

Definition has_dims (h w : nat) (grid : list (list string)) : Prop :=
  length grid = h ∧ Forall (λ row, length row = w) grid.

(** The cell [write_cell] writes a coordinate to, if it writes it. *)
Definition slot (min_r min_c hz wz : Z) (pos : Coord) : option (nat * nat) :=
  if decide (0 ≤ pos.1 - min_r < hz ∧ 0 ≤ pos.2 - min_c < wz)%Z
  then Some (Z.to_nat (pos.1 - min_r), Z.to_nat (pos.2 - min_c))
  else None.

(** The coordinates with an entry other than ['X']. *)
Definition non_obstructed (explored : gmap Coord string) (pos : Coord)
    : Prop :=
  ∃ ch, explored !! pos = Some ch ∧ ch ≠ "X".

(** [box] is the least box around the coordinates that satisfy [P]. *)
Definition tight_box (P : Coord → Prop) (box : Z * Z * Z * Z) : Prop :=
  let '(min_r, max_r, min_c, max_c) := box in
  (∀ r c, P (r, c) → (min_r ≤ r ≤ max_r ∧ min_c ≤ c ≤ max_c)%Z)
  ∧ (∃ c, P (min_r, c)) ∧ (∃ c, P (max_r, c))
  ∧ (∃ r, P (r, min_c)) ∧ (∃ r, P (r, max_c)).


(** The cell of a grid at integer offsets; none at a negative offset. *)
Definition cell_at (grid : list (list string)) (rr cc : Z) : option string :=
  if decide (0 ≤ rr ∧ 0 ≤ cc)%Z
  then grid_at grid (Z.to_nat rr) (Z.to_nat cc)
  else None.

(** Column [j] of a grid, as [zip_star] builds it. *)
Definition column (j : nat) (rows : list (list string)) : list string :=
  (λ r, default "?" (r !! j)) <$> rows.

(** Every row holds ['?'] in column [j]. *)
Definition column_unknown (rows : list (list string)) (j : nat) : Prop :=
  ∀ row, row ∈ rows → row !! j = Some "?".

(** Every cell of the row holds ['?']. *)
Definition row_unknown (row : list string) : Prop :=
  ∀ ch, ch ∈ row → ch = "?".

(** ** Planets, rovers and maps used as examples *)

Definition small_room : list string :=
  [ "XXXXX";
    "XH..X";
    "X...X";
    "XXXXX" ].

Definition junction : list string :=
  [ "XXXXXXXXXXXX";
    "XXXXXXXXX.XX";
    "XH.........X";
    "XXXXXXXXX.XX";
    "XXXXXXXXXXXX" ].

(** The final position of the rover of [RoverModel] on a planet, as the
    explorer counts coordinates (home is [(0, 0)]). *)
Definition final_displacement (recharge : bool) (planet : list string)
    (fuel : nat) : result Coord :=
  s ← explore RoverModel.ops fuel (RoverModel.new recharge planet);
  Ok (RoverModel.displacement (rover s.1.1)).

(** The rover of [RoverModel] without a battery: its state is its
    displacement from the ['H'] cell of the planet. *)
Definition roaming_cell (planet : list string) (pos : Coord) : option ascii :=
  RoverModel.cell planet (shift (RoverModel.find_home planet 0%Z) pos).

Definition roaming_free (planet : list string) (pos : Coord) : Prop :=
  ∃ ch, roaming_cell planet pos = Some ch ∧ ch ≠ "X"%char.

Definition roaming_ops (planet : list string) : RoverOps Coord :=
  {| move := λ d pos,
       match roaming_cell planet (shift pos (delta d)) with
       | Some ch =>
           if decide (ch = "X"%char)
           then ((false, Some "Obstructed Space"), pos)
           else ((true, None), shift pos (delta d))
       | None => ((false, Some "Obstructed Space"), pos)
       end;
     get_current_location := λ pos,
       match roaming_cell planet pos with
       | Some ch => String ch EmptyString
       | None => "?"
       end |}.

(** A second representation of the rover of [RoverModel]: the rover
    together with the number of moves asked of it. *)
Definition counting_ops : RoverOps (RoverModel.Rover * nat) :=
  {| move := λ d rn,
       let '(answer, r') := RoverModel.move d rn.1 in (answer, (r', S rn.2));
     get_current_location := λ rn, RoverModel.get_current_location rn.1 |}.

(** The corridor of one row, and a rover whose battery is empty. *)
Definition corridor : list string := [ "H...X" ].

Definition flat_rover : RoverModel.Rover :=
  RoverModel.Build_Rover small_room (1, 1)%Z 0 FULL_BATTERY false.

(** A Discovered-Map with an obstruction far from the cells travelled. *)
Definition far_obstruction : gmap Coord string :=
  {[ (0, 0)%Z := "H"; (1, 0)%Z := "."; (5, 5)%Z := "X" ]}.

(** A grid with a border of placeholders. *)
Definition padded_grid : list (list string) :=
  [ ["?"; "?"; "?"];
    ["?"; "a"; "?"];
    ["?"; "?"; "b"];
    ["?"; "?"; "?"] ].

(** A planet without obstruction, the ['H'] in its middle. *)
Definition open_field : list string :=
  [ ".....";
    ".....";
    "..H..";
    ".....";
    "....." ].


(** * The rest of the code *)

(** ** The explorer without the round-trip check *)

Section Unchecked.
Context {R : Type} (ops : RoverOps R).

(** [probe] without the two lines
    [if _roundtrip_cost(path, nbr, home) > FULL_BATTERY: continue]. *)
Definition probe_unchecked (tile : Coord) (v : vars R) (dn : Dir * Coord)
    : vars R :=
  let '(d, nbr) := dn in
  if decide (is_Some (explored v !! nbr)) then v
  else
    let '((success, reason), rover1) := move ops d (rover v) in
    if negb success then
      Vars rover1
        (if is_obstructed reason then <[nbr := "X"]> (explored v)
         else explored v)
        (parents v) (next_frontier v)
        (attempts v ++ [(nbr, Refused reason)])
    else
      let symbol := get_current_location ops rover1 in
      Vars (move ops (OPPOSITE d) rover1).2
        (<[nbr := symbol]> (explored v))
        (<[nbr := Some tile]> (parents v))
        (next_frontier v ++ [nbr])
        (attempts v ++ [(nbr, Moved symbol)]).

Definition visit_unchecked (fuel : nat) (v : vars R) (tile : Coord)
    : result (vars R) :=
  path ← _reconstruct_path fuel tile (parents v);
  let v1 := Vars (_travel ops (rover v) path) (explored v) (parents v)
              (next_frontier v) (attempts v) in
  let v2 := foldl (probe_unchecked tile) v1 (_neighbours tile) in
  Ok (Vars (_travel ops (rover v2) (_reverse_path path)) (explored v2)
        (parents v2) (next_frontier v2) (attempts v2)).

Fixpoint for_frontier_unchecked (fuel : nat) (v : vars R)
    (frontier : list Coord) : result (vars R) :=
  match frontier with
  | [] => Ok v
  | tile :: rest =>
      v' ← visit_unchecked fuel v tile;
      for_frontier_unchecked fuel v' rest
  end.

Fixpoint while_loop_unchecked (fuel n : nat) (v : vars R)
    (frontier : list Coord) (radius : Z) : result (vars R * list Coord * Z) :=
  if loop_guard frontier radius then
    match n with
    | O => Raise OutOfFuel
    | S n' =>
        v' ← for_frontier_unchecked fuel
               (Vars (rover v) (explored v) (parents v) [] (attempts v))
               frontier;
        while_loop_unchecked fuel n' v' (next_frontier v') (radius + 1)%Z
    end
  else Ok (v, frontier, radius).

Definition explore_unchecked (fuel : nat) (rover0 : R)
    : result (vars R * list Coord * Z) :=
  while_loop_unchecked fuel fuel (initial ops rover0) [home] 0%Z.
End Unchecked.

(** ** Printing a map *)

(** ['\n'] *)
Definition newline : string := String (ascii_of_nat 10) EmptyString.

(** [''.join(row)] *)
Definition join_row (row : list string) : string := String.concat "" row.

(** [pretty] of [run_maps.py]: the rows joined, with a newline between
    two rows. *)
Definition pretty (grid : list (list string)) : string :=
  String.concat newline (join_row <$> grid).

(** What the loop of [print_map_to_file] writes: one [f.write] per row. *)
Definition file_text (map_data : list (list string)) : string :=
  foldl (λ text row, text +:+ (join_row row +:+ newline)) "" map_data.

(** [print_map_to_file]: the files are a map from names to texts, and
    opening a file with mode ['w'] replaces its text.  Failures of the file
    system are left out. *)
Definition print_map_to_file (files : gmap string string)
    (map_data : list (list string)) (filename : string)
    : gmap string string :=
  <[filename := file_text map_data]> files.

(** ** Reachability on the planet grid *)

(** [grid[nr][nc]] for indices that are not negative; [None] stands for
    [IndexError]. *)
Definition grid_get (grid : list string) (nr nc : Z) : option ascii :=
  row ← grid !! Z.to_nat nr;
  String.get (Z.to_nat nc) row.

(** [len(grid[0]) if max_r > 0 else 0] *)
Definition width_of (grid : list string) : Z :=
  match grid with
  | [] => 0%Z
  | row :: _ => Z.of_nat (String.length row)
  end.

(** The list [[(-1, 0), (1, 0), (0, 1), (0, -1)]] of [reachable]. *)
Definition STEPS : list (Z * Z) :=
  [((-1)%Z, 0%Z); (1%Z, 0%Z); (0%Z, 1%Z); (0%Z, (-1)%Z)].

(** What one turn of the [while] of [reachable] ends with: [return True],
    an [IndexError], or the next [seen] and [Q]. *)
Inductive scan_out :=
| Hit
| Ragged
| Scanned (seen : gset Coord) (Q : list Coord).

(** The [for dr, dc in ...] loop for the popped cell [(r, c)]. *)
Fixpoint scan (grid : list string) (max_r max_c : Z) (target : Coord)
    (r c : Z) (steps : list (Z * Z)) (seen : gset Coord) (Q : list Coord)
    : scan_out :=
  match steps with
  | [] => Scanned seen Q
  | (dr, dc) :: rest =>
      let nr := (r + dr)%Z in
      let nc := (c + dc)%Z in
      if decide (0 ≤ nr < max_r ∧ 0 ≤ nc < max_c)%Z then
        if decide ((nr, nc) = target) then Hit
        else if decide ((nr, nc) ∈ seen)
        then scan grid max_r max_c target r c rest seen Q
        else
          match grid_get grid nr nc with
          | None => Ragged
          | Some ch =>
              if decide (ch = "X"%char)
              then scan grid max_r max_c target r c rest seen Q
              else scan grid max_r max_c target r c rest
                     ({[ (nr, nc) ]} ∪ seen) (Q ++ [(nr, nc)])
          end
      else scan grid max_r max_c target r c rest seen Q
  end.

(** The result of [reachable]: a boolean, an [IndexError], or no answer
    within the turns allowed. *)
Inductive reach :=
| Reached (found : bool)
| IndexError
| Unfinished.

(** The [while Q:] loop. *)
Fixpoint bfs (fuel : nat) (grid : list string) (max_r max_c : Z)
    (target : Coord) (seen : gset Coord) (Q : list Coord) : reach :=
  match Q with
  | [] => Reached false
  | (r, c) :: Q' =>
      match fuel with
      | O => Unfinished
      | S fuel' =>
          match scan grid max_r max_c target r c STEPS seen Q' with
          | Hit => Reached true
          | Ragged => IndexError
          | Scanned seen' Q'' => bfs fuel' grid max_r max_c target seen' Q''
          end
      end
  end.

(** [reachable(home, target, planet)] of [run_maps.py], on the rows
    [planet._Planet__grid]. *)
Definition reachable (fuel : nat) (home target : Coord) (grid : list string)
    : reach :=
  bfs fuel grid (Z.of_nat (length grid)) (width_of grid) target
    {[ home ]} [home].

(** A cell inside the grid. *)
Definition in_grid (grid : list string) (pos : Coord) : Prop :=
  (0 ≤ pos.1 < Z.of_nat (length grid) ∧ 0 ≤ pos.2 < width_of grid)%Z.

(** A cell inside the grid that is not ['X']. *)
Definition passable (grid : list string) (pos : Coord) : Prop :=
  in_grid grid pos
  ∧ ∃ ch, grid_get grid pos.1 pos.2 = Some ch ∧ ch ≠ "X"%char.

(** The cells joined to [home] by unit steps through passable cells;
    [home] itself may be any cell. *)
Inductive linked (grid : list string) (home : Coord) : Coord → Prop :=
| linked_home : linked grid home home
| linked_step pos dv :
    linked grid home pos → dv ∈ STEPS → passable grid (shift pos dv) →
    linked grid home (shift pos dv).

(** All rows are as long as the first. *)
Definition rectangular (grid : list string) : Prop :=
  Forall (λ row, Z.of_nat (String.length row) = width_of grid) grid.

(** The planets of [run_maps.py]. *)
Definition bottleneck_maze : list string :=
  [ "H...X....";
    ".XXX.X.X.";
    ".....X...";
    "X.X.X.XXX";
    "...X....." ].

(** The cells inside the grid, as a finite set. *)
Definition cells_of (grid : list string) : gset Coord :=
  list_to_set
    ((λ ij : nat * nat, (Z.of_nat ij.1, Z.of_nat ij.2))
       <$> list_prod (seq 0 (length grid))
             (seq 0 (Z.to_nat (width_of grid)))).

(** The step [dv] out of [pos], when it stays inside the grid, misses the
    target and leads to a seen cell or to an obstruction. *)
Definition step_closed (grid : list string) (target : Coord)
    (seen : gset Coord) (pos : Coord) (dv : Z * Z) : Prop :=
  in_grid grid (shift pos dv) →
  shift pos dv ≠ target
  ∧ (passable grid (shift pos dv) → shift pos dv ∈ seen).

Definition closed (grid : list string) (target : Coord) (seen : gset Coord)
    (pos : Coord) : Prop :=
  ∀ dv, dv ∈ STEPS → step_closed grid target seen pos dv.

(** What holds of the outcome of [scan] for the popped cell [pos]. *)
Definition scan_post (grid : list string) (target pos : Coord)
    (steps : list (Z * Z)) (seen : gset Coord) (Q : list Coord)
    (out : scan_out) : Prop :=
  match out with
  | Hit =>
      ∃ dv, dv ∈ steps ∧ in_grid grid (shift pos dv)
            ∧ shift pos dv = target
  | Ragged => False
  | Scanned seen' Q' =>
      seen ⊆ seen'
      ∧ (∀ x, x ∈ Q → x ∈ Q')
      ∧ (∀ x, x ∈ Q' → x ∈ Q ∨ x ∈ seen')
      ∧ (∀ x, x ∈ seen' →
           x ∈ seen
           ∨ (x ∈ Q' ∧ ∃ dv, dv ∈ steps ∧ x = shift pos dv
                             ∧ passable grid x))
      ∧ (∀ dv, dv ∈ steps → step_closed grid target seen' pos dv)
      ∧ size (cells_of grid ∖ seen') + length Q'
        = size (cells_of grid ∖ seen) + length Q
  end.

(** Whether [reachable] should answer [True]: the target is inside the
    grid and one step away from a cell joined to home. *)
Definition next_to_linked (grid : list string) (home target : Coord) : Prop :=
  in_grid grid target
  ∧ ∃ pos dv, linked grid home pos ∧ dv ∈ STEPS ∧ shift pos dv = target.

(** ** Mapping without a battery limit *)

Module MapSurface.

(** What [map_surface] can raise. *)
Inductive error := RecursionError | IndexError | StopIteration.

Inductive answer (A : Type) :=
| Return (a : A)
| Raised (e : error).
Arguments Return {A} a.
Arguments Raised {A} e.

Global Instance answer_bind : MBind answer := λ A B f m,
  match m with
  | Return a => f a
  | Raised e => Raised e
  end.

(** The variables [rover], [explored] and [visited] that the calls of
    [dfs] share. *)
Record state (R : Type) := State {
  rover : R;
  explored : gmap Coord string;
  visited : gset Coord;
}.
Arguments State {R} _ _ _.
Arguments rover {R} _.
Arguments explored {R} _.
Arguments visited {R} _.

Section Dfs.
Context {R : Type} (ops : RoverOps R) (num_rows num_cols : Z).

Definition in_bounds (r c : Z) : bool :=
  bool_decide (0 ≤ r < num_rows ∧ 0 ≤ c < num_cols)%Z.

(** The loop [for d, (dr, dc) in DIRS.items()] of [dfs(r, c)], where
    [call] is [dfs] one frame deeper.  The tables [DIRS] and [REVERSE]
    local to [map_surface] are equal to [DIRS] and [OPPOSITE]. *)
Fixpoint dfs_dirs (call : Z → Z → state R → answer (state R)) (r c : Z)
    (dirs : list (Dir * (Z * Z))) (s : state R) : answer (state R) :=
  match dirs with
  | [] => Return s
  | (d, (dr, dc)) :: rest =>
      let nr := (r + dr)%Z in
      let nc := (c + dc)%Z in
      let '((success, _), rover1) := move ops d (rover s) in
      if success then
        s' ← call nr nc (State rover1 (explored s) (visited s));
        dfs_dirs call r c rest
          (State (move ops (OPPOSITE d) (rover s')).2 (explored s')
             (visited s'))
      else if in_bounds nr nc
              && negb (bool_decide (is_Some (explored s !! (nr, nc))))
      then
        dfs_dirs call r c rest
          (State rover1 (<[(nr, nc) := "X"]> (explored s)) (visited s))
      else dfs_dirs call r c rest (State rover1 (explored s) (visited s))
  end.

(** [dfs(r, c)] with [depth] frames left before the recursion limit. *)
Fixpoint dfs (depth : nat) (r c : Z) (s : state R) : answer (state R) :=
  match depth with
  | O => Raised RecursionError
  | S depth' =>
      if decide ((r, c) ∈ visited s) then Return s
      else
        dfs_dirs (dfs depth') r c DIRS
          (State (rover s)
             (<[(r, c) := get_current_location ops (rover s)]> (explored s))
             ({[ (r, c) ]} ∪ visited s))
  end.
End Dfs.

(** [for c in range(num_cols)] with the test [grid[r][c] == 'H'], from
    column [c] on, for [n] more columns. *)
Fixpoint find_in_cols (row : string) (r : Z) (c n : nat)
    : answer (option Coord) :=
  match n with
  | O => Return None
  | S n' =>
      match String.get c row with
      | None => Raised IndexError
      | Some ch =>
          if decide (ch = "H"%char) then Return (Some (r, Z.of_nat c))
          else find_in_cols row r (S c) n'
      end
  end.

(** [next((r, c) for r in range(num_rows) for c in range(num_cols)
    if grid[r][c] == 'H')], from row [r] on. *)
Fixpoint find_start (rows : list string) (r : Z) (num_cols : nat)
    : answer Coord :=
  match rows with
  | [] => Raised StopIteration
  | row :: rest =>
      found ← find_in_cols row r 0 num_cols;
      match found with
      | Some pos => Return pos
      | None => find_start rest (r + 1)%Z num_cols
      end
  end.

(** [map_surface(planet)] on the rows [planet._Planet__grid]; [rover0] is
    the rover [Rover(planet, math.inf)]. *)
Definition map_surface {R : Type} (ops : RoverOps R) (depth : nat)
    (grid : list string) (rover0 : R) : answer (list (list string)) :=
  match grid with
  | [] => Raised IndexError
  | row0 :: _ =>
      let num_rows := Z.of_nat (length grid) in
      let num_cols := String.length row0 in
      start ← find_start grid 0%Z num_cols;
      s ← dfs ops num_rows (Z.of_nat num_cols) depth start.1 start.2
             (State rover0 ∅ ∅);
      Return (_sparse_to_dense (explored s))
  end.

End MapSurface.

(** The cells joined to [start] by unit moves through free cells. *)
Inductive joined (free : Coord → Prop) (start : Coord) : Coord → Prop :=
| joined_start : joined free start start
| joined_step q d :
    joined free start q → free (shift q (delta d)) →
    joined free start (shift q (delta d)).

(** What holds of [explored] and [visited] between two steps of [dfs]:
    a visited cell is free, joined to the start and mapped with its symbol;
    any other entry is an ['X'] inside the bounds, on a cell that is not
    free and lies next to a visited one. *)
Definition good {R : Type} (free : Coord → Prop) (symbol : Coord → string)
    (num_rows num_cols : Z) (start : Coord) (s : MapSurface.state R) : Prop :=
  (∀ p, p ∈ MapSurface.visited s →
     free p ∧ joined free start p
     ∧ MapSurface.explored s !! p = Some (symbol p))
  ∧ (∀ p v, p ∉ MapSurface.visited s →
       MapSurface.explored s !! p = Some v →
       v = "X" ∧ MapSurface.in_bounds num_rows num_cols p.1 p.2 = true
       ∧ ¬ free p
       ∧ ∃ q d, q ∈ MapSurface.visited s ∧ p = shift q (delta d)).

(** The direction [d] out of [q] is dealt with: a free neighbour is
    visited, and one that is not free is mapped ['X'] if inside the
    bounds. *)
Definition done_at {R : Type} (free : Coord → Prop) (num_rows num_cols : Z)
    (s : MapSurface.state R) (q : Coord) (d : Dir) : Prop :=
  (free (shift q (delta d)) → shift q (delta d) ∈ MapSurface.visited s)
  ∧ (¬ free (shift q (delta d)) →
     MapSurface.in_bounds num_rows num_cols (shift q (delta d)).1
       (shift q (delta d)).2 = true →
     MapSurface.explored s !! shift q (delta d) = Some "X").

(** Every visited cell is on the stack [stack] of calls or dealt with in
    all directions. *)
Definition settled {R : Type} (free : Coord → Prop) (num_rows num_cols : Z)
    (s : MapSurface.state R) (stack : Coord → Prop) : Prop :=
  ∀ q, q ∈ MapSurface.visited s →
    stack q ∨ ∀ d, done_at free num_rows num_cols s q d.

(** From [s] to [s']: more cells visited, and the entries of the cells
    that are not free kept. *)
Definition ext {R : Type} (free : Coord → Prop) (s s' : MapSurface.state R)
    : Prop :=
  MapSurface.visited s ⊆ MapSurface.visited s'
  ∧ ∀ p v, ¬ free p → MapSurface.explored s !! p = Some v →
      MapSurface.explored s' !! p = Some v.

(** What a call of [dfs] at [pos] leaves. *)
Definition dfs_post {R : Type} (place : R → Coord) (free : Coord → Prop)
    (symbol : Coord → string) (num_rows num_cols : Z) (start pos : Coord)
    (s s' : MapSurface.state R) : Prop :=
  place (MapSurface.rover s') = pos
  ∧ ext free s s'
  ∧ pos ∈ MapSurface.visited s'
  ∧ good free symbol num_rows num_cols start s'
  ∧ ∀ stack, settled free num_rows num_cols s stack →
      settled free num_rows num_cols s' stack.

(** The first ['H'] of the grid in reading order, among the first
    [num_cols] columns. *)
Definition first_home (grid : list string) (num_cols : nat) (pos : Coord)
    : Prop :=
  ∃ i j,
    pos = (Z.of_nat i, Z.of_nat j) ∧ j < num_cols
    ∧ grid_get grid (Z.of_nat i) (Z.of_nat j) = Some "H"%char
    ∧ ∀ i' j', j' < num_cols → i' < i ∨ (i' = i ∧ j' < j) →
        grid_get grid (Z.of_nat i') (Z.of_nat j') ≠ Some "H"%char.

(** No ['H'] among the first [num_cols] columns. *)
Definition no_home (grid : list string) (num_cols : nat) : Prop :=
  ∀ i j, j < num_cols →
    grid_get grid (Z.of_nat i) (Z.of_nat j) ≠ Some "H"%char.

(** * Properties *)

(** ** Parent links *)

Lemma chain_mono (parents parents' : gmap Coord (option Coord)) c n :
  parents ⊆ parents' → chain parents c n → chain parents' c n.
Proof.
  intros Hsub Hc. induction Hc as [Hroot | c p d n Hp Hadj _ IH].
  - apply chain_home. by eapply lookup_weaken.
  - eapply chain_link; [by eapply lookup_weaken | done | done].
Qed.

Lemma chain_is_Some (parents : gmap Coord (option Coord)) c n :
  chain parents c n → is_Some (parents !! c).
Proof. destruct 1; eauto. Qed.

Lemma manhattan_shift (p : Coord) d :
  (_manhattan (shift p (delta d)) home ≤ _manhattan p home + 1)%Z.
Proof.
  destruct p as [r c]. unfold _manhattan, shift, home.
  destruct d; simpl; lia.
Qed.

Lemma chain_manhattan (parents : gmap Coord (option Coord)) c n :
  chain parents c n → (_manhattan c home ≤ Z.of_nat n)%Z.
Proof.
  induction 1 as [Hroot | c p d n Hp -> _ IH].
  - unfold _manhattan, home. simpl. lia.
  - pose proof (manhattan_shift p d). lia.
Qed.

Lemma append_dir_shift (prev : Coord) d path :
  append_dir prev (shift prev (delta d)) DIRS path = path ++ [d].
Proof.
  destruct prev as [r c]. unfold shift.
  destruct d; simpl; repeat case_decide; simplify_eq; try done; try lia.
Qed.

Lemma walk_snoc start path d :
  walk start (path ++ [d]) = shift (walk start path) (delta d).
Proof. unfold walk. by rewrite foldl_app. Qed.

Lemma reconstruct_loop_chain (parents : gmap Coord (option Coord)) c n :
  chain parents c n →
  ∀ fuel acc, n ≤ fuel →
    ∃ ds, reconstruct_loop fuel parents c acc = Ok (acc ++ ds)
          ∧ length ds = n ∧ walk home (reverse ds) = c.
Proof.
  induction 1 as [Hroot | c p d n Hp -> Hch IH]; intros fuel acc Hfuel.
  - exists []. destruct fuel; simpl; rewrite Hroot, app_nil_r; done.
  - destruct fuel as [|fuel]; [lia|]. cbn [reconstruct_loop]. rewrite Hp.
    rewrite append_dir_shift.
    destruct (IH fuel (acc ++ [d])) as (ds & Hloop & Hlen & Hwalk); [lia|].
    exists (d :: ds). split_and!.
    + by rewrite Hloop, <-app_assoc.
    + simpl. by rewrite Hlen.
    + by rewrite reverse_cons, walk_snoc, Hwalk.
Qed.

Lemma reconstruct_path_chain (parents : gmap Coord (option Coord)) c n fuel :
  chain parents c n → n ≤ fuel →
  ∃ path, _reconstruct_path fuel c parents = Ok path
          ∧ length path = n ∧ walk home path = c.
Proof.
  intros Hch Hfuel.
  destruct (reconstruct_loop_chain _ _ _ Hch fuel [] Hfuel)
    as (ds & Hloop & Hlen & Hwalk).
  exists (reverse ds). unfold _reconstruct_path. rewrite Hloop. simpl.
  by rewrite length_reverse.
Qed.

(** [delta] is the table [DIRS]. *)
Lemma DIRS_delta :
  DIRS = (λ d, (d, delta d)) <$> [North; South; East; West].
Proof. reflexivity. Qed.

Lemma neighbours_shift (tile : Coord) :
  _neighbours tile
  = (λ d, (d, shift tile (delta d))) <$> [North; South; East; West].
Proof. by destruct tile. Qed.

(** ** The invariant of the exploration *)

Section Invariant.
Context {R : Type} (ops : RoverOps R).

Lemma inv_rover k (v : vars R) (r : R) :
  inv k v →
  inv k (Vars r (explored v) (parents v) (next_frontier v) (attempts v)).
Proof. intros []. by constructor. Qed.

Lemma inv_weaken k k' (v : vars R) : k ≤ k' → inv k v → inv k' (reset v).
Proof.
  intros Hk [Hch Hdom Hnext Hnear Hmv Hrf]. constructor; simpl; try done.
  intros c Hc. destruct (Hch c Hc) as (n & Hn & Hcn). exists n. split; [lia|done].
Qed.

Lemma probe_inv k v tile path d :
  inv k v → chain (parents v) tile k → length path = k →
  let v' := probe ops tile path v (d, shift tile (delta d)) in
  inv k v' ∧ parents v ⊆ parents v' ∧ explored v ⊆ explored v'.
Proof.
  intros Hinv Htile Hlen. pose proof Hinv as [Hch Hdom Hnext Hnear Hmv Hrf].
  cbn zeta. unfold probe. set (nbr := shift tile (delta d)).
  case_decide as Hseen; [done|].
  case_decide as Hcost; [done|].
  apply eq_None_not_Some in Hseen.
  assert (Hnbr : (_manhattan nbr home ≤ 10)%Z).
  { pose proof (chain_manhattan _ _ _ Htile).
    pose proof (manhattan_shift tile d). fold nbr in H0.
    unfold _roundtrip_cost, FULL_BATTERY in Hcost. lia. }
  assert (Hfresh : parents v !! nbr = None).
  { apply eq_None_not_Some. intros Hp. apply Hdom in Hp.
    rewrite Hseen in Hp. by destruct Hp. }
  assert (Hold : ∀ c, is_Some (explored v !! c) → c ≠ nbr).
  { intros c Hc ->. rewrite Hseen in Hc. by destruct Hc. }
  destruct (move ops d (rover v)) as [[success reason] rover1].
  destruct success; simpl.
  - assert (Hsub : parents v ⊆ <[nbr := Some tile]> (parents v))
      by by apply insert_subseteq.
    split_and!; [|done|by apply insert_subseteq].
    assert (Hnew : chain (<[nbr := Some tile]> (parents v)) nbr (S k)).
    { eapply chain_link; [apply lookup_insert_eq|done|].
      by eapply chain_mono. }
    constructor; simpl.
    + intros c. destruct (decide (c = nbr)) as [->|Hne].
      * intros _. exists (S k). split; [lia|done].
      * rewrite lookup_insert_ne by done. intros Hc.
        destruct (Hch c Hc) as (n & Hn & Hcn). exists n.
        split; [done|by eapply chain_mono].
    + intros c. destruct (decide (c = nbr)) as [->|Hne].
      * rewrite !lookup_insert_eq. eauto.
      * rewrite !lookup_insert_ne by done. apply Hdom.
    + apply Forall_app. split; [|by repeat constructor].
      eapply Forall_impl; [done|]. intros c Hc. by eapply chain_mono.
    + intros c. destruct (decide (c = nbr)) as [->|Hne]; [done|].
      rewrite lookup_insert_ne by done. apply Hnear.
    + intros c sym [Hin|Hin%list_elem_of_singleton]%elem_of_app.
      * rewrite lookup_insert_ne; [by apply Hmv|].
        intros <-. apply Hmv in Hin. congruence.
      * simplify_eq. apply lookup_insert_eq.
    + intros c rs [Hin|Hin%list_elem_of_singleton]%elem_of_app Hobs;
        [|done].
      specialize (Hrf _ _ Hin Hobs).
      rewrite lookup_insert_ne; [done|]. intros <-. congruence.
  - split_and!; [|done|].
    2:{ destruct (is_obstructed reason); [by apply insert_subseteq|done]. }
    constructor; simpl; try done.
    + intros c Hc. apply Hdom in Hc.
      destruct (is_obstructed reason); [|done].
      rewrite lookup_insert_ne; [done|]. intros <-. by apply (Hold nbr).
    + intros c. destruct (is_obstructed reason); [|apply Hnear].
      destruct (decide (c = nbr)) as [->|Hne]; [done|].
      rewrite lookup_insert_ne by done. apply Hnear.
    + intros c sym [Hin|Hin%list_elem_of_singleton]%elem_of_app; [|done].
      apply Hmv in Hin. destruct (is_obstructed reason); [|done].
      rewrite lookup_insert_ne; [done|]. intros <-. congruence.
    + intros c rs [Hin|Hin%list_elem_of_singleton]%elem_of_app Hobs.
      * specialize (Hrf _ _ Hin Hobs).
        destruct (is_obstructed reason); [|done].
        rewrite lookup_insert_ne; [done|]. intros <-. congruence.
      * simplify_eq. rewrite Hobs. apply lookup_insert_eq.
Qed.

Lemma probes_inv k tile path ds v :
  inv k v → chain (parents v) tile k → length path = k →
  let v' := foldl (probe ops tile path) v
              ((λ d, (d, shift tile (delta d))) <$> ds) in
  inv k v' ∧ parents v ⊆ parents v' ∧ explored v ⊆ explored v'.
Proof.
  revert v. induction ds as [|d ds IH]; intros v Hinv Htile Hlen; [done|].
  cbn zeta. rewrite fmap_cons. cbn [foldl].
  destruct (probe_inv k v tile path d Hinv Htile Hlen) as (H1 & H2 & H3).
  destruct (IH _ H1) as (H4 & H5 & H6); [by eapply chain_mono|done|].
  split_and!; [done|by etrans|by etrans].
Qed.

Lemma visit_inv k fuel v tile :
  inv k v → chain (parents v) tile k → k ≤ fuel →
  ∃ v', visit ops fuel v tile = Ok v'
        ∧ inv k v' ∧ parents v ⊆ parents v' ∧ explored v ⊆ explored v'.
Proof.
  intros Hinv Htile Hfuel. unfold visit.
  destruct (reconstruct_path_chain _ _ _ fuel Htile Hfuel)
    as (path & -> & Hlen & _).
  cbn [mbind result_bind]. rewrite neighbours_shift.
  eexists. split; [done|].
  edestruct (probes_inv k tile path [North; South; East; West])
    as (H1 & H2 & H3); [apply inv_rover, Hinv|done|done|].
  split_and!; [|exact H2|exact H3]. by apply inv_rover.
Qed.

Lemma for_frontier_inv k fuel tiles v :
  inv k v → Forall (λ c, chain (parents v) c k) tiles → k ≤ fuel →
  ∃ v', for_frontier ops fuel v tiles = Ok v'
        ∧ inv k v' ∧ parents v ⊆ parents v' ∧ explored v ⊆ explored v'.
Proof.
  revert v. induction tiles as [|tile tiles IH]; intros v Hinv Hall Hfuel.
  { exists v. done. }
  apply Forall_cons in Hall as [Htile Hall]. cbn [for_frontier].
  destruct (visit_inv k fuel v tile Hinv Htile Hfuel)
    as (v1 & -> & H1 & H2 & H3).
  cbn [mbind result_bind].
  destruct (IH v1) as (v2 & -> & H4 & H5 & H6); [done| |done|].
  { eapply Forall_impl; [done|]. intros c Hc. by eapply chain_mono. }
  exists v2. split_and!; [done|done|by etrans|by etrans].
Qed.

Lemma while_loop_inv fuel n k v frontier :
  inv (pred k) (reset v) →
  Forall (λ c, chain (parents v) c k) frontier →
  k ≤ 10 → 10 ≤ fuel → 10 ≤ k + n →
  ∃ v' frontier' k',
    while_loop ops fuel n v frontier (Z.of_nat k)
    = Ok (v', frontier', Z.of_nat k')
    ∧ loop_guard frontier' (Z.of_nat k') = false
    ∧ k' ≤ 10
    ∧ inv 9 (reset v')
    ∧ explored v ⊆ explored v'.
Proof.
  revert k v frontier.
  induction n as [|n IH]; intros k v frontier Hinv Hall Hk Hfuel Hn.
  - assert (k = 10) as -> by lia.
    assert (Hg : loop_guard frontier (Z.of_nat 10) = false).
    { unfold loop_guard. destruct frontier; [done|].
      apply bool_decide_eq_false. unfold FULL_BATTERY. lia. }
    exists v, frontier, 10. cbn [while_loop]. rewrite Hg.
    split_and!; done.
  - cbn [while_loop].
    destruct (loop_guard frontier (Z.of_nat k)) eqn:Hg.
    + assert (k ≤ 9).
      { unfold loop_guard in Hg. destruct frontier; [done|].
        apply bool_decide_eq_true in Hg. unfold FULL_BATTERY in Hg. lia. }
      destruct (for_frontier_inv k fuel frontier (reset v))
        as (v1 & Hv1 & H1 & H2 & H3);
        [exact (inv_weaken (pred k) k (reset v) ltac:(lia) Hinv)
        |done|lia|].
      change (Vars (rover v) (explored v) (parents v) [] (attempts v))
        with (reset v).
      rewrite Hv1. cbn [mbind result_bind].
      replace (Z.of_nat k + 1)%Z with (Z.of_nat (S k)) by lia.
      destruct (IH (S k) v1 (next_frontier v1))
        as (v2 & f2 & k2 & -> & H4 & H5 & H6 & H7);
        [exact (inv_weaken k k v1 ltac:(lia) H1)
        |by destruct H1|lia|done|lia|].
      exists v2, f2, k2. split_and!; try done. by etrans.
    + exists v, frontier, k. split_and!; try done.
      exact (inv_weaken (pred k) 9 (reset v) ltac:(lia) Hinv).
Qed.

Lemma initial_inv rover0 : inv 0 (initial ops rover0).
Proof.
  constructor; simpl.
  - intros c [x Hc]. apply lookup_singleton_Some in Hc as [<- <-].
    exists 0. split; [lia|]. apply chain_home. apply lookup_singleton_eq.
  - intros c [x Hc]. apply lookup_singleton_Some in Hc as [<- <-].
    rewrite lookup_singleton_eq. eauto.
  - constructor.
  - intros c [x Hc]. apply lookup_singleton_Some in Hc as [<- <-]. done.
  - intros ?? Hin. by apply elem_of_nil in Hin.
  - intros ?? Hin. by apply elem_of_nil in Hin.
Qed.

(** The exploration ends, with the loop's guard false, for every rover. *)
Lemma explore_total fuel rover0 :
  10 ≤ fuel →
  ∃ v frontier k,
    explore ops fuel rover0 = Ok (v, frontier, Z.of_nat k)
    ∧ loop_guard frontier (Z.of_nat k) = false
    ∧ k ≤ 10
    ∧ inv 9 (reset v)
    ∧ explored (initial ops rover0) ⊆ explored v.
Proof.
  intros Hfuel. unfold explore.
  apply (while_loop_inv fuel fuel 0); [|..|done|lia].
  - apply (inv_weaken 0 0); [done|apply initial_inv].
  - repeat constructor.
  - lia.
Qed.
End Invariant.


(** ** Fuel

    The fuel of the embedding bounds the turns of the two [while] loops.
    More fuel never changes a result, and ten units are always enough. *)

Lemma reconstruct_loop_fuel (parents : gmap Coord (option Coord)) fuel fuel'
    c acc path :
  reconstruct_loop fuel parents c acc = Ok path → fuel ≤ fuel' →
  reconstruct_loop fuel' parents c acc = Ok path.
Proof.
  revert fuel' c acc. induction fuel as [|fuel IH]; intros fuel' c acc.
  - destruct fuel'; simpl; [done|].
    destruct (parents !! c) as [[prev|]|]; done.
  - intros Hloop Hle. destruct fuel' as [|fuel']; [lia|].
    cbn [reconstruct_loop] in *.
    destruct (parents !! c) as [[prev|]|]; [|done..].
    apply IH; [done|lia].
Qed.

Section Fuel.
Context {R : Type} (ops : RoverOps R).

Lemma visit_fuel fuel fuel' (v v' : vars R) tile :
  visit ops fuel v tile = Ok v' → fuel ≤ fuel' →
  visit ops fuel' v tile = Ok v'.
Proof.
  unfold visit, _reconstruct_path. intros Hv Hle.
  destruct (reconstruct_loop fuel (parents v) tile []) as [path|e] eqn:Hloop;
    [|done].
  by rewrite (reconstruct_loop_fuel _ _ _ _ _ _ Hloop Hle).
Qed.

Lemma for_frontier_fuel fuel fuel' tiles (v v' : vars R) :
  for_frontier ops fuel v tiles = Ok v' → fuel ≤ fuel' →
  for_frontier ops fuel' v tiles = Ok v'.
Proof.
  revert v. induction tiles as [|tile tiles IH]; intros v; [done|].
  cbn [for_frontier]. intros Hf Hle.
  destruct (visit ops fuel v tile) as [v1|e] eqn:Hv; [|done].
  rewrite (visit_fuel _ _ _ _ _ Hv Hle). by apply IH.
Qed.

Lemma while_loop_fuel fuel fuel' n n' (v : vars R) frontier radius out :
  while_loop ops fuel n v frontier radius = Ok out →
  fuel ≤ fuel' → n ≤ n' →
  while_loop ops fuel' n' v frontier radius = Ok out.
Proof.
  revert n' v frontier radius.
  induction n as [|n IH]; intros n' v frontier radius Hw Hle Hn.
  - destruct n'; cbn [while_loop] in *;
      destruct (loop_guard frontier radius); done.
  - destruct n' as [|n']; [lia|]. cbn [while_loop] in *.
    destruct (loop_guard frontier radius); [|done].
    destruct (for_frontier ops fuel _ frontier) as [v1|e] eqn:Hf; [|done].
    rewrite (for_frontier_fuel _ _ _ _ _ Hf Hle).
    apply IH; [done|done|lia].
Qed.

Lemma explore_fuel fuel rover0 :
  10 ≤ fuel → explore ops fuel rover0 = explore ops 10 rover0.
Proof.
  intros Hle.
  destruct (explore_total ops 10 rover0) as (v & f & k & Hex & _); [done|].
  rewrite Hex. unfold explore in *. by eapply while_loop_fuel.
Qed.
End Fuel.

(** ** The battery-feasibility bound *)

(** C2.  For every rover, hence every planet, the run ends and every
    coordinate of the final Discovered-Map, free or obstructed, is within
    Manhattan distance [FULL_BATTERY / 2 = 10] of home.  A neighbour gets
    an entry only after the round-trip check
    [len(path) + 1 + manhattan(nbr, home) <= FULL_BATTERY] has let it
    through, and the path to its tile is at least as long as the tile is
    far from home. *)
Theorem discovered_within_half_battery {R} (ops : RoverOps R) (fuel : nat)
    (rover0 : R) :
  10 ≤ fuel →
  ∃ m, discovered ops fuel rover0 = Ok m
       ∧ ∀ c, is_Some (m !! c) → (_manhattan c home ≤ FULL_BATTERY / 2)%Z.
Proof.
  intros Hfuel. unfold discovered.
  destruct (explore_total ops fuel rover0 Hfuel)
    as (v & f & k & -> & _ & _ & Hinv & _).
  exists (explored v). split; [done|].
  intros c Hc. change (FULL_BATTERY / 2)%Z with 10%Z.
  by apply (inv_near _ _ Hinv).
Qed.

Lemma discovered_within_half_battery_witness :
  10 ≤ 10
  ∧ ∃ m, discovered RoverModel.ops 10 (RoverModel.new false small_room) = Ok m
         ∧ ∀ c, is_Some (m !! c) → (_manhattan c home ≤ FULL_BATTERY / 2)%Z.
Proof.
  split; [lia|].
  apply (discovered_within_half_battery RoverModel.ops 10
           (RoverModel.new false small_room)).
  lia.
Defined.

(** ** Termination *)

(** C4.  A turn of the outer loop is taken exactly when the frontier is not
    empty and [2 * (radius + 1) <= FULL_BATTERY], and it adds one to
    [radius].  For every rover the loop ends without an exception, with its
    guard false, so with an empty frontier or with the radius bound
    reached, and [radius] is at most [FULL_BATTERY / 2].  Ten turns of fuel
    are enough and more fuel changes nothing. *)
Theorem explorer_loop_terminates {R} (ops : RoverOps R) (fuel : nat)
    (rover0 : R) :
  10 ≤ fuel →
  (∀ n v frontier radius,
     while_loop ops fuel (S n) v frontier radius
     = if loop_guard frontier radius
       then v' ← for_frontier ops fuel (reset v) frontier;
            while_loop ops fuel n v' (next_frontier v') (radius + 1)%Z
       else Ok (v, frontier, radius))
  ∧ (∀ frontier radius,
       loop_guard frontier radius = true
       ↔ frontier ≠ [] ∧ (2 * (radius + 1) ≤ FULL_BATTERY)%Z)
  ∧ explore ops fuel rover0 = explore ops 10 rover0
  ∧ ∃ v frontier radius,
      explore ops fuel rover0 = Ok (v, frontier, radius)
      ∧ loop_guard frontier radius = false
      ∧ (frontier = [] ∨ (FULL_BATTERY < 2 * (radius + 1))%Z)
      ∧ (0 ≤ radius ≤ FULL_BATTERY / 2)%Z.
Proof.
  intros Hfuel. split_and!.
  - done.
  - intros frontier radius. unfold loop_guard.
    destruct frontier as [|tile rest].
    + split; [done|]. by intros [? _].
    + rewrite bool_decide_eq_true. split; [by intros ?|by intros [_ ?]].
  - by apply explore_fuel.
  - destruct (explore_total ops fuel rover0 Hfuel)
      as (v & f & k & Hex & Hg & Hk & _).
    exists v, f, (Z.of_nat k). split_and!; [done|done| |lia|].
    + unfold loop_guard in Hg. destruct f; [by left|right].
      apply bool_decide_eq_false in Hg. lia.
    + change (FULL_BATTERY / 2)%Z with 10%Z. lia.
Qed.

Lemma explorer_loop_terminates_witness :
  10 ≤ 12
  ∧ ∃ v frontier radius,
      explore RoverModel.ops 12 (RoverModel.new true junction)
      = Ok (v, frontier, radius)
      ∧ loop_guard frontier radius = false
      ∧ (frontier = [] ∨ (FULL_BATTERY < 2 * (radius + 1))%Z)
      ∧ (0 ≤ radius ≤ FULL_BATTERY / 2)%Z.
Proof.
  split; [lia|].
  apply (explorer_loop_terminates RoverModel.ops 12
           (RoverModel.new true junction)).
  lia.
Defined.

(** ** Path reconstruction *)

(** C5.  For every rover the run ends, and for every coordinate of the
    final Parent-Map [_reconstruct_path] returns a sequence of directions
    whose unit deltas, applied in order from home [(0, 0)], end exactly at
    that coordinate.  The sequence is the one [reconstruct_loop] collects
    from the target back to home, reversed. *)
Theorem reconstructed_path_reaches_target {R} (ops : RoverOps R)
    (fuel : nat) (rover0 : R) :
  10 ≤ fuel →
  ∃ v frontier radius,
    explore ops fuel rover0 = Ok (v, frontier, radius)
    ∧ ∀ target, is_Some (parents v !! target) →
        ∃ links,
          reconstruct_loop fuel (parents v) target [] = Ok links
          ∧ _reconstruct_path fuel target (parents v) = Ok (reverse links)
          ∧ walk home (reverse links) = target.
Proof.
  intros Hfuel.
  destruct (explore_total ops fuel rover0 Hfuel)
    as (v & f & k & Hex & _ & _ & Hinv & _).
  exists v, f, (Z.of_nat k). split; [done|].
  intros target Ht.
  destruct (inv_chain _ _ Hinv target Ht) as (n & Hn & Hch). simpl in Hch.
  destruct (reconstruct_loop_chain _ _ _ Hch fuel []) as (ds & Hl & _ & Hw);
    [lia|].
  exists ds. unfold _reconstruct_path. by rewrite Hl.
Qed.

Lemma reconstructed_path_reaches_target_witness :
  10 ≤ 10
  ∧ ∃ v frontier radius,
      explore RoverModel.ops 10 (RoverModel.new false small_room)
      = Ok (v, frontier, radius)
      ∧ ∀ target, is_Some (parents v !! target) →
          ∃ links,
            reconstruct_loop 10 (parents v) target [] = Ok links
            ∧ _reconstruct_path 10 target (parents v) = Ok (reverse links)
            ∧ walk home (reverse links) = target.
Proof.
  split; [lia|].
  apply (reconstructed_path_reaches_target RoverModel.ops 10
           (RoverModel.new false small_room)).
  lia.
Defined.

(** ** Failed probes *)

(** C6.  When the move of a probe fails, the neighbour is recorded as
    ['X'] exactly when the reason is ["Obstructed Space"]; for any other
    reason the Discovered-Map is left as it was.  Either way the neighbour
    is not enqueued and gets no parent, and nothing is raised.  For every
    rover [map_surface_with_battery_constraint] returns a grid. *)
Theorem failed_probe_outcome {R} (ops : RoverOps R) (fuel : nat)
    (rover0 : R) (tile : Coord) (path : list Dir) (v : vars R) (d : Dir)
    (nbr : Coord) (reason : option string) (rover1 : R) :
  10 ≤ fuel →
  explored v !! nbr = None →
  (_roundtrip_cost path nbr home ≤ FULL_BATTERY)%Z →
  move ops d (rover v) = ((false, reason), rover1) →
  (explored (probe ops tile path v (d, nbr))
   = if is_obstructed reason then <[nbr := "X"]> (explored v)
     else explored v)
  ∧ (explored (probe ops tile path v (d, nbr)) !! nbr = Some "X"
     ↔ reason = Some "Obstructed Space")
  ∧ (reason ≠ Some "Obstructed Space" →
     explored (probe ops tile path v (d, nbr)) !! nbr = None)
  ∧ next_frontier (probe ops tile path v (d, nbr)) = next_frontier v
  ∧ parents (probe ops tile path v (d, nbr)) = parents v
  ∧ ∃ grid, map_surface_with_battery_constraint ops fuel rover0 = Ok grid.
Proof.
  intros Hfuel Hnone Hcost Hmove.
  assert (Hobs : is_obstructed reason = true ↔ reason = Some "Obstructed Space").
  { destruct reason as [s|]; simpl; [|done].
    rewrite bool_decide_eq_true. split; [by intros ->|by intros [= ->]]. }
  unfold probe. rewrite Hmove.
  case_decide as Hseen; [rewrite Hnone in Hseen; by destruct Hseen|].
  case_decide as Hc; [lia|]. simpl.
  split_and!; try done.
  - destruct (is_obstructed reason) eqn:Ho.
    + rewrite lookup_insert_eq. split; [intros _; by apply Hobs|done].
    + rewrite Hnone. split; [done|]. intros Hr%Hobs. done.
  - intros Hr. destruct (is_obstructed reason) eqn:Ho; [|done].
    destruct Hr. by apply Hobs.
  - unfold map_surface_with_battery_constraint.
    destruct (explore_total ops fuel rover0 Hfuel) as (v' & f & k & -> & _).
    eauto.
Qed.

Lemma failed_probe_outcome_witness :
  10 ≤ 10
  ∧ explored (initial RoverModel.ops (RoverModel.new false small_room))
      !! ((-1)%Z, 0%Z) = None
  ∧ (_roundtrip_cost [] ((-1)%Z, 0%Z) home ≤ FULL_BATTERY)%Z
  ∧ move RoverModel.ops North (RoverModel.new false small_room)
    = ((false, Some "Obstructed Space"), RoverModel.new false small_room)
  ∧ explored
      (probe RoverModel.ops home []
         (initial RoverModel.ops (RoverModel.new false small_room))
         (North, ((-1)%Z, 0%Z)))
      !! ((-1)%Z, 0%Z) = Some "X".
Proof.
  split; [lia|]. split; [reflexivity|]. split; [vm_compute; discriminate|].
  split; [reflexivity|].
  apply (failed_probe_outcome RoverModel.ops 10
           (RoverModel.new false small_room) home []
           (initial RoverModel.ops (RoverModel.new false small_room)) North
           ((-1)%Z, 0%Z) (Some "Obstructed Space")
           (RoverModel.new false small_room));
    [lia|reflexivity|vm_compute; discriminate|reflexivity|reflexivity].
Defined.

(** ** Entries of the Discovered-Map *)

Lemma probe_explored_mono {R} (ops : RoverOps R) tile path (v : vars R) dn :
  explored v ⊆ explored (probe ops tile path v dn).
Proof.
  destruct dn as [d nbr]. unfold probe.
  case_decide as Hseen; [done|]. case_decide; [done|].
  apply eq_None_not_Some in Hseen.
  destruct (move ops d (rover v)) as [[[] reason] rover1]; simpl.
  - by apply insert_subseteq.
  - destruct (is_obstructed reason); [by apply insert_subseteq|done].
Qed.

Lemma is_obstructed_true (reason : option string) :
  is_obstructed reason = true ↔ reason = Some "Obstructed Space".
Proof.
  destruct reason as [s|]; simpl; [|done].
  rewrite bool_decide_eq_true. split; [by intros ->|by intros [= ->]].
Qed.

Lemma logged_more {R} (v v' : vars R) :
  explored v' = explored v →
  (∀ x, x ∈ attempts v → x ∈ attempts v') →
  logged v → logged v'.
Proof.
  intros He Ha Hl c Hc. rewrite He in Hc.
  destruct (Hl c Hc) as [?|[[symbol Hs]|Hr]]; [by left|right..].
  - left. exists symbol. by apply Ha.
  - right. by apply Ha.
Qed.

Lemma probe_logged {R} (ops : RoverOps R) tile path (v : vars R) dn :
  logged v → logged (probe ops tile path v dn).
Proof.
  destruct dn as [d nbr]. unfold probe. intros Hl.
  case_decide as Hseen; [done|]. case_decide as Hcost; [done|].
  destruct (move ops d (rover v)) as [[[] reason] rover1]; simpl.
  - intros c Hc. simpl in *. destruct (decide (c = nbr)) as [->|Hne].
    + right. left. eexists. apply elem_of_app. right. left.
    + rewrite lookup_insert_ne in Hc by done.
      destruct (Hl c Hc) as [?|[[symbol Hs]|Hr]]; [by left|right..].
      * left. exists symbol. apply elem_of_app. by left.
      * right. apply elem_of_app. by left.
  - destruct (is_obstructed reason) eqn:Ho.
    + apply is_obstructed_true in Ho as ->.
      intros c Hc. simpl in *. destruct (decide (c = nbr)) as [->|Hne].
      * right. right. apply elem_of_app. right. left.
      * rewrite lookup_insert_ne in Hc by done.
        destruct (Hl c Hc) as [?|[[symbol Hs]|Hr]]; [by left|right..].
        -- left. exists symbol. apply elem_of_app. by left.
        -- right. apply elem_of_app. by left.
    + eapply logged_more; [| |exact Hl]; [done|].
      intros x Hx. simpl. apply elem_of_app. by left.
Qed.

Lemma probes_logged {R} (ops : RoverOps R) tile path dns (v : vars R) :
  logged v → logged (foldl (probe ops tile path) v dns).
Proof.
  revert v. induction dns as [|dn dns IH]; intros v Hl; [done|].
  cbn [foldl]. by apply IH, probe_logged.
Qed.

Lemma visit_logged {R} (ops : RoverOps R) fuel (v v' : vars R) tile :
  visit ops fuel v tile = Ok v' → logged v → logged v'.
Proof.
  unfold visit. destruct (_reconstruct_path fuel tile (parents v)) as [path|e];
    cbn [mbind result_bind]; [|done].
  intros [= <-] Hl. eapply logged_more; [done|done|].
  apply probes_logged. by eapply logged_more; [| |exact Hl].
Qed.

Lemma for_frontier_logged {R} (ops : RoverOps R) fuel frontier
    (v v' : vars R) :
  for_frontier ops fuel v frontier = Ok v' → logged v → logged v'.
Proof.
  revert v. induction frontier as [|tile rest IH]; intros v;
    cbn [for_frontier].
  { by intros [= <-]. }
  destruct (visit ops fuel v tile) as [v1|e] eqn:Hvisit;
    cbn [mbind result_bind]; [|done].
  intros Hrest Hl. apply (IH v1 Hrest). by eapply visit_logged.
Qed.

Lemma while_loop_logged {R} (ops : RoverOps R) fuel n (v v' : vars R)
    frontier frontier' radius radius' :
  while_loop ops fuel n v frontier radius = Ok (v', frontier', radius') →
  logged v → logged v'.
Proof.
  revert v frontier radius.
  induction n as [|n IH]; intros v frontier radius; cbn [while_loop];
    destruct (loop_guard frontier radius); try done;
    try (by intros [= <- _ _]).
  destruct (for_frontier ops fuel
              (Vars (rover v) (explored v) (parents v) [] (attempts v))
              frontier) as [v1|e] eqn:Hturn;
    cbn [mbind result_bind]; [|done].
  intros Hrest Hl. apply (IH _ _ _ Hrest).
  eapply for_frontier_logged; [exact Hturn|].
  by eapply logged_more; [| |exact Hl].
Qed.

Lemma initial_logged {R} (ops : RoverOps R) (rover0 : R) :
  logged (initial ops rover0).
Proof.
  intros c [x Hc]. simpl in Hc. apply lookup_singleton_Some in Hc as [<- _].
  by left.
Qed.

(** C3, as the code has it.  No turn of the probing loop removes or changes
    an entry of the Discovered-Map.  A probe whose move fails for a reason
    other than ["Obstructed Space"] is an attempt, and it leaves the
    Discovered-Map as it was, without an entry for the neighbour.  At the
    end of the run, every coordinate whose probe move succeeded holds the
    symbol recorded at that probe, and every coordinate whose probe move
    failed with ["Obstructed Space"] holds ['X']; every entry is the entry
    of home or that of such a coordinate, so that a coordinate other than
    home whose probe moves all failed for other reasons has no entry; a map
    has one entry per key. *)
Theorem recorded_probes_keep_their_entry {R} (ops : RoverOps R)
    (fuel : nat) (rover0 : R) :
  10 ≤ fuel →
  (∀ tile path v dn, explored v ⊆ explored (probe ops tile path v dn))
  ∧ (∀ tile path v d nbr reason rover1,
       explored v !! nbr = None →
       (_roundtrip_cost path nbr home ≤ FULL_BATTERY)%Z →
       move ops d (rover v) = ((false, reason), rover1) →
       reason ≠ Some "Obstructed Space" →
       attempts (probe ops tile path v (d, nbr))
       = attempts v ++ [(nbr, Refused reason)]
       ∧ explored (probe ops tile path v (d, nbr)) = explored v
       ∧ explored (probe ops tile path v (d, nbr)) !! nbr = None)
  ∧ ∃ v frontier radius,
      explore ops fuel rover0 = Ok (v, frontier, radius)
      ∧ explored v !! home = Some (get_current_location ops rover0)
      ∧ (∀ nbr symbol, (nbr, Moved symbol) ∈ attempts v →
           explored v !! nbr = Some symbol)
      ∧ (∀ nbr reason, (nbr, Refused reason) ∈ attempts v →
           reason = Some "Obstructed Space" →
           explored v !! nbr = Some "X")
      ∧ (∀ c, is_Some (explored v !! c) →
           c = home
           ∨ (∃ symbol, (c, Moved symbol) ∈ attempts v)
           ∨ (c, Refused (Some "Obstructed Space")) ∈ attempts v)
      ∧ (∀ c, c ≠ home →
           (∀ o, (c, o) ∈ attempts v →
              ∃ reason, o = Refused reason
                        ∧ reason ≠ Some "Obstructed Space") →
           explored v !! c = None).
Proof.
  intros Hfuel. split; [apply probe_explored_mono|]. split.
  { intros tile path v d nbr reason rover1 Hnone Hcost Hmove Hreason.
    unfold probe. rewrite Hmove.
    case_decide as Hseen; [rewrite Hnone in Hseen; by destruct Hseen|].
    case_decide as Hc; [lia|]. simpl.
    destruct (is_obstructed reason) eqn:Ho; [|done].
    by apply is_obstructed_true in Ho. }
  destruct (explore_total ops fuel rover0 Hfuel)
    as (v & f & k & Hex & _ & _ & Hinv & Hsub).
  assert (Hlog : logged v).
  { eapply while_loop_logged; [exact Hex|]. apply initial_logged. }
  exists v, f, (Z.of_nat k). split_and!; [done| |apply Hinv| |done|].
  - eapply lookup_weaken; [|exact Hsub]. apply lookup_singleton_eq.
  - intros nbr reason Hin ->. by eapply (inv_refused _ _ Hinv).
  - intros c Hne Hall. apply eq_None_not_Some. intros Hc.
    destruct (Hlog c Hc) as [?|[[symbol Hs]|Hr]]; [done| |].
    + by destruct (Hall _ Hs) as (reason & [=] & _).
    + by destruct (Hall _ Hr) as (reason & [= <-] & Hreason).
Qed.

Lemma recorded_probes_keep_their_entry_witness :
  10 ≤ 10
  ∧ (∀ tile path v dn,
       explored v ⊆ explored (probe RoverModel.ops tile path v dn))
  ∧ (∀ tile path v d nbr reason rover1,
       explored v !! nbr = None →
       (_roundtrip_cost path nbr home ≤ FULL_BATTERY)%Z →
       move RoverModel.ops d (rover v) = ((false, reason), rover1) →
       reason ≠ Some "Obstructed Space" →
       attempts (probe RoverModel.ops tile path v (d, nbr))
       = attempts v ++ [(nbr, Refused reason)]
       ∧ explored (probe RoverModel.ops tile path v (d, nbr)) = explored v
       ∧ explored (probe RoverModel.ops tile path v (d, nbr)) !! nbr = None)
  ∧ ∃ v frontier radius,
      explore RoverModel.ops 10 (RoverModel.new false open_field)
      = Ok (v, frontier, radius)
      ∧ explored v !! home
        = Some (get_current_location RoverModel.ops
                  (RoverModel.new false open_field))
      ∧ (∀ nbr symbol, (nbr, Moved symbol) ∈ attempts v →
           explored v !! nbr = Some symbol)
      ∧ (∀ nbr reason, (nbr, Refused reason) ∈ attempts v →
           reason = Some "Obstructed Space" →
           explored v !! nbr = Some "X")
      ∧ (∀ c, is_Some (explored v !! c) →
           c = home
           ∨ (∃ symbol, (c, Moved symbol) ∈ attempts v)
           ∨ (c, Refused (Some "Obstructed Space")) ∈ attempts v)
      ∧ (∀ c, c ≠ home →
           (∀ o, (c, o) ∈ attempts v →
              ∃ reason, o = Refused reason
                        ∧ reason ≠ Some "Obstructed Space") →
           explored v !! c = None).
Proof.
  split; [lia|].
  apply (recorded_probes_keep_their_entry RoverModel.ops 10
           (RoverModel.new false open_field)).
  lia.
Defined.

(** C3, as stated, fails.  The planet is the open field, which has no
    obstruction, and the rover does not recharge.  The four probes of home
    cost eight units; the tile [(-1, 0)] costs eight more, one to go, six
    for its three probes, one to come back; the rover reaches the tile
    [(1, 0)] with three units, probes [(2, 0)] for two, and spends the last
    one on the move to [(1, 1)].  The move back is refused and so is the
    next probe, the move towards [(1, -1)], for lack of battery.  From
    then on every move is refused for the same reason: every move of the
    run stays inside the field, so none is refused as obstructed.  At the
    end [(1, -1)], a free cell, was attempted and has no entry. *)
Lemma refused_probe_leaves_no_entry :
  ∃ v frontier radius,
    explore RoverModel.ops 10 (RoverModel.new false open_field)
    = Ok (v, frontier, radius)
    ∧ Forall (λ row, String.index 0 "X" row = None) open_field
    ∧ ((1%Z, (-1)%Z), Refused (Some RoverModel.BATTERY_EXHAUSTED))
        ∈ attempts v
    ∧ (∀ o, ((1%Z, (-1)%Z), o) ∈ attempts v →
         o = Refused (Some RoverModel.BATTERY_EXHAUSTED))
    ∧ RoverModel.battery (rover v) = 0%Z
    ∧ explored v !! (1%Z, (-1)%Z) = None.
Proof.
  eexists _, _, _. split; [vm_compute; reflexivity|].
  split; [repeat constructor|]. split.
  { apply list_elem_of_In. vm_compute. tauto. }
  split.
  { intros o Ho. apply list_elem_of_In in Ho. vm_compute in Ho.
    repeat (destruct Ho as [Ho|Ho]; [by inversion Ho|]). done. }
  split; vm_compute; reflexivity.
Qed.

(** ** The rover's final position *)

(** C1, evaluated.  In the walled room the rover without recharge spends its
    last unit of battery reaching the tile [(0, 2)] and stays there.  On the
    corridor with a junction at its far end the rover that refills at home
    reaches the junction tile [(0, 8)] with twelve units, spends six on the
    three probes, and its way back stops at [(0, 2)].  Neither run ends at
    home [(0, 0)]. *)
Theorem rover_stranded_away_from_home :
  final_displacement false small_room 10 = Ok (0, 2)%Z
  ∧ final_displacement true junction 10 = Ok (0, 2)%Z
  ∧ (0, 2)%Z ≠ home.
Proof. split_and!; [by vm_compute..|done]. Qed.


(** ** Rovers that are never short of battery *)

Lemma route_is_Some (parents : gmap Coord (option Coord)) c path :
  route parents c path → is_Some (parents !! c).
Proof. destruct 1; eauto. Qed.

Lemma chain_route (parents : gmap Coord (option Coord)) c n :
  chain parents c n →
  ∃ path, route parents c path
          ∧ ∀ fuel, n ≤ fuel → _reconstruct_path fuel c parents = Ok path.
Proof.
  intros Hch.
  assert (∃ path, route parents c path
            ∧ ∀ fuel acc, n ≤ fuel →
                reconstruct_loop fuel parents c acc = Ok (acc ++ reverse path))
    as (path & Hroute & Hloop).
  { induction Hch as [Hroot | c p d n Hp -> Hch (path & Hroute & Hloop)].
    - exists []. split; [by constructor|]. intros fuel acc _.
      destruct fuel; simpl; by rewrite Hroot, app_nil_r.
    - exists (path ++ [d]). split; [by econstructor|].
      intros [|fuel] acc Hfuel; [lia|]. cbn [reconstruct_loop].
      rewrite Hp, append_dir_shift, Hloop by lia.
      by rewrite reverse_app, <-app_assoc. }
  exists path. split; [done|]. intros fuel Hfuel.
  unfold _reconstruct_path. rewrite (Hloop fuel []) by done. simpl.
  by rewrite reverse_involutive.
Qed.

Lemma shift_back (p : Coord) d :
  shift (shift p (delta d)) (delta (OPPOSITE d)) = p.
Proof. destruct p as [r c]. unfold shift. destruct d; simpl; f_equal; lia. Qed.

Section Returning.
Context {R : Type} (ops : RoverOps R) (place : R → Coord).
Context (free : Coord → Prop).
Hypothesis Hshort : never_short ops place free.

Lemma move_to_free d r :
  free (shift (place r) (delta d)) →
  place (move ops d r).2 = shift (place r) (delta d).
Proof.
  intros Hfree. destruct (Hshort d r) as (Hgo & Hthere & _).
  by apply Hthere, Hgo.
Qed.

Lemma travel_out (parents : gmap Coord (option Coord)) c path r :
  route parents c path →
  (∀ c', is_Some (parents !! c') → free c') →
  place r = home → place (_travel ops r path) = c.
Proof.
  intros Hroute Hfree Hr.
  induction Hroute as [Hroot | c p d path Hp -> Hroute IH]; [done|].
  unfold _travel in *. rewrite foldl_app. cbn [foldl].
  rewrite move_to_free; rewrite IH; [done|]. apply Hfree. eauto.
Qed.

Lemma travel_back (parents : gmap Coord (option Coord)) c path r :
  route parents c path →
  (∀ c', is_Some (parents !! c') → free c') →
  place r = c → place (_travel ops r (_reverse_path path)) = home.
Proof.
  intros Hroute Hfree. revert r.
  induction Hroute as [Hroot | c p d path Hp -> Hroute IH]; intros r Hr;
    [done|].
  unfold _reverse_path. rewrite reverse_app. cbn [reverse map app].
  change (place (_travel ops (move ops (OPPOSITE d) r).2
                   (_reverse_path path)) = home).
  apply IH. rewrite move_to_free; rewrite Hr, shift_back; [done|].
  apply Hfree. by eapply route_is_Some.
Qed.

Lemma probe_place tile path (v : vars R) d :
  place (rover v) = tile →
  (∀ c, is_Some (parents v !! c) → free c) →
  is_Some (parents v !! tile) →
  let v' := probe ops tile path v (d, shift tile (delta d)) in
  place (rover v') = tile ∧ ∀ c, is_Some (parents v' !! c) → free c.
Proof.
  intros Hplace Hfree Htile. cbn zeta. unfold probe.
  case_decide; [done|]. case_decide; [done|].
  destruct (Hshort d (rover v)) as (_ & Hthere & Hstay).
  destruct (move ops d (rover v)) as [[success reason] rover1].
  destruct success; simpl in *.
  - destruct Hthere as [Hthere Hnbr]; [done|]. rewrite Hplace in Hthere, Hnbr.
    split.
    + rewrite move_to_free; rewrite Hthere, shift_back; [done|].
      by apply Hfree.
    + intros c. destruct (decide (c = shift tile (delta d))) as [->|Hne];
        [done|].
      rewrite lookup_insert_ne by done. apply Hfree.
  - split; [|done]. rewrite Hstay; done.
Qed.

Lemma probe_keeps_parents tile path (v : vars R) dn c :
  is_Some (parents v !! c) →
  is_Some (parents (probe ops tile path v dn) !! c).
Proof.
  intros Hc. destruct dn as [d nbr]. unfold probe.
  case_decide; [done|]. case_decide; [done|].
  destruct (move ops d (rover v)) as [[[] reason] rover1]; simpl; [|done].
  destruct (decide (c = nbr)) as [->|Hne].
  - rewrite lookup_insert_eq. eauto.
  - by rewrite lookup_insert_ne.
Qed.

Lemma probes_place tile path ds (v : vars R) :
  place (rover v) = tile →
  (∀ c, is_Some (parents v !! c) → free c) →
  is_Some (parents v !! tile) →
  let v' := foldl (probe ops tile path) v
              ((λ d, (d, shift tile (delta d))) <$> ds) in
  place (rover v') = tile ∧ ∀ c, is_Some (parents v' !! c) → free c.
Proof.
  revert v. induction ds as [|d ds IH]; intros v Hplace Hfree Htile; [done|].
  cbn zeta. rewrite fmap_cons. cbn [foldl].
  destruct (probe_place tile path v d Hplace Hfree Htile) as [H1 H2].
  apply IH; [done|done|]. by apply probe_keeps_parents.
Qed.

(** One excursion leaves the rover at home. *)
Lemma visit_place k fuel (v v' : vars R) tile :
  visit ops fuel v tile = Ok v' →
  chain (parents v) tile k → k ≤ fuel →
  place (rover v) = home →
  (∀ c, is_Some (parents v !! c) → free c) →
  place (rover v') = home ∧ ∀ c, is_Some (parents v' !! c) → free c.
Proof.
  intros Hvisit Hch Hfuel Hplace Hfree.
  destruct (chain_route _ _ _ Hch) as (path & Hroute & Hpath).
  unfold visit in Hvisit. rewrite (Hpath fuel Hfuel) in Hvisit.
  cbn [mbind result_bind] in Hvisit. rewrite neighbours_shift in Hvisit.
  set (v1 := Vars (_travel ops (rover v) path) (explored v) (parents v)
               (next_frontier v) (attempts v)) in Hvisit.
  pose proof (probes_place tile path [North; South; East; West] v1)
    as Hprobes.
  cbn zeta in Hprobes.
  set (v2 := foldl (probe ops tile path) v1 _) in Hvisit, Hprobes.
  destruct Hprobes as [H1 H2].
  - by eapply travel_out.
  - done.
  - by eapply route_is_Some.
  - clearbody v2. injection Hvisit as <-. cbn [rover parents].
    split; [|exact H2]. by eapply travel_back.
Qed.

Lemma for_frontier_place k fuel tiles (v v' : vars R) :
  for_frontier ops fuel v tiles = Ok v' →
  inv k v → Forall (λ c, chain (parents v) c k) tiles → k ≤ fuel →
  place (rover v) = home →
  (∀ c, is_Some (parents v !! c) → free c) →
  place (rover v') = home ∧ ∀ c, is_Some (parents v' !! c) → free c.
Proof.
  revert v. induction tiles as [|tile tiles IH];
    intros v Hfor Hinv Hall Hfuel Hplace Hfree.
  { by injection Hfor as <-. }
  apply Forall_cons in Hall as [Htile Hall]. cbn [for_frontier] in Hfor.
  destruct (visit_inv ops k fuel v tile Hinv Htile Hfuel)
    as (v1 & Hv1 & H1 & H2 & _).
  rewrite Hv1 in Hfor. cbn [mbind result_bind] in Hfor.
  destruct (visit_place k fuel v v1 tile Hv1 Htile Hfuel Hplace Hfree)
    as [H3 H4].
  eapply IH; [done|done| |done|done|done].
  eapply Forall_impl; [done|]. intros c Hc. by eapply chain_mono.
Qed.

Lemma while_loop_place fuel n k (v : vars R) frontier out :
  while_loop ops fuel n v frontier (Z.of_nat k) = Ok out →
  inv (pred k) (reset v) →
  Forall (λ c, chain (parents v) c k) frontier →
  10 ≤ fuel →
  place (rover v) = home →
  (∀ c, is_Some (parents v !! c) → free c) →
  place (rover out.1.1) = home.
Proof.
  revert k v frontier.
  induction n as [|n IH]; intros k v frontier Hw Hinv Hall Hfuel Hplace Hfree;
    cbn [while_loop] in Hw;
    destruct (loop_guard frontier (Z.of_nat k)) eqn:Hg; try done;
    try by injection Hw as <-.
  assert (k ≤ 9).
  { unfold loop_guard in Hg. destruct frontier; [done|].
    apply bool_decide_eq_true in Hg. unfold FULL_BATTERY in Hg. lia. }
  pose proof (inv_weaken (pred k) k (reset v) ltac:(lia) Hinv) as Hinv'.
  destruct (for_frontier_inv ops k fuel frontier (reset v))
    as (v1 & Hv1 & H1 & H2 & H3); [exact Hinv'|done|lia|].
  change (Vars (rover v) (explored v) (parents v) [] (attempts v))
    with (reset v) in Hw.
  rewrite Hv1 in Hw. cbn [mbind result_bind] in Hw.
  replace (Z.of_nat k + 1)%Z with (Z.of_nat (S k)) in Hw by lia.
  destruct (for_frontier_place k fuel frontier (reset v) v1)
    as [H4 H5]; [done|exact Hinv'|done|lia|done|done|].
  eapply (IH (S k)); [done| |by destruct H1|done|done|done].
  exact (inv_weaken k k v1 ltac:(lia) H1).
Qed.
End Returning.

(** X1.  With a rover that is never short of battery (a move succeeds
    exactly when its destination is free) every excursion ends where it
    started: the run ends with the rover at home. *)
Theorem rover_never_short_returns_home {R} (ops : RoverOps R)
    (place : R → Coord) (free : Coord → Prop) (fuel : nat) (rover0 : R) :
  never_short ops place free → place rover0 = home → free home →
  10 ≤ fuel →
  ∃ v frontier radius,
    explore ops fuel rover0 = Ok (v, frontier, radius)
    ∧ place (rover v) = home.
Proof.
  intros Hshort Hplace Hfree Hfuel.
  destruct (explore_total ops fuel rover0 Hfuel) as (v & f & k & Hex & _).
  exists v, f, (Z.of_nat k). split; [done|].
  change v with (v, f, Z.of_nat k).1.1.
  eapply (while_loop_place ops place free Hshort fuel fuel 0
            (initial ops rover0) [home]); [exact Hex| | |done|done|].
  - exact (inv_weaken 0 0 _ ltac:(lia) (initial_inv ops rover0)).
  - repeat constructor.
  - intros c [x Hc]. simpl in Hc.
    by apply lookup_singleton_Some in Hc as [<- _].
Qed.

Lemma roaming_never_short (planet : list string) :
  never_short (roaming_ops planet) id (roaming_free planet).
Proof.
  intros d pos. unfold roaming_free. simpl.
  destruct (roaming_cell planet (shift pos (delta d))) as [ch|]; simpl.
  - case_decide as Hch; simpl.
    + split_and!; [|done..]. intros (ch' & [= <-] & Hne). done.
    + split_and!; [done| |done]. intros _. split; [done|]. by exists ch.
  - split_and!; [|done..]. by intros (ch' & [=] & _).
Qed.

Lemma rover_never_short_returns_home_witness :
  never_short (roaming_ops small_room) id (roaming_free small_room)
  ∧ id home = home
  ∧ roaming_free small_room home
  ∧ 10 ≤ 10
  ∧ ∃ v frontier radius,
      explore (roaming_ops small_room) 10 home = Ok (v, frontier, radius)
      ∧ id (rover v) = home.
Proof.
  assert (Hfree : roaming_free small_room home).
  { exists "H"%char. split; [reflexivity|discriminate]. }
  split; [apply roaming_never_short|]. split; [reflexivity|].
  split; [exact Hfree|]. split; [lia|].
  exact (rover_never_short_returns_home (roaming_ops small_room) id
           (roaming_free small_room) 10 home
           (roaming_never_short small_room) eq_refl Hfree ltac:(lia)).
Defined.

(** ** Determinism *)

Section Determinism.
Context {R1 R2 : Type} (ops1 : RoverOps R1) (ops2 : RoverOps R2).
Context (sim : R1 → R2 → Prop).

Hypothesis Halike : answers_alike ops1 ops2 sim.

Lemma travel_alike path r1 r2 :
  sim r1 r2 → sim (_travel ops1 r1 path) (_travel ops2 r2 path).
Proof.
  revert r1 r2. induction path as [|d path IH]; intros r1 r2 Hsim; [done|].
  cbn [_travel foldl]. apply IH. by apply Halike.
Qed.

Lemma probe_alike tile path v1 v2 dn :
  same_vars sim v1 v2 →
  same_vars sim (probe ops1 tile path v1 dn) (probe ops2 tile path v2 dn).
Proof.
  intros (Hsim & He & Hp & Hn & Ha). destruct dn as [d nbr].
  unfold probe. rewrite <-He.
  case_decide; [done|]. case_decide; [done|].
  destruct (Halike _ _ Hsim) as [_ Hmv]. destruct (Hmv d) as [Hans Hsim1].
  destruct (move ops1 d (rover v1)) as [[success1 reason1] rover1].
  destruct (move ops2 d (rover v2)) as [[success2 reason2] rover2].
  simpl in Hans, Hsim1. simplify_eq.
  destruct (Halike _ _ Hsim1) as [Hsym Hmv1].
  destruct success2; simpl.
  - rewrite <-Hsym, <-Hp, <-Hn, <-Ha.
    split_and!; try done. apply Hmv1.
  - rewrite <-Hp, <-Hn, <-Ha. done.
Qed.

Lemma probes_alike tile path dns v1 v2 :
  same_vars sim v1 v2 →
  same_vars sim (foldl (probe ops1 tile path) v1 dns)
    (foldl (probe ops2 tile path) v2 dns).
Proof.
  revert v1 v2. induction dns as [|dn dns IH]; intros v1 v2 Hv; [done|].
  cbn [foldl]. by apply IH, probe_alike.
Qed.

Lemma visit_alike fuel v1 v2 tile :
  same_vars sim v1 v2 →
  same_result (same_vars sim) (visit ops1 fuel v1 tile) (visit ops2 fuel v2 tile).
Proof.
  intros Hv. pose proof Hv as (Hsim & He & Hp & Hn & Ha).
  unfold visit. rewrite <-Hp.
  destruct (_reconstruct_path fuel tile (parents v1)) as [path|e]; [|done].
  cbn [mbind result_bind same_result].
  set (w1 := foldl (probe ops1 tile path) _ _).
  set (w2 := foldl (probe ops2 tile path) _ _).
  assert (Hw : same_vars sim w1 w2).
  { apply probes_alike. split_and!; try done. by apply travel_alike. }
  destruct Hw as (Hsim' & He' & Hp' & Hn' & Ha').
  split_and!; try done. by apply travel_alike.
Qed.

Lemma for_frontier_alike fuel tiles v1 v2 :
  same_vars sim v1 v2 →
  same_result (same_vars sim) (for_frontier ops1 fuel v1 tiles)
    (for_frontier ops2 fuel v2 tiles).
Proof.
  revert v1 v2. induction tiles as [|tile tiles IH]; intros v1 v2 Hv; [done|].
  cbn [for_frontier]. pose proof (visit_alike fuel v1 v2 tile Hv) as Hvis.
  destruct (visit ops1 fuel v1 tile) as [w1|e1],
    (visit ops2 fuel v2 tile) as [w2|e2]; try done.
  cbn [mbind result_bind]. by apply IH.
Qed.

Lemma while_loop_alike fuel n v1 v2 frontier radius :
  same_vars sim v1 v2 →
  same_result (same_state sim) (while_loop ops1 fuel n v1 frontier radius)
    (while_loop ops2 fuel n v2 frontier radius).
Proof.
  revert v1 v2 frontier radius.
  induction n as [|n IH]; intros v1 v2 frontier radius Hv;
    cbn [while_loop]; destruct (loop_guard frontier radius); try done.
  pose proof Hv as (Hsim & He & Hp & Hn & Ha).
  assert (Hr : same_vars sim (reset v1) (reset v2)) by done.
  pose proof (for_frontier_alike fuel frontier _ _ Hr) as Hf.
  unfold reset in Hf.
  destruct (for_frontier ops1 fuel _ frontier) as [w1|e1],
    (for_frontier ops2 fuel _ frontier) as [w2|e2]; try done.
  cbn [mbind result_bind]. cbn [same_result] in Hf.
  destruct Hf as (Hsim' & He' & Hp' & Hn' & Ha'). rewrite Hn'.
  by apply IH.
Qed.

Lemma explore_alike fuel r1 r2 :
  sim r1 r2 →
  same_result (same_state sim) (explore ops1 fuel r1) (explore ops2 fuel r2).
Proof.
  intros Hsim. apply while_loop_alike. unfold initial.
  destruct (Halike _ _ Hsim) as [-> _]. done.
Qed.
End Determinism.

(** C9.  Two runs with rovers that answer alike, as two fresh rovers on
    the same planet do, give the same Discovered-Map and the same dense
    grid: every choice of the explorer is fixed by the answers of the
    rover, the neighbours being probed in the order N, S, E, W of [DIRS]. *)
Theorem explorer_deterministic {R1 R2 : Type} (ops1 : RoverOps R1)
    (ops2 : RoverOps R2) (sim : R1 → R2 → Prop) (fuel : nat) (r1 : R1)
    (r2 : R2) :
  answers_alike ops1 ops2 sim → sim r1 r2 →
  (_neighbours home).*1 = [North; South; East; West]
  ∧ discovered ops1 fuel r1 = discovered ops2 fuel r2
  ∧ map_surface_with_battery_constraint ops1 fuel r1
    = map_surface_with_battery_constraint ops2 fuel r2.
Proof.
  intros Halike Hsim. split; [done|].
  pose proof (explore_alike ops1 ops2 sim Halike fuel r1 r2 Hsim) as H.
  unfold discovered, map_surface_with_battery_constraint.
  destruct (explore ops1 fuel r1) as [[[v1 f1] k1]|e1],
    (explore ops2 fuel r2) as [[[v2 f2] k2]|e2]; try done.
  - destruct H as ((_ & He & _) & _). simpl in *. by rewrite He.
  - simpl in *. by subst.
Qed.

(** ** The dense grid *)

Section Dense.
Context (min_r min_c hz wz : Z).

Lemma slot_Some pos i j :
  slot min_r min_c hz wz pos = Some (i, j)
  ↔ pos = ((min_r + Z.of_nat i)%Z, (min_c + Z.of_nat j)%Z)
    ∧ i < Z.to_nat hz ∧ j < Z.to_nat wz.
Proof.
  destruct pos as [r c]. unfold slot. simpl. case_decide as Hin; split.
  - intros [= <- <-]. split_and!; [f_equal; lia|lia|lia].
  - intros ([= -> ->] & ? & ?). do 2 f_equal; lia.
  - done.
  - intros ([= -> ->] & ? & ?). lia.
Qed.

Lemma write_cell_dims g kv :
  has_dims (Z.to_nat hz) (Z.to_nat wz) g →
  has_dims (Z.to_nat hz) (Z.to_nat wz) (write_cell min_r min_c hz wz g kv).
Proof.
  intros [Hlen Hrows]. destruct kv as [[r c] ch]. unfold write_cell.
  case_decide; [|done]. split; [by rewrite length_alter|].
  apply Forall_alter; [done|]. intros row _ Hrow. by rewrite length_insert.
Qed.

Lemma write_cell_at g pos ch i j :
  has_dims (Z.to_nat hz) (Z.to_nat wz) g →
  grid_at (write_cell min_r min_c hz wz g (pos, ch)) i j
  = if decide (slot min_r min_c hz wz pos = Some (i, j)) then Some ch else grid_at g i j.
Proof.
  intros [Hlen Hrows]. destruct pos as [r c]. unfold write_cell, slot. simpl.
  case_decide as Hin; [|by rewrite decide_False].
  unfold grid_at. rewrite list_lookup_alter.
  destruct (decide (Z.to_nat (r - min_r) = i)) as [<-|Hi].
  - destruct (lookup_lt_is_Some_2 g (Z.to_nat (r - min_r))) as [row Hrow];
      [lia|].
    rewrite Hrow. simpl.
    assert (length row = Z.to_nat wz).
    { eapply Forall_forall in Hrows; [done|]. by eapply list_elem_of_lookup_2. }
    destruct (decide (Z.to_nat (c - min_c) = j)) as [<-|Hj].
    + rewrite decide_True by done. apply list_lookup_insert_eq. lia.
    + rewrite decide_False by congruence. by apply list_lookup_insert_ne.
  - by rewrite decide_False by congruence.
Qed.

Lemma writes_dims l g :
  has_dims (Z.to_nat hz) (Z.to_nat wz) g →
  has_dims (Z.to_nat hz) (Z.to_nat wz)
    (foldl (write_cell min_r min_c hz wz) g l).
Proof.
  revert g. induction l as [|kv l IH]; intros g Hg; [done|].
  cbn [foldl]. by apply IH, write_cell_dims.
Qed.

Lemma writes_at_other l g i j :
  has_dims (Z.to_nat hz) (Z.to_nat wz) g →
  (∀ kv, kv ∈ l → slot min_r min_c hz wz kv.1 ≠ Some (i, j)) →
  grid_at (foldl (write_cell min_r min_c hz wz) g l) i j = grid_at g i j.
Proof.
  revert g. induction l as [|[pos ch] l IH]; intros g Hg Hl; [done|].
  cbn [foldl]. rewrite IH; [|by apply write_cell_dims|].
  - rewrite write_cell_at by done. rewrite decide_False; [done|].
    apply (Hl (pos, ch)). left.
  - intros kv Hkv. apply Hl. by right.
Qed.

Lemma writes_at l g pos ch i j :
  has_dims (Z.to_nat hz) (Z.to_nat wz) g →
  NoDup l.*1 → (pos, ch) ∈ l → slot min_r min_c hz wz pos = Some (i, j) →
  grid_at (foldl (write_cell min_r min_c hz wz) g l) i j = Some ch.
Proof.
  revert g. induction l as [|[pos' ch'] l IH]; intros g Hg Hnd Hin Hslot.
  { by apply elem_of_nil in Hin. }
  rewrite fmap_cons in Hnd. apply NoDup_cons in Hnd as [Hfresh Hnd].
  cbn [foldl]. apply elem_of_cons in Hin as [[= <- <-]|Hin].
  - rewrite writes_at_other; [|by apply write_cell_dims|].
    + rewrite write_cell_at by done. by rewrite decide_True.
    + intros [pos2 ch2] Hkv Hs. simpl in *.
      apply slot_Some in Hs as (-> & _). apply slot_Some in Hslot as (-> & _).
      apply Hfresh. apply list_elem_of_fmap. eexists (_, ch2). split; [|done]. done.
  - apply IH; [by apply write_cell_dims|done..].
Qed.
End Dense.

Lemma dense_grid_dims (explored : gmap Coord string) min_r max_r min_c max_c :
  has_dims (Z.to_nat (max_r - min_r + 1)) (Z.to_nat (max_c - min_c + 1))
    (dense_grid explored (min_r, max_r, min_c, max_c)).
Proof.
  unfold dense_grid. apply writes_dims. split; [by rewrite length_replicate|].
  apply Forall_replicate. by rewrite length_replicate.
Qed.

(** Every cell of the dense grid holds the entry of its coordinate, or the
    placeholder when the coordinate has none. *)
Lemma dense_grid_at (explored : gmap Coord string) min_r max_r min_c max_c
    i j :
  i < Z.to_nat (max_r - min_r + 1) → j < Z.to_nat (max_c - min_c + 1) →
  grid_at (dense_grid explored (min_r, max_r, min_c, max_c)) i j
  = Some (default "?"
            (explored !! ((min_r + Z.of_nat i)%Z, (min_c + Z.of_nat j)%Z))).
Proof.
  intros Hi Hj. unfold dense_grid.
  set (hz := (max_r - min_r + 1)%Z) in *.
  set (wz := (max_c - min_c + 1)%Z) in *.
  set (pos := ((min_r + Z.of_nat i)%Z, (min_c + Z.of_nat j)%Z)).
  assert (Hslot : slot min_r min_c hz wz pos = Some (i, j))
    by by apply slot_Some.
  assert (Hdims : has_dims (Z.to_nat hz) (Z.to_nat wz)
                    (replicate (Z.to_nat hz) (replicate (Z.to_nat wz) "?"))).
  { split; [by rewrite length_replicate|].
    apply Forall_replicate. by rewrite length_replicate. }
  destruct (explored !! pos) as [ch|] eqn:Hpos; simpl.
  - eapply writes_at; [done|apply NoDup_fst_map_to_list| |done].
    by apply elem_of_map_to_list.
  - rewrite writes_at_other; [|done|].
    + unfold grid_at. rewrite lookup_replicate_2 by done. simpl.
      by rewrite lookup_replicate_2.
    + intros [pos' ch'] Hin%elem_of_map_to_list Hs. simpl in Hs.
      apply slot_Some in Hs as (-> & _). fold pos in Hin. congruence.
Qed.

Lemma grid_at_dims h w grid i j :
  has_dims h w grid → is_Some (grid_at grid i j) → i < h ∧ j < w.
Proof.
  intros [Hlen Hrows] [ch Hch]. unfold grid_at in Hch.
  destruct (grid !! i) as [row|] eqn:Hrow; [|done]. simpl in Hch.
  split; [rewrite <-Hlen; by eapply lookup_lt_Some|].
  eapply Forall_forall in Hrows; [|by eapply list_elem_of_lookup_2].
  rewrite <-Hrows. by eapply lookup_lt_Some.
Qed.

Lemma grid_ext h w (g1 g2 : list (list string)) :
  has_dims h w g1 → has_dims h w g2 →
  (∀ i j, i < h → j < w → grid_at g1 i j = grid_at g2 i j) →
  g1 = g2.
Proof.
  intros [Hl1 Hr1] [Hl2 Hr2] Hat. apply list_eq_same_length with h; [done..|].
  intros i row1 row2 Hi Hrow1 Hrow2.
  assert (length row1 = w).
  { eapply Forall_forall in Hr1; [done|by eapply list_elem_of_lookup_2]. }
  assert (length row2 = w).
  { eapply Forall_forall in Hr2; [done|by eapply list_elem_of_lookup_2]. }
  apply list_eq_same_length with w; [done..|].
  intros j x y Hj Hx Hy. specialize (Hat i j Hi Hj). unfold grid_at in Hat.
  rewrite Hrow1, Hrow2 in Hat. simpl in Hat. congruence.
Qed.

(** The grid does not depend on the order of the items. *)
Lemma fill_grid_order (l1 l2 : list (Coord * string)) box :
  NoDup l1.*1 → l1 ≡ₚ l2 → fill_grid l1 box = fill_grid l2 box.
Proof.
  intros Hnd1 Hp. destruct box as [[[min_r max_r] min_c] max_c].
  assert (Hnd2 : NoDup l2.*1) by by rewrite <-Hp.
  unfold fill_grid.
  set (hz := (max_r - min_r + 1)%Z). set (wz := (max_c - min_c + 1)%Z).
  set (blank := replicate (Z.to_nat hz) (replicate (Z.to_nat wz) "?")).
  assert (Hdims : has_dims (Z.to_nat hz) (Z.to_nat wz) blank).
  { split; [by unfold blank; rewrite length_replicate|].
    apply Forall_replicate. by rewrite length_replicate. }
  eapply grid_ext; [by apply writes_dims..|].
  intros i j Hi Hj.
  set (pos := ((min_r + Z.of_nat i)%Z, (min_c + Z.of_nat j)%Z)).
  assert (Hslot : slot min_r min_c hz wz pos = Some (i, j))
    by by apply slot_Some.
  destruct (decide (pos ∈ l1.*1)) as [Hin|Hout].
  - apply list_elem_of_fmap in Hin as ([pos' ch] & Heq & Hin).
    simpl in Heq. subst pos'.
    rewrite (writes_at _ _ _ _ l1 blank pos ch i j) by done.
    rewrite (writes_at _ _ _ _ l2 blank pos ch i j); [done..| |done].
    by rewrite <-Hp.
  - assert (Hno : ∀ l : list (Coord * string), pos ∉ l.*1 →
              ∀ kv, kv ∈ l → slot min_r min_c hz wz kv.1 ≠ Some (i, j)).
    { intros l Hl [pos' ch] Hin Hs. apply slot_Some in Hs as (Heq & _).
      simpl in Heq. apply Hl, list_elem_of_fmap. exists (pos', ch).
      split; [by rewrite Heq|done]. }
    rewrite !writes_at_other; try done; apply Hno; [by rewrite <-Hp|done].
Qed.

(** ** The bounding box *)

Lemma elem_of_in_bounds (explored : gmap Coord string) pos :
  pos ∈ in_bounds explored ↔ non_obstructed explored pos.
Proof.
  unfold in_bounds, non_obstructed. rewrite list_elem_of_fmap. split.
  - intros ([p ch] & -> & Hin). apply list_elem_of_filter in Hin as [Hne Hin].
    apply elem_of_map_to_list in Hin. eauto.
  - intros (ch & Hpos & Hne). exists (pos, ch). split; [done|].
    apply list_elem_of_filter. split; [done|by apply elem_of_map_to_list].
Qed.

Lemma list_min_spec x xs :
  list_min x xs ∈ x :: xs ∧ ∀ y, y ∈ x :: xs → (list_min x xs ≤ y)%Z.
Proof.
  unfold list_min. revert x. induction xs as [|a xs IH]; intros x.
  - split; [left|]. intros y ->%list_elem_of_singleton. done.
  - cbn [foldl]. destruct (IH (Z.min x a)) as [Hin Hle]. split.
    + apply elem_of_cons in Hin as [->|Hin]; [|by do 2 right].
      destruct (Z.min_spec x a) as [[_ ->]|[_ ->]]; [left|right; left].
    + intros y Hy. pose proof (Hle (Z.min x a) ltac:(left)).
      apply elem_of_cons in Hy as [->|[->|Hy]%elem_of_cons]; [lia|lia|].
      apply Hle. by right.
Qed.

Lemma list_max_spec x xs :
  list_max x xs ∈ x :: xs ∧ ∀ y, y ∈ x :: xs → (y ≤ list_max x xs)%Z.
Proof.
  unfold list_max. revert x. induction xs as [|a xs IH]; intros x.
  - split; [left|]. intros y ->%list_elem_of_singleton. done.
  - cbn [foldl]. destruct (IH (Z.max x a)) as [Hin Hle]. split.
    + apply elem_of_cons in Hin as [->|Hin]; [|by do 2 right].
      destruct (Z.max_spec x a) as [[_ ->]|[_ ->]]; [right; left|left].
    + intros y Hy. pose proof (Hle (Z.max x a) ltac:(left)).
      apply elem_of_cons in Hy as [->|[->|Hy]%elem_of_cons]; [lia|lia|].
      apply Hle. by right.
Qed.

Lemma box_of_tight (points : list Coord) box :
  box_of points = Some box → tight_box (λ pos, pos ∈ points) box.
Proof.
  destruct points as [|[r0 c0] rest]; [done|]. intros [= <-].
  set (points := (r0, c0) :: rest).
  assert (Hrows : ∀ r, r ∈ r0 :: rest.*1 → ∃ c, (r, c) ∈ points).
  { intros r Hr. change (r ∈ points.*1) in Hr.
    apply list_elem_of_fmap in Hr as ([r' c] & -> & Hin). by exists c. }
  assert (Hcols : ∀ c, c ∈ c0 :: rest.*2 → ∃ r, (r, c) ∈ points).
  { intros c Hc. change (c ∈ points.*2) in Hc.
    apply list_elem_of_fmap in Hc as ([r c'] & -> & Hin). by exists r. }
  destruct (list_min_spec r0 rest.*1) as [Hr1 Hr2].
  destruct (list_max_spec r0 rest.*1) as [Hr3 Hr4].
  destruct (list_min_spec c0 rest.*2) as [Hc1 Hc2].
  destruct (list_max_spec c0 rest.*2) as [Hc3 Hc4].
  split_and!; [|by apply Hrows|by apply Hrows|by apply Hcols|by apply Hcols].
  intros r c Hpos.
  assert (r ∈ r0 :: rest.*1).
  { change (r ∈ points.*1). apply list_elem_of_fmap. by exists (r, c). }
  assert (c ∈ c0 :: rest.*2).
  { change (c ∈ points.*2). apply list_elem_of_fmap. by exists (r, c). }
  split; split; auto.
Qed.

Lemma tight_box_iff (P Q : Coord → Prop) box :
  (∀ pos, P pos ↔ Q pos) → tight_box P box → tight_box Q box.
Proof.
  destruct box as [[[min_r max_r] min_c] max_c].
  intros HPQ (Hin & [c1 H1] & [c2 H2] & [r3 H3] & [r4 H4]).
  split_and!; [|exists c1|exists c2|exists r3|exists r4]; try by apply HPQ.
  intros r c Hrc. apply Hin. by apply HPQ.
Qed.

Lemma tight_box_unique (P : Coord → Prop) box1 box2 :
  tight_box P box1 → tight_box P box2 → box1 = box2.
Proof.
  destruct box1 as [[[a1 b1] c1] d1], box2 as [[[a2 b2] c2] d2].
  intros (Hin1 & [x1 H1] & [x2 H2] & [x3 H3] & [x4 H4]).
  intros (Hin2 & [y1 G1] & [y2 G2] & [y3 G3] & [y4 G4]).
  pose proof (Hin1 _ _ G1). pose proof (Hin1 _ _ G2).
  pose proof (Hin1 _ _ G3). pose proof (Hin1 _ _ G4).
  pose proof (Hin2 _ _ H1). pose proof (Hin2 _ _ H2).
  pose proof (Hin2 _ _ H3). pose proof (Hin2 _ _ H4).
  repeat f_equal; lia.
Qed.

(** The box does not depend on the order of the coordinates. *)
Lemma box_of_order (l1 l2 : list Coord) :
  l1 ≡ₚ l2 → box_of l1 = box_of l2.
Proof.
  intros Hp.
  destruct (box_of l1) as [box1|] eqn:H1, (box_of l2) as [box2|] eqn:H2.
  - f_equal. apply box_of_tight in H1, H2.
    eapply tight_box_unique; [|exact H2].
    eapply tight_box_iff; [|exact H1]. intros pos. cbn beta. by rewrite Hp.
  - destruct l2 as [|[r c] l2]; [|done].
    apply Permutation_nil_r in Hp. by subst.
  - destruct l1 as [|[r c] l1]; [|done].
    apply Permutation_nil_l in Hp. by subst.
  - done.
Qed.

Lemma bounding_box_None (explored : gmap Coord string) :
  bounding_box explored = None ↔ ∀ pos, ¬ non_obstructed explored pos.
Proof.
  unfold bounding_box, box_of. split.
  - destruct (in_bounds explored) as [|[r c] rest] eqn:Hb; [|done].
    intros _ pos Hpos%elem_of_in_bounds. rewrite Hb in Hpos.
    by apply elem_of_nil in Hpos.
  - intros Hnone. destruct (in_bounds explored) as [|[r c] rest] eqn:Hb;
      [done|].
    destruct (Hnone (r, c)). apply elem_of_in_bounds. rewrite Hb. left.
Qed.

Lemma bounding_box_tight (explored : gmap Coord string) box :
  bounding_box explored = Some box →
  tight_box (non_obstructed explored) box.
Proof.
  intros Hbox%box_of_tight. eapply tight_box_iff; [|exact Hbox].
  intros pos. apply elem_of_in_bounds.
Qed.

(** X2.  The result of Map Assembly does not depend on the order in which
    the dictionary gives its items: for the items of the Discovered-Map in
    any order, the box of the coordinates whose symbol is not ['X'] and the
    grid filled from the items are the ones of [_sparse_to_dense]. *)
Theorem assembly_ignores_item_order (explored : gmap Coord string)
    (items : list (Coord * string)) :
  items ≡ₚ map_to_list explored →
  box_of (filter (λ kv, kv.2 ≠ "X") items).*1 = bounding_box explored
  ∧ ∀ box, fill_grid items box = dense_grid explored box.
Proof.
  intros Hp. split.
  - unfold bounding_box, in_bounds. apply box_of_order. by rewrite Hp.
  - intros box. unfold dense_grid. apply fill_grid_order; [|done].
    rewrite Hp. apply NoDup_fst_map_to_list.
Qed.

(** C7.  When no coordinate of the Discovered-Map has an entry other than
    ['X'], Map Assembly returns the empty map [[[]]].  Otherwise the
    bounding box is the least box around the coordinates whose entry is not
    ['X']; the dense grid has one row per row and one column per column of
    that box; each of its cells holds the entry of its coordinate, or the
    placeholder ['?'] when the coordinate has no entry; and the result is
    that grid with its border trimmed. *)
Theorem sparse_to_dense_bounding_box (explored : gmap Coord string) :
  ((∀ pos, ¬ non_obstructed explored pos) →
   _sparse_to_dense explored = [[]])
  ∧ (∀ pos, non_obstructed explored pos →
     ∃ min_r max_r min_c max_c,
       bounding_box explored = Some (min_r, max_r, min_c, max_c)
       ∧ tight_box (non_obstructed explored) (min_r, max_r, min_c, max_c)
       ∧ has_dims (Z.to_nat (max_r - min_r + 1))
           (Z.to_nat (max_c - min_c + 1))
           (dense_grid explored (min_r, max_r, min_c, max_c))
       ∧ (∀ i j,
            i < Z.to_nat (max_r - min_r + 1) →
            j < Z.to_nat (max_c - min_c + 1) →
            grid_at (dense_grid explored (min_r, max_r, min_c, max_c)) i j
            = Some (default "?"
                      (explored !! ((min_r + Z.of_nat i)%Z,
                                    (min_c + Z.of_nat j)%Z))))
       ∧ _sparse_to_dense explored
         = _trim_unknown_border
             (dense_grid explored (min_r, max_r, min_c, max_c))).
Proof.
  split.
  - intros Hnone%bounding_box_None. unfold _sparse_to_dense. by rewrite Hnone.
  - intros pos Hpos.
    destruct (bounding_box explored) as [[[[min_r max_r] min_c] max_c]|]
      eqn:Hbox.
    2:{ by destruct (proj1 (bounding_box_None explored) Hbox pos). }
    exists min_r, max_r, min_c, max_c. split_and!.
    + done.
    + by apply bounding_box_tight.
    + apply dense_grid_dims.
    + intros i j. apply dense_grid_at.
    + unfold _sparse_to_dense. by rewrite Hbox.
Qed.

(** ** Border trimming *)

Lemma pop_leading_spec grid :
  ∃ top rest,
    grid = top ++ rest ∧ pop_leading grid = rest
    ∧ Forall (λ row, all_unknown row = true) top
    ∧ ∀ row, head rest = Some row → all_unknown row = false.
Proof.
  induction grid as [|row grid IH].
  - by exists [], [].
  - cbn [pop_leading]. destruct (all_unknown row) eqn:Hrow.
    + destruct IH as (top & rest & -> & Hpop & Htop & Hhead).
      exists (row :: top), rest. split_and!; [done|done| |done].
      by constructor.
    + exists [], (row :: grid). split_and!; [done|done|constructor|].
      by intros r [= <-].
Qed.

Lemma pop_trailing_loop_spec n grid :
  length grid ≤ n →
  ∃ rows bottom,
    grid = rows ++ bottom ∧ pop_trailing_loop n grid = rows
    ∧ Forall (λ row, all_unknown row = true) bottom
    ∧ ∀ row, last rows = Some row → all_unknown row = false.
Proof.
  revert n. induction grid as [|row grid IH] using rev_ind; intros n Hn.
  - exists [], []. by destruct n.
  - rewrite length_app in Hn. simpl in Hn.
    destruct n as [|n]; [lia|]. cbn [pop_trailing_loop].
    rewrite last_snoc, removelast_last.
    destruct (all_unknown row) eqn:Hrow.
    + destruct (IH n) as (rows & bottom & -> & Hpop & Hbot & Hlast); [lia|].
      exists rows, (bottom ++ [row]).
      split_and!; [by rewrite app_assoc|done| |done].
      apply Forall_app. by repeat constructor.
    + exists (grid ++ [row]), [].
      split_and!; [by rewrite app_nil_r|done|constructor|].
      intros r. rewrite last_snoc. by intros [= <-].
Qed.

(** The rows pass: the rows dropped at both ends are all ['?'], and the
    first and the last row kept are not. *)
Lemma trim_rows_spec grid :
  ∃ top rows bottom,
    grid = top ++ rows ++ bottom
    ∧ pop_trailing (pop_leading grid) = rows
    ∧ Forall (λ row, all_unknown row = true) top
    ∧ Forall (λ row, all_unknown row = true) bottom
    ∧ (∀ row, head rows = Some row → all_unknown row = false)
    ∧ (∀ row, last rows = Some row → all_unknown row = false).
Proof.
  destruct (pop_leading_spec grid) as (top & rest & -> & -> & Htop & Hhead).
  destruct (pop_trailing_loop_spec (length rest) rest)
    as (rows & bottom & Hrest & Hpop & Hbot & Hlast); [done|].
  exists top, rows, bottom. split_and!; try done.
  - by rewrite <-Hrest.
  - intros row Hrow. apply Hhead. rewrite Hrest, head_app. by rewrite Hrow.
Qed.

Lemma foldl_min_same (w : nat) (lens : list nat) :
  Forall (λ n, n = w) lens → foldl Nat.min w lens = w.
Proof.
  induction 1 as [|n lens -> _ IH]; [done|].
  cbn [foldl]. by rewrite Nat.min_id.
Qed.

Lemma zip_star_columns w rows :
  rows ≠ [] → Forall (λ row, length row = w) rows →
  zip_star rows = (λ j, column j rows) <$> seq 0 w.
Proof.
  intros Hne Hrows. destruct rows as [|row rest]; [done|].
  apply Forall_cons in Hrows as [Hrow Hrest]. unfold zip_star.
  rewrite Hrow, foldl_min_same; [done|].
  apply Forall_fmap. by eapply Forall_impl.
Qed.

Lemma all_unknown_column w rows j :
  Forall (λ row, length row = w) rows → j < w →
  all_unknown (column j rows) = true ↔ column_unknown rows j.
Proof.
  intros Hrows Hj. unfold all_unknown, column, column_unknown.
  rewrite forallb_forall. split.
  - intros Hall row Hrow.
    assert (Hlen : length row = w) by by eapply Forall_forall in Hrows.
    destruct (lookup_lt_is_Some_2 row j) as [x Hx]; [lia|].
    specialize (Hall (default "?" (row !! j))). rewrite Hx in Hall |- *.
    simpl in Hall. f_equal. eapply bool_decide_eq_true_1, Hall.
    apply list_elem_of_In, list_elem_of_fmap. exists row. by rewrite Hx.
  - intros Hcol x Hx%list_elem_of_In.
    apply list_elem_of_fmap in Hx as (row & -> & Hrow).
    rewrite (Hcol row Hrow). by apply bool_decide_eq_true_2.
Qed.

(** Cutting the same columns out of every row is what transposing,
    keeping a run of columns and transposing back does. *)
Lemma zip_star_cut w rows left cols right :
  rows ≠ [] → cols ≠ [] →
  Forall (λ row, length row = w) rows →
  zip_star rows = left ++ cols ++ right →
  zip_star cols
  = (λ row, take (length cols) (drop (length left) row)) <$> rows.
Proof.
  intros Hrows Hcols Hw Hzip.
  rewrite (zip_star_columns w) in Hzip by done.
  assert (Hcol : ∀ j col, cols !! j = Some col →
                   col = column (length left + j) rows
                   ∧ length left + j < w).
  { intros j col Hj.
    assert (Hl : (left ++ cols ++ right) !! (length left + j) = Some col).
    { rewrite lookup_app_r by lia.
      replace (length left + j - length left) with j by lia.
      by apply lookup_app_l_Some. }
    rewrite <-Hzip, list_lookup_fmap in Hl.
    destruct (seq 0 w !! (length left + j)) as [k|] eqn:Hk; [|done].
    apply lookup_seq in Hk as [-> ?]. simpl in Hl. split; [congruence|lia]. }
  assert (Hlen : Forall (λ col, length col = length rows) cols).
  { apply Forall_lookup. intros j col Hj.
    destruct (Hcol j col Hj) as [-> _]. unfold column.
    by rewrite length_fmap. }
  rewrite (zip_star_columns (length rows)) by done.
  apply list_eq_same_length with (length rows);
    [by rewrite length_fmap|by rewrite length_fmap, length_seq|].
  intros i xs ys Hi Hxs Hys.
  rewrite list_lookup_fmap, lookup_seq_lt in Hxs by done.
  rewrite list_lookup_fmap in Hys.
  destruct (rows !! i) as [row|] eqn:Hrow; [|done].
  simpl in Hxs, Hys. simplify_eq.
  assert (Hroww : length row = w).
  { eapply Forall_forall in Hw; [done|by eapply list_elem_of_lookup_2]. }
  assert (length left + length cols ≤ w).
  { destruct (decide (length cols = 0)) as [H0|H0].
    - by destruct cols.
    - destruct (lookup_lt_is_Some_2 cols (length cols - 1)) as [col Hc];
        [lia|].
      destruct (Hcol _ _ Hc). lia. }
  apply list_eq_same_length with (length cols);
    [rewrite length_take, length_drop; lia
    |by unfold column; rewrite length_fmap|].
  intros j x y Hj Hx Hy.
  unfold column in Hx. rewrite list_lookup_fmap in Hx.
  destruct (cols !! j) as [col|] eqn:Hcj; [|done].
  destruct (Hcol j col Hcj) as [-> Hlt]. simpl in Hx.
  unfold column in Hx. rewrite list_lookup_fmap, Hrow in Hx. simpl in Hx.
  rewrite lookup_take_lt, lookup_drop in Hy by done.
  rewrite Hy in Hx. simpl in Hx. congruence.
Qed.

Lemma all_unknown_false row :
  all_unknown row = false → ∃ j x, row !! j = Some x ∧ x ≠ "?".
Proof.
  induction row as [|ch row IH]; [done|]. unfold all_unknown. cbn [forallb].
  destruct (decide (ch = "?")) as [->|Hne].
  - rewrite bool_decide_eq_true_2 by done. intros (j & x & Hj & Hx)%IH.
    by exists (S j), x.
  - intros _. by exists 0, ch.
Qed.

Lemma zip_star_lookup w rows j :
  rows ≠ [] → Forall (λ row, length row = w) rows → j < w →
  zip_star rows !! j = Some (column j rows).
Proof.
  intros Hne Hw Hj. rewrite (zip_star_columns w) by done.
  by rewrite list_lookup_fmap, lookup_seq_lt.
Qed.

Lemma zip_star_length w rows :
  rows ≠ [] → Forall (λ row, length row = w) rows →
  length (zip_star rows) = w.
Proof.
  intros Hne Hw. rewrite (zip_star_columns w) by done.
  by rewrite length_fmap, length_seq.
Qed.

Lemma all_unknown_row (row : list string) :
  all_unknown row = true ↔ row_unknown row.
Proof.
  unfold all_unknown, row_unknown. rewrite forallb_forall. split.
  - intros Hall ch Hch. apply list_elem_of_In, Hall in Hch.
    by apply bool_decide_eq_true in Hch.
  - intros Hall ch Hch. apply bool_decide_eq_true, Hall.
    by apply list_elem_of_In.
Qed.

Lemma all_unknown_not_row (row : list string) :
  all_unknown row = false → ¬ row_unknown row.
Proof. intros Hf Hu. apply all_unknown_row in Hu. congruence. Qed.

(** C8.  On a grid whose rows have one length, [_trim_unknown_border]
    drops the leading and the trailing rows all of whose cells are ['?']
    ([top] and [bottom]; the first and last row kept each hold a cell that
    is not ['?']).  When no row
    is left it returns [[[]]].  Otherwise it then drops, from every row
    kept, the leading and the trailing columns that are all ['?'] in the
    rows kept ([left] columns, and those from [left + width] on; the first
    and last column kept are not all ['?']).  The result has one row for
    every row the row pass kept: rows are not trimmed again after the
    columns. *)
Theorem trim_single_pass_per_axis (grid : list (list string)) (w : nat) :
  Forall (λ row, length row = w) grid →
  ∃ top rows bottom,
    grid = top ++ rows ++ bottom
    ∧ Forall row_unknown top
    ∧ Forall row_unknown bottom
    ∧ (∀ row, head rows = Some row → ¬ row_unknown row)
    ∧ (∀ row, last rows = Some row → ¬ row_unknown row)
    ∧ (rows = [] → _trim_unknown_border grid = [[]])
    ∧ (rows ≠ [] →
       ∃ left width,
         0 < width ∧ left + width ≤ w
         ∧ (∀ j, j < left → column_unknown rows j)
         ∧ (∀ j, left + width ≤ j < w → column_unknown rows j)
         ∧ ¬ column_unknown rows left
         ∧ ¬ column_unknown rows (left + width - 1)
         ∧ _trim_unknown_border grid
           = (λ row, take width (drop left row)) <$> rows).
Proof.
  intros Hgrid.
  destruct (trim_rows_spec grid)
    as (top & rows & bottom & Hg & Hpop & Htop & Hbot & Hhead & Hlast).
  exists top, rows, bottom. split_and!; try done.
  { eapply Forall_impl; [exact Htop|]. intros row. apply all_unknown_row. }
  { eapply Forall_impl; [exact Hbot|]. intros row. apply all_unknown_row. }
  { intros row Hrow. by apply all_unknown_not_row, Hhead. }
  { intros row Hrow. by apply all_unknown_not_row, Hlast. }
  { intros ->. unfold _trim_unknown_border. by rewrite Hpop. }
  intros Hne.
  assert (Hw : Forall (λ row, length row = w) rows).
  { rewrite Hg in Hgrid. by apply Forall_app in Hgrid as [_ [? _]%Forall_app]. }
  destruct (trim_rows_spec (zip_star rows))
    as (left & cols & right & Hz & HpopT & Hleft & Hright & HheadT & HlastT).
  pose proof (zip_star_length w rows Hne Hw) as Hlen.
  rewrite Hz, !length_app in Hlen.
  assert (Hat : ∀ j, j < w →
                  (left ++ cols ++ right) !! j = Some (column j rows)).
  { intros j Hj. rewrite <-Hz. by apply (zip_star_lookup w). }
  assert (Hcols : cols ≠ []).
  { intros ->. destruct rows as [|row0 rows']; [done|].
    destruct (all_unknown_false row0) as (j & x & Hj & Hx); [by apply Hhead|].
    assert (Hjw : j < w).
    { apply Forall_cons in Hw as [<- _]. by eapply lookup_lt_Some. }
    assert (Hu : all_unknown (column j (row0 :: rows')) = true).
    { specialize (Hat j Hjw). simpl in Hat.
      apply list_elem_of_lookup_2, elem_of_app in Hat as [Hin|Hin].
      - by eapply Forall_forall in Hleft.
      - by eapply Forall_forall in Hright. }
    apply (all_unknown_column w) in Hu; [|done..].
    rewrite (Hu row0) in Hj by left. congruence. }
  assert (Hwidth : 0 < length cols) by (destruct cols; [done|simpl; lia]).
  unfold _trim_unknown_border. rewrite Hpop.
  destruct rows as [|row0 rows'] eqn:Hrows; [done|]. rewrite <-Hrows in *.
  exists (length left), (length cols). split_and!.
  - done.
  - lia.
  - intros j Hj. apply (all_unknown_column w); [done|lia|].
    specialize (Hat j ltac:(lia)). rewrite lookup_app_l in Hat by done.
    eapply Forall_lookup_1 in Hleft; done.
  - intros j Hj. apply (all_unknown_column w); [done|lia|].
    specialize (Hat j ltac:(lia)).
    rewrite lookup_app_r, lookup_app_r in Hat by lia.
    eapply Forall_lookup_1 in Hright; done.
  - intros Hu. apply (all_unknown_column w) in Hu; [|done|lia].
    specialize (Hat (length left) ltac:(lia)).
    rewrite lookup_app_r in Hat by lia.
    replace (length left - length left) with 0 in Hat by lia.
    rewrite lookup_app_l in Hat by lia.
    rewrite <-head_lookup in Hat. apply HheadT in Hat. congruence.
  - intros Hu. apply (all_unknown_column w) in Hu; [|done|lia].
    specialize (Hat (length left + length cols - 1) ltac:(lia)).
    rewrite lookup_app_r in Hat by lia.
    rewrite lookup_app_l in Hat by lia.
    replace (length left + length cols - 1 - length left)
      with (pred (length cols)) in Hat by lia.
    rewrite <-last_lookup in Hat. apply HlastT in Hat. congruence.
  - rewrite HpopT. by apply (zip_star_cut w _ _ _ right).
Qed.

(** ** Instances *)

Lemma counting_alike :
  answers_alike RoverModel.ops counting_ops (λ r rn, r = rn.1).
Proof.
  intros r [r' n] ->. split; [done|]. intros d. simpl.
  by destruct (RoverModel.move d r') as [answer r''].
Qed.

Lemma explorer_deterministic_witness :
  answers_alike RoverModel.ops counting_ops (λ r rn, r = rn.1)
  ∧ RoverModel.new false small_room = (RoverModel.new false small_room, 0).1
  ∧ (_neighbours home).*1 = [North; South; East; West]
  ∧ discovered RoverModel.ops 10 (RoverModel.new false small_room)
    = discovered counting_ops 10 (RoverModel.new false small_room, 0)
  ∧ map_surface_with_battery_constraint RoverModel.ops 10
      (RoverModel.new false small_room)
    = map_surface_with_battery_constraint counting_ops 10
        (RoverModel.new false small_room, 0).
Proof.
  split; [exact counting_alike|]. split; [reflexivity|].
  exact (explorer_deterministic RoverModel.ops counting_ops
           (λ r rn, r = rn.1) 10 (RoverModel.new false small_room)
           (RoverModel.new false small_room, 0) counting_alike eq_refl).
Defined.

(** On the corridor the columns 0 to 3 are found free and column 4
    obstructed; the obstruction lies outside the box of the free cells and
    is left out of the grid. *)
Example corridor_run :
  (λ m, (λ c, m !! (0, c)%Z) <$> [0; 1; 2; 3; 4; 5]%Z)
    <$> (match discovered RoverModel.ops 10 (RoverModel.new false corridor)
         with Ok m => Some m | Raise _ => None end)
  = Some [Some "H"; Some "."; Some "."; Some "."; Some "X"; None]
  ∧ map_surface_with_battery_constraint RoverModel.ops 10
      (RoverModel.new false corridor)
    = Ok [["H"; "."; "."; "."]].
Proof. split; by vm_compute. Qed.

(** With an empty battery the Discovered-Map holds home only. *)
Example flat_battery_run :
  discovered RoverModel.ops 10 flat_rover = Ok {[ home := "H" ]}.
Proof. by vm_compute. Qed.

Lemma assembly_ignores_item_order_witness :
  reverse (map_to_list far_obstruction) ≡ₚ map_to_list far_obstruction
  ∧ box_of (filter (λ kv, kv.2 ≠ "X")
              (reverse (map_to_list far_obstruction))).*1
    = bounding_box far_obstruction
  ∧ ∀ box, fill_grid (reverse (map_to_list far_obstruction)) box
           = dense_grid far_obstruction box.
Proof.
  assert (H : reverse (map_to_list far_obstruction)
              ≡ₚ map_to_list far_obstruction) by apply reverse_Permutation.
  split; [exact H|].
  exact (assembly_ignores_item_order far_obstruction
           (reverse (map_to_list far_obstruction)) H).
Defined.

Example far_obstruction_dense :
  _sparse_to_dense far_obstruction = [["H"]; ["."]].
Proof. by vm_compute. Qed.

Example padded_grid_trimmed :
  _trim_unknown_border padded_grid = [["a"; "?"]; ["?"; "b"]].
Proof. reflexivity. Qed.

Lemma trim_single_pass_per_axis_witness :
  Forall (λ row, length row = 3) padded_grid
  ∧ ∃ top rows bottom,
      padded_grid = top ++ rows ++ bottom
      ∧ Forall row_unknown top
      ∧ Forall row_unknown bottom
      ∧ (∀ row, head rows = Some row → ¬ row_unknown row)
      ∧ (∀ row, last rows = Some row → ¬ row_unknown row)
      ∧ (rows = [] → _trim_unknown_border padded_grid = [[]])
      ∧ (rows ≠ [] →
         ∃ left width,
           0 < width ∧ left + width ≤ 3
           ∧ (∀ j, j < left → column_unknown rows j)
           ∧ (∀ j, left + width ≤ j < 3 → column_unknown rows j)
           ∧ ¬ column_unknown rows left
           ∧ ¬ column_unknown rows (left + width - 1)
           ∧ _trim_unknown_border padded_grid
             = (λ row, take width (drop left row)) <$> rows).
Proof.
  assert (H : Forall (λ row, length row = 3) padded_grid)
    by (repeat constructor).
  split; [exact H|].
  exact (trim_single_pass_per_axis padded_grid 3 H).
Defined.

(** * The helpers on their own *)

(** ** Reversed paths *)

Lemma OPPOSITE_involutive d : OPPOSITE (OPPOSITE d) = d.
Proof. by destruct d. Qed.

Lemma reverse_path_snoc path d :
  _reverse_path (path ++ [d]) = OPPOSITE d :: _reverse_path path.
Proof. unfold _reverse_path. by rewrite reverse_app. Qed.

Lemma walk_cons start d path :
  walk start (d :: path) = walk (shift start (delta d)) path.
Proof. done. Qed.

(** X3.  [_reverse_path] undoes a path: it has the length of the path,
    reversing twice gives the path back, and walking a path and then its
    reverse ends where the walk started. *)
Theorem reverse_path_round_trip (path : list Dir) (start : Coord) :
  length (_reverse_path path) = length path
  ∧ _reverse_path (_reverse_path path) = path
  ∧ walk (walk start path) (_reverse_path path) = start.
Proof.
  split_and!.
  - unfold _reverse_path. by rewrite length_map, length_reverse.
  - induction path as [|d path IH] using rev_ind; [done|].
    rewrite reverse_path_snoc. unfold _reverse_path in *.
    rewrite reverse_cons, map_app, IH. simpl.
    by rewrite OPPOSITE_involutive.
  - induction path as [|d path IH] using rev_ind; [done|].
    rewrite reverse_path_snoc, walk_snoc, walk_cons, shift_back. apply IH.
Qed.

(** ** The Manhattan distance *)

(** X4.  [_manhattan] is a distance: never negative, zero exactly between
    a point and itself, symmetric, and it obeys the triangle inequality.
    No sequence of unit moves gets farther from its start than its
    length. *)
Theorem manhattan_distance (a b c : Coord) (path : list Dir) :
  (0 ≤ _manhattan a b)%Z
  ∧ (_manhattan a b = 0%Z ↔ a = b)
  ∧ _manhattan a b = _manhattan b a
  ∧ (_manhattan a c ≤ _manhattan a b + _manhattan b c)%Z
  ∧ (_manhattan (walk a path) a ≤ Z.of_nat (length path))%Z.
Proof.
  destruct a as [ar ac], b as [br bc], c as [cr cc]. unfold _manhattan.
  cbn [fst snd]. split_and!; try lia.
  - split; [intros ?; f_equal; lia|intros [= -> ->]; lia].
  - induction path as [|d path IH] using rev_ind; [simpl; lia|].
    rewrite walk_snoc, length_app. cbn [length].
    destruct (walk (ar, ac) path) as [r c]. unfold shift.
    cbn [fst snd] in *. destruct d; simpl; lia.
Qed.

(** X5.  [_roundtrip_cost] never exceeds the cost of a real round trip:
    for any way back from the neighbour to home, the moves to the tile, the
    probing move and the moves back are at least the estimate. *)
Theorem roundtrip_cost_lower_bound (path_to_tile back : list Dir)
    (nbr home' : Coord) :
  walk nbr back = home' →
  (_roundtrip_cost path_to_tile nbr home'
   ≤ Z.of_nat (length path_to_tile + 1 + length back))%Z.
Proof.
  intros <-. unfold _roundtrip_cost.
  assert (_manhattan nbr (walk nbr back) ≤ Z.of_nat (length back))%Z; [|lia].
  clear. revert nbr. induction back as [|d back IH]; intros [r c].
  - unfold _manhattan. simpl. lia.
  - rewrite walk_cons. cbn [length].
    specialize (IH (shift (r, c) (delta d))).
    destruct (walk (shift (r, c) (delta d)) back) as [r' c'].
    unfold _manhattan, shift in *. cbn [fst snd] in *.
    destruct d; simpl in *; lia.
Qed.

Lemma roundtrip_cost_lower_bound_witness :
  walk (0, 2)%Z [West; West] = home
  ∧ (_roundtrip_cost [East] (0, 2)%Z home
     ≤ Z.of_nat (length [East] + 1 + length [West; West]))%Z.
Proof.
  split; [reflexivity|].
  exact (roundtrip_cost_lower_bound [East] [West; West] (0, 2)%Z home
           eq_refl).
Defined.

(** ** Trimming, again *)

Lemma all_unknown_known row j x :
  row !! j = Some x → x ≠ "?" → all_unknown row = false.
Proof.
  revert j. induction row as [|ch row IH]; intros j Hj Hx; [done|].
  unfold all_unknown. cbn [forallb]. destruct j as [|j].
  - injection Hj as ->. by rewrite bool_decide_eq_false_2.
  - rewrite andb_false_iff. right. by eapply IH.
Qed.

Lemma pop_leading_known grid :
  (∀ row, head grid = Some row → all_unknown row = false) →
  pop_leading grid = grid.
Proof.
  destruct grid as [|row grid]; [done|]. intros Hhead. cbn [pop_leading].
  by rewrite (Hhead row).
Qed.

Lemma pop_trailing_known grid :
  (∀ row, last grid = Some row → all_unknown row = false) →
  pop_trailing grid = grid.
Proof.
  intros Hlast. unfold pop_trailing.
  destruct grid as [|row grid _] using rev_ind; [done|].
  rewrite length_app, Nat.add_1_r. cbn [pop_trailing_loop].
  rewrite last_snoc, (Hlast row); [done|]. by rewrite last_snoc.
Qed.

(** A grid whose border rows and border columns each hold a known cell is
    left as it is. *)
Lemma trim_known_border grid w :
  Forall (λ row, length row = w) grid →
  (∃ row, head grid = Some row ∧ all_unknown row = false) →
  (∀ row, last grid = Some row → all_unknown row = false) →
  ¬ column_unknown grid 0 → ¬ column_unknown grid (w - 1) →
  _trim_unknown_border grid = grid.
Proof.
  intros Hw (row0 & Hrow0 & Hknown0) Hlast Hc0 Hc1.
  assert (Hhead : ∀ row, head grid = Some row → all_unknown row = false).
  { intros row Hrow. congruence. }
  assert (Hne : grid ≠ []) by (by destruct grid).
  assert (Hpos : 0 < w).
  { destruct (all_unknown_false row0 Hknown0) as (j & x & Hj & _).
    destruct grid as [|r g]; [done|]. injection Hrow0 as ->.
    apply Forall_cons in Hw as [<- _]. apply lookup_lt_Some in Hj. lia. }
  unfold _trim_unknown_border.
  rewrite (pop_leading_known grid), (pop_trailing_known grid) by done.
  destruct grid as [|r g] eqn:Hgrid; [done|]. rewrite <-Hgrid in *.
  assert (HT : ∀ j, j < w → zip_star grid !! j = Some (column j grid)).
  { intros j Hj. by apply (zip_star_lookup w). }
  pose proof (zip_star_length w grid Hne Hw) as HlenT.
  assert (Hnot : ∀ j, j < w → ¬ column_unknown grid j →
                 all_unknown (column j grid) = false).
  { intros j Hj Hcol. destruct (all_unknown (column j grid)) eqn:Hu; [|done].
    destruct Hcol. by apply (all_unknown_column w). }
  rewrite (pop_leading_known (zip_star grid)).
  2:{ intros col Hcol. rewrite head_lookup, HT in Hcol by done.
      injection Hcol as <-. by apply Hnot. }
  rewrite (pop_trailing_known (zip_star grid)).
  2:{ intros col Hcol. rewrite last_lookup, HlenT, HT in Hcol by lia.
      injection Hcol as <-. replace (pred w) with (w - 1) by lia.
      apply Hnot; [lia|done]. }
  rewrite (zip_star_cut w grid [] (zip_star grid) []);
    [|done| |done|by rewrite app_nil_r].
  2:{ intros Hnil. rewrite Hnil in HlenT. simpl in HlenT. lia. }
  rewrite HlenT. simpl. rewrite <-(list_fmap_id grid) at 2.
  apply Forall_fmap_ext_1. eapply Forall_impl; [exact Hw|].
  intros row Hrow. cbn beta in Hrow. unfold id. rewrite drop_0.
  apply take_ge. lia.
Qed.

(** What the two passes leave, for the rows the row pass keeps. *)
Lemma trim_cut grid w :
  Forall (λ row, length row = w) grid →
  pop_trailing (pop_leading grid) ≠ [] →
  ∃ left width,
    0 < width ∧ left + width ≤ w
    ∧ (∀ j, j < w → j < left ∨ left + width ≤ j →
         column_unknown (pop_trailing (pop_leading grid)) j)
    ∧ ¬ column_unknown (pop_trailing (pop_leading grid)) left
    ∧ ¬ column_unknown (pop_trailing (pop_leading grid)) (left + width - 1)
    ∧ _trim_unknown_border grid
      = (λ row, take width (drop left row))
          <$> pop_trailing (pop_leading grid).
Proof.
  intros Hgrid Hne.
  destruct (trim_rows_spec grid)
    as (top & rows & bottom & Hg & Hpop & Htop & Hbot & Hhead & Hlast).
  rewrite Hpop in *.
  assert (Hw : Forall (λ row, length row = w) rows).
  { rewrite Hg in Hgrid. by apply Forall_app in Hgrid as [_ [? _]%Forall_app]. }
  destruct (trim_rows_spec (zip_star rows))
    as (left & cols & right & Hz & HpopT & Hleft & Hright & HheadT & HlastT).
  pose proof (zip_star_length w rows Hne Hw) as Hlen.
  rewrite Hz, !length_app in Hlen.
  assert (Hat : ∀ j, j < w →
                  (left ++ cols ++ right) !! j = Some (column j rows)).
  { intros j Hj. rewrite <-Hz. by apply (zip_star_lookup w). }
  assert (Hcols : cols ≠ []).
  { intros ->. destruct rows as [|row0 rows']; [done|].
    destruct (all_unknown_false row0) as (j & x & Hj & Hx); [by apply Hhead|].
    assert (Hjw : j < w).
    { apply Forall_cons in Hw as [<- _]. by eapply lookup_lt_Some. }
    assert (Hu : all_unknown (column j (row0 :: rows')) = true).
    { specialize (Hat j Hjw). simpl in Hat.
      apply list_elem_of_lookup_2, elem_of_app in Hat as [Hin|Hin].
      - by eapply Forall_forall in Hleft.
      - by eapply Forall_forall in Hright. }
    apply (all_unknown_column w) in Hu; [|done..].
    rewrite (Hu row0) in Hj by left. congruence. }
  assert (Hwidth : 0 < length cols) by (destruct cols; [done|simpl; lia]).
  exists (length left), (length cols). split_and!.
  - done.
  - lia.
  - intros j Hj Hside. apply (all_unknown_column w); [done|lia|].
    specialize (Hat j Hj). destruct Hside as [Hl|Hr].
    + rewrite lookup_app_l in Hat by done.
      eapply Forall_lookup_1 in Hleft; done.
    + rewrite lookup_app_r, lookup_app_r in Hat by lia.
      eapply Forall_lookup_1 in Hright; done.
  - intros Hu. apply (all_unknown_column w) in Hu; [|done|lia].
    specialize (Hat (length left) ltac:(lia)).
    rewrite lookup_app_r in Hat by lia.
    replace (length left - length left) with 0 in Hat by lia.
    rewrite lookup_app_l in Hat by lia.
    rewrite <-head_lookup in Hat. apply HheadT in Hat. congruence.
  - intros Hu. apply (all_unknown_column w) in Hu; [|done|lia].
    specialize (Hat (length left + length cols - 1) ltac:(lia)).
    rewrite lookup_app_r in Hat by lia.
    rewrite lookup_app_l in Hat by lia.
    replace (length left + length cols - 1 - length left)
      with (pred (length cols)) in Hat by lia.
    rewrite <-last_lookup in Hat. apply HlastT in Hat. congruence.
  - unfold _trim_unknown_border. rewrite Hpop.
    destruct rows as [|row0 rows'] eqn:Hrows; [done|]. rewrite <-Hrows in *.
    rewrite HpopT. by apply (zip_star_cut w _ _ _ right).
Qed.

Lemma cut_lookup (row : list string) left width j :
  j < width → take width (drop left row) !! j = row !! (left + j).
Proof. intros Hj. by rewrite lookup_take_lt, lookup_drop. Qed.

Lemma trim_shape grid w :
  Forall (λ row, length row = w) grid →
  _trim_unknown_border grid ≠ []
  ∧ ∃ w', w' ≤ w ∧ Forall (λ row, length row = w') (_trim_unknown_border grid).
Proof.
  intros Hgrid.
  destruct (trim_rows_spec grid)
    as (top & rows & bottom & Hg & Hpop & _ & _ & Hhead & _).
  destruct (decide (rows = [])) as [->|Hne].
  { unfold _trim_unknown_border. rewrite Hpop. split; [done|].
    exists 0. split; [lia|]. by repeat constructor. }
  assert (Hw : Forall (λ row, length row = w) rows).
  { rewrite Hg in Hgrid. by apply Forall_app in Hgrid as [_ [? _]%Forall_app]. }
  destruct (trim_cut grid w Hgrid) as (left & width & ? & ? & _ & _ & _ & ->);
    [by rewrite Hpop|].
  rewrite Hpop. split; [by destruct rows|].
  exists width. split; [lia|]. apply Forall_fmap.
  eapply Forall_impl; [exact Hw|]. intros row Hrow. unfold compose.
  cbn beta in *. rewrite length_take, length_drop. lia.
Qed.

Lemma trim_twice grid w :
  Forall (λ row, length row = w) grid →
  _trim_unknown_border (_trim_unknown_border grid)
  = _trim_unknown_border grid.
Proof.
  intros Hgrid.
  destruct (trim_rows_spec grid)
    as (top & rows & bottom & Hg & Hpop & _ & _ & Hhead & Hlast).
  destruct (decide (rows = [])) as [->|Hne].
  { assert (_trim_unknown_border grid = [[]]) as ->; [|done].
    unfold _trim_unknown_border. by rewrite Hpop. }
  assert (Hw : Forall (λ row, length row = w) rows).
  { rewrite Hg in Hgrid. by apply Forall_app in Hgrid as [_ [? _]%Forall_app]. }
  destruct (trim_cut grid w Hgrid)
    as (left & width & Hpos & Hle & Hside & Hl & Hr & ->);
    [by rewrite Hpop|].
  rewrite Hpop in *.
  assert (Hkept : ∀ row, row ∈ rows → all_unknown row = false →
            all_unknown (take width (drop left row)) = false).
  { intros row Hin Hrow.
    destruct (all_unknown_false row Hrow) as (j & x & Hj & Hx).
    assert (Hjw : j < w).
    { eapply Forall_forall in Hw; [|done]. rewrite <-Hw.
      by eapply lookup_lt_Some. }
    destruct (decide (left ≤ j < left + width)) as [Hin'|Hout].
    - apply (all_unknown_known _ (j - left) x); [|done].
      rewrite cut_lookup by lia. by replace (left + (j - left)) with j by lia.
    - rewrite (Hside j Hjw ltac:(lia) row Hin) in Hj. congruence. }
  apply (trim_known_border _ width).
  - apply Forall_fmap. eapply Forall_impl; [exact Hw|].
    intros row Hrow. unfold compose. cbn beta in *.
  rewrite length_take, length_drop. lia.
  - destruct rows as [|row0 rows'] eqn:Hrows; [done|].
    eexists. split; [done|]. apply Hkept; [left|]. by apply Hhead.
  - intros row. rewrite fmap_last.
    destruct (last rows) as [rowl|] eqn:Hl'; [|done]. intros [= <-].
    apply Hkept; [by apply last_Some_elem_of|]. by apply Hlast.
  - intros Hu. apply Hl. intros row Hin.
    specialize (Hu (take width (drop left row))).
    rewrite cut_lookup, Nat.add_0_r in Hu by done. apply Hu.
    apply list_elem_of_fmap. by exists row.
  - intros Hu. apply Hr. intros row Hin.
    specialize (Hu (take width (drop left row))).
    rewrite cut_lookup in Hu by lia.
    replace (left + (width - 1)) with (left + width - 1) in Hu by lia.
    apply Hu. apply list_elem_of_fmap. by exists row.
Qed.

(** X6.  On a grid whose rows have one length, [_trim_unknown_border]
    returns a grid of at least one row whose rows have one length, no
    wider than before, and trimming that result again changes nothing. *)
Theorem trim_idempotent (grid : list (list string)) (w : nat) :
  Forall (λ row, length row = w) grid →
  _trim_unknown_border grid ≠ []
  ∧ (∃ w', w' ≤ w
           ∧ Forall (λ row, length row = w') (_trim_unknown_border grid))
  ∧ _trim_unknown_border (_trim_unknown_border grid)
    = _trim_unknown_border grid.
Proof.
  intros Hgrid. destruct (trim_shape grid w Hgrid) as [Hne Hrect].
  split_and!; [done|done|]. by eapply trim_twice.
Qed.

Lemma trim_idempotent_witness :
  Forall (λ row, length row = 3) padded_grid
  ∧ _trim_unknown_border padded_grid ≠ []
  ∧ (∃ w', w' ≤ 3
           ∧ Forall (λ row, length row = w')
               (_trim_unknown_border padded_grid))
  ∧ _trim_unknown_border (_trim_unknown_border padded_grid)
    = _trim_unknown_border padded_grid.
Proof.
  assert (H : Forall (λ row, length row = 3) padded_grid)
    by (repeat constructor).
  split; [exact H|]. exact (trim_idempotent padded_grid 3 H).
Defined.

(** ** The shape of the assembled map *)

(** X7.  Whatever the Discovered-Map, [_sparse_to_dense] returns at least
    one row and its rows have one length, so that a caller may take the
    length of the first row as the number of columns. *)
Theorem sparse_to_dense_shape (explored : gmap Coord string) :
  _sparse_to_dense explored ≠ []
  ∧ ∃ w, Forall (λ row, length row = w) (_sparse_to_dense explored).
Proof.
  unfold _sparse_to_dense.
  destruct (bounding_box explored) as [[[[min_r max_r] min_c] max_c]|].
  - destruct (dense_grid_dims explored min_r max_r min_c max_c) as [_ Hw].
    destruct (trim_shape _ _ Hw) as (Hne & w' & _ & Hrect). eauto.
  - split; [done|]. exists 0. by repeat constructor.
Qed.

Lemma grid_at_lookup grid i j x :
  grid_at grid i j = Some x ↔ ∃ row, grid !! i = Some row ∧ row !! j = Some x.
Proof.
  unfold grid_at. destruct (grid !! i) as [row|]; simpl.
  - split; [eauto|]. by intros (row' & [= <-] & ?).
  - split; [done|]. by intros (row' & [=] & ?).
Qed.

(** X8.  When no symbol of the Discovered-Map is the placeholder ['?'],
    nothing is trimmed: the result of [_sparse_to_dense] is the whole grid
    of the bounding box. *)
Theorem sparse_to_dense_untrimmed (explored : gmap Coord string)
    (box : Z * Z * Z * Z) :
  map_Forall (λ _ ch, ch ≠ "?") explored →
  bounding_box explored = Some box →
  _sparse_to_dense explored = dense_grid explored box.
Proof.
  intros Hsym Hbox. unfold _sparse_to_dense. rewrite Hbox.
  destruct box as [[[min_r max_r] min_c] max_c].
  pose proof (bounding_box_tight _ _ Hbox)
    as (Hin & [c1 H1] & [c2 H2] & [r3 H3] & [r4 H4]).
  pose proof (dense_grid_dims explored min_r max_r min_c max_c) as [Hh Hw].
  set (grid := dense_grid explored (min_r, max_r, min_c, max_c)) in *.
  set (h := Z.to_nat (max_r - min_r + 1)) in *.
  set (w := Z.to_nat (max_c - min_c + 1)) in *.
  assert (Hcell : ∀ r c, non_obstructed explored (r, c) →
            ∃ row x, grid !! Z.to_nat (r - min_r) = Some row
                     ∧ row !! Z.to_nat (c - min_c) = Some x ∧ x ≠ "?"
                     ∧ Z.to_nat (r - min_r) < h ∧ Z.to_nat (c - min_c) < w).
  { intros r c Hrc. pose proof (Hin r c Hrc) as [Hr Hc].
    destruct Hrc as (ch & Hch & _).
    pose proof (dense_grid_at explored min_r max_r min_c max_c
                  (Z.to_nat (r - min_r)) (Z.to_nat (c - min_c))) as Hat.
    fold grid in Hat.
    replace (min_r + Z.of_nat (Z.to_nat (r - min_r)))%Z with r in Hat by lia.
    replace (min_c + Z.of_nat (Z.to_nat (c - min_c)))%Z with c in Hat by lia.
    rewrite Hch in Hat. simpl in Hat.
    apply grid_at_lookup in Hat as (row & Hrow & Hx); [|unfold h, w; lia..].
    exists row, ch. split_and!; [done|done| |unfold h; lia|unfold w; lia].
    by apply (Hsym _ _ Hch). }
  assert (Hcol : ∀ r c, non_obstructed explored (r, c) →
            ¬ column_unknown grid (Z.to_nat (c - min_c))).
  { intros r c Hrc Hu. destruct (Hcell r c Hrc) as (row & x & Hrow & Hx & ? & _).
    rewrite (Hu row) in Hx by by eapply list_elem_of_lookup_2. congruence. }
  pose proof (Hin _ _ H1) as [? ?]. pose proof (Hin _ _ H4) as [? ?].
  apply (trim_known_border grid w).
  - done.
  - destruct (Hcell _ _ H1) as (row & x & Hrow & Hx & Hne & _).
    replace (Z.to_nat (min_r - min_r)) with 0 in Hrow by lia.
    exists row. rewrite head_lookup. split; [done|].
    by eapply all_unknown_known.
  - intros row. rewrite last_lookup, Hh.
    destruct (Hcell _ _ H2) as (row' & x & Hrow & Hx & Hne & _).
    replace (Z.to_nat (max_r - min_r)) with (pred h) in Hrow
      by (unfold h; lia).
    rewrite Hrow. intros [= <-]. by eapply all_unknown_known.
  - specialize (Hcol _ _ H3).
    by replace (Z.to_nat (min_c - min_c)) with 0 in Hcol by lia.
  - specialize (Hcol _ _ H4).
    by replace (Z.to_nat (max_c - min_c)) with (w - 1) in Hcol
      by (unfold w; lia).
Qed.

Lemma sparse_to_dense_untrimmed_witness :
  map_Forall (λ _ ch, ch ≠ "?") far_obstruction
  ∧ bounding_box far_obstruction = Some (0, 1, 0, 0)%Z
  ∧ _sparse_to_dense far_obstruction
    = dense_grid far_obstruction (0, 1, 0, 0)%Z.
Proof.
  assert (H : map_Forall (λ _ ch, ch ≠ "?") far_obstruction).
  { unfold far_obstruction. by repeat apply map_Forall_insert_2. }
  assert (Hbox : bounding_box far_obstruction = Some (0, 1, 0, 0)%Z)
    by (by vm_compute).
  split; [exact H|]. split; [exact Hbox|].
  exact (sparse_to_dense_untrimmed far_obstruction (0, 1, 0, 0)%Z H Hbox).
Defined.

(** ** The round-trip check and the guard of the loop *)

Section Unchecked_proofs.
Context {R : Type} (ops : RoverOps R).

Lemma probe_unchecked_eq k (v : vars R) tile path d :
  chain (parents v) tile k → length path = k → k ≤ 9 →
  probe_unchecked ops tile v (d, shift tile (delta d))
  = probe ops tile path v (d, shift tile (delta d)).
Proof.
  intros Htile Hlen Hk. unfold probe_unchecked, probe.
  case_decide; [done|]. rewrite decide_False; [done|].
  pose proof (chain_manhattan _ _ _ Htile).
  pose proof (manhattan_shift tile d).
  unfold _roundtrip_cost, FULL_BATTERY. lia.
Qed.

Lemma probes_unchecked_eq k tile path ds (v : vars R) :
  inv k v → chain (parents v) tile k → length path = k → k ≤ 9 →
  foldl (probe_unchecked ops tile) v
    ((λ d, (d, shift tile (delta d))) <$> ds)
  = foldl (probe ops tile path) v ((λ d, (d, shift tile (delta d))) <$> ds).
Proof.
  revert v. induction ds as [|d ds IH]; intros v Hinv Htile Hlen Hk; [done|].
  rewrite fmap_cons. cbn [foldl].
  rewrite (probe_unchecked_eq k v tile path d) by done.
  destruct (probe_inv ops k v tile path d Hinv Htile Hlen) as (H1 & H2 & _).
  apply IH; [done|by eapply chain_mono|done|done].
Qed.

Lemma visit_unchecked_eq k fuel (v : vars R) tile :
  inv k v → chain (parents v) tile k → k ≤ fuel → k ≤ 9 →
  visit_unchecked ops fuel v tile = visit ops fuel v tile.
Proof.
  intros Hinv Htile Hfuel Hk. unfold visit_unchecked, visit.
  destruct (reconstruct_path_chain _ _ _ fuel Htile Hfuel)
    as (path & -> & Hlen & _).
  cbn [mbind result_bind]. rewrite neighbours_shift.
  rewrite (probes_unchecked_eq k tile path); [done| |done..].
  by apply inv_rover.
Qed.

Lemma for_frontier_unchecked_eq k fuel tiles (v : vars R) :
  inv k v → Forall (λ c, chain (parents v) c k) tiles → k ≤ fuel → k ≤ 9 →
  for_frontier_unchecked ops fuel v tiles = for_frontier ops fuel v tiles.
Proof.
  revert v. induction tiles as [|tile tiles IH]; intros v Hinv Hall Hfuel Hk;
    [done|].
  apply Forall_cons in Hall as [Htile Hall].
  cbn [for_frontier_unchecked for_frontier].
  rewrite (visit_unchecked_eq k) by done.
  destruct (visit_inv ops k fuel v tile Hinv Htile Hfuel)
    as (v1 & -> & H1 & H2 & _).
  cbn [mbind result_bind]. apply IH; [done| |done|done].
  eapply Forall_impl; [done|]. intros c Hc. by eapply chain_mono.
Qed.

Lemma while_loop_unchecked_eq fuel n k (v : vars R) frontier :
  inv (pred k) (reset v) →
  Forall (λ c, chain (parents v) c k) frontier →
  10 ≤ fuel →
  while_loop_unchecked ops fuel n v frontier (Z.of_nat k)
  = while_loop ops fuel n v frontier (Z.of_nat k).
Proof.
  revert k v frontier.
  induction n as [|n IH]; intros k v frontier Hinv Hall Hfuel; [done|].
  cbn [while_loop_unchecked while_loop].
  destruct (loop_guard frontier (Z.of_nat k)) eqn:Hg; [|done].
  assert (k ≤ 9).
  { unfold loop_guard in Hg. destruct frontier; [done|].
    apply bool_decide_eq_true in Hg. unfold FULL_BATTERY in Hg. lia. }
  pose proof (inv_weaken (pred k) k (reset v) ltac:(lia) Hinv) as Hinv'.
  change (Vars (rover v) (explored v) (parents v) [] (attempts v))
    with (reset v).
  rewrite (for_frontier_unchecked_eq k); [|exact Hinv'|done|lia|done].
  destruct (for_frontier_inv ops k fuel frontier (reset v))
    as (v1 & -> & H1 & _); [exact Hinv'|done|lia|].
  cbn [mbind result_bind].
  replace (Z.of_nat k + 1)%Z with (Z.of_nat (S k)) by lia.
  apply IH; [|by destruct H1|done].
  exact (inv_weaken k k v1 ltac:(lia) H1).
Qed.
End Unchecked_proofs.

(** X9.  In a run the round-trip check never turns a neighbour away: the
    guard of the loop keeps the frontier within nine moves of home, where
    the estimate is at most [FULL_BATTERY].  For every rover, the explorer
    without the check ends in the same state. *)
Theorem roundtrip_check_never_rejects {R} (ops : RoverOps R) (fuel : nat)
    (rover0 : R) :
  10 ≤ fuel →
  explore_unchecked ops fuel rover0 = explore ops fuel rover0.
Proof.
  intros Hfuel. unfold explore_unchecked, explore.
  apply (while_loop_unchecked_eq ops fuel fuel 0); [| |done].
  - exact (inv_weaken 0 0 _ ltac:(lia) (initial_inv ops rover0)).
  - repeat constructor.
Qed.

Lemma roundtrip_check_never_rejects_witness :
  10 ≤ 10
  ∧ explore_unchecked RoverModel.ops 10 (RoverModel.new true junction)
    = explore RoverModel.ops 10 (RoverModel.new true junction).
Proof.
  split; [lia|].
  exact (roundtrip_check_never_rejects RoverModel.ops 10
           (RoverModel.new true junction) ltac:(lia)).
Defined.

(** ** Printing a map *)

Lemma string_app_assoc (s1 s2 s3 : string) :
  (s1 +:+ s2) +:+ s3 = s1 +:+ (s2 +:+ s3).
Proof.
  induction s1 as [|a s1 IH]; [done|].
  change (String a ((s1 +:+ s2) +:+ s3) = String a (s1 +:+ (s2 +:+ s3))).
  by rewrite IH.
Qed.

Lemma string_app_nil_r (s : string) : s +:+ "" = s.
Proof.
  induction s as [|a s IH]; [done|].
  change (String a (s +:+ "") = String a s). by rewrite IH.
Qed.

Lemma file_text_from text (map_data : list (list string)) :
  foldl (λ text row, text +:+ (join_row row +:+ newline)) text map_data
  = text +:+ file_text map_data.
Proof.
  unfold file_text. revert text.
  induction map_data as [|row rest IH]; intros text; cbn [foldl].
  - by rewrite string_app_nil_r.
  - rewrite (IH (text +:+ _)), (IH ("" +:+ _)).
    rewrite string_app_assoc. reflexivity.
Qed.

(** X10.  The text [print_map_to_file] writes is what [pretty] prints,
    followed by one newline; for a map of no rows it writes nothing.  The
    file named holds that text afterwards, whatever it held before, and
    every other file is left as it was. *)
Theorem printed_file_is_pretty (files : gmap string string)
    (map_data : list (list string)) (filename : string) :
  file_text map_data
  = match map_data with
    | [] => ""
    | _ :: _ => pretty map_data +:+ newline
    end
  ∧ print_map_to_file files map_data filename !! filename
    = Some (file_text map_data)
  ∧ delete filename (print_map_to_file files map_data filename)
    = delete filename files.
Proof.
  split_and!.
  - induction map_data as [|row rest IH]; [done|].
    unfold file_text. cbn [foldl]. rewrite file_text_from, IH.
    unfold pretty. rewrite fmap_cons.
    destruct rest as [|row' rest]; simpl.
    + by rewrite string_app_nil_r.
    + by rewrite !string_app_assoc.
  - apply lookup_insert_eq.
  - apply delete_insert_eq.
Qed.

(** ** Reachability on the planet grid *)

Lemma string_get_lt (s : string) n :
  n < String.length s → is_Some (String.get n s).
Proof.
  revert n. induction s as [|a s IH]; intros n Hn; cbn in *; [lia|].
  destruct n as [|n]; [eauto|]. apply IH. lia.
Qed.

Lemma size_list_to_set_le (l : list Coord) :
  size (list_to_set l : gset Coord) ≤ length l.
Proof.
  induction l as [|x l IH]; cbn [list_to_set length].
  - by rewrite size_empty.
  - rewrite size_union_alt, size_singleton.
    assert (size (list_to_set l ∖ {[x]} : gset Coord)
            ≤ size (list_to_set l : gset Coord)) as Hle
      by (apply subseteq_size; set_solver).
    lia.
Qed.

Lemma elem_of_cells (grid : list string) pos :
  pos ∈ cells_of grid ↔ in_grid grid pos.
Proof.
  unfold cells_of, in_grid. rewrite elem_of_list_to_set, list_elem_of_fmap.
  split.
  - intros ([i j] & -> & Hin).
    apply list_elem_of_In, in_prod_iff in Hin as [Hi Hj].
    apply list_elem_of_In, elem_of_seq in Hi.
    apply list_elem_of_In, elem_of_seq in Hj. simpl. lia.
  - intros [[? ?] [? ?]]. exists (Z.to_nat pos.1, Z.to_nat pos.2). split.
    + destruct pos as [r c]. simpl in *. f_equal; lia.
    + apply list_elem_of_In, in_prod_iff.
      split; apply list_elem_of_In, elem_of_seq; simpl; lia.
Qed.

Lemma size_cells (grid : list string) :
  size (cells_of grid) ≤ length grid * Z.to_nat (width_of grid).
Proof.
  unfold cells_of. etrans; [apply size_list_to_set_le|].
  by rewrite length_fmap, length_prod, !length_seq.
Qed.

Lemma unseen_insert (grid : list string) (seen : gset Coord) pos :
  in_grid grid pos → pos ∉ seen →
  size (cells_of grid ∖ ({[pos]} ∪ seen)) + 1 = size (cells_of grid ∖ seen).
Proof.
  intros Hin Hout.
  assert (cells_of grid ∖ seen
          = {[pos]} ∪ (cells_of grid ∖ ({[pos]} ∪ seen))) as ->.
  { apply set_eq. intros x.
    rewrite elem_of_union, !elem_of_difference, elem_of_union,
      elem_of_singleton.
    split.
    - intros [Hx Hs]. destruct (decide (x = pos)); [by left|right].
      split; [done|]. by intros [?|?].
    - intros [->|[Hx Hn]].
      + split; [by apply elem_of_cells|done].
      + split; [done|]. intros ?. apply Hn. by right. }
  pose proof (size_union ({[pos]} : gset Coord)
                (cells_of grid ∖ ({[pos]} ∪ seen))) as Hsize.
  rewrite Hsize, size_singleton by set_solver. lia.
Qed.

Section Reach.
Context (grid : list string) (home target : Coord).
Hypothesis Hrect : rectangular grid.

Lemma in_grid_get (pos : Coord) :
  in_grid grid pos → is_Some (grid_get grid pos.1 pos.2).
Proof.
  intros [[Hr1 Hr2] [Hc1 Hc2]]. unfold grid_get.
  destruct (lookup_lt_is_Some_2 grid (Z.to_nat pos.1)) as [row Hrow]; [lia|].
  rewrite Hrow. simpl. apply string_get_lt.
  eapply Forall_forall in Hrect; [|by eapply list_elem_of_lookup_2].
  simpl in Hrect. lia.
Qed.

Lemma step_closed_mono (seen seen' : gset Coord) (pos : Coord)
    (dv : Z * Z) :
  seen ⊆ seen' →
  step_closed grid target seen pos dv → step_closed grid target seen' pos dv.
Proof.
  intros Hsub Hc Hin. destruct (Hc Hin) as [Hne Hp]. split; [done|].
  intros Hpass. by apply Hsub, Hp.
Qed.

Lemma scan_post_skip (pos : Coord) (dv : Z * Z) (rest : list (Z * Z))
    (seen : gset Coord) (Q : list Coord) (out : scan_out) :
  step_closed grid target seen pos dv →
  scan_post grid target pos rest seen Q out →
  scan_post grid target pos (dv :: rest) seen Q out.
Proof.
  intros Hdv. destruct out as [| |seen' Q']; simpl; [|done|].
  - intros (dv' & Hin & H). exists dv'. split; [by right|done].
  - intros (Hsub & Hq1 & Hq2 & Hs & Hcl & Hm). split_and!; try done.
    + intros x Hx.
      destruct (Hs x Hx) as [?|(HxQ & dv' & Hin' & Heq & Hp)]; [by left|].
      right. split; [done|]. exists dv'. split; [by right|done].
    + intros dv' [->|Hin']%elem_of_cons;
        [by eapply step_closed_mono|by apply Hcl].
Qed.

Lemma scan_post_add (pos : Coord) (dv : Z * Z) (rest : list (Z * Z))
    (seen : gset Coord) (Q : list Coord) (out : scan_out) :
  in_grid grid (shift pos dv) → shift pos dv ≠ target →
  shift pos dv ∉ seen → passable grid (shift pos dv) →
  scan_post grid target pos rest ({[shift pos dv]} ∪ seen)
    (Q ++ [shift pos dv]) out →
  scan_post grid target pos (dv :: rest) seen Q out.
Proof.
  intros Hin Hne Hnew Hpass. destruct out as [| |seen' Q']; simpl; [|done|].
  - intros (dv' & Hin' & H). exists dv'. split; [by right|done].
  - intros (Hsub & Hq1 & Hq2 & Hs & Hcl & Hm). split_and!.
    + set_solver.
    + intros x Hx. apply Hq1, elem_of_app. by left.
    + intros x Hx.
      destruct (Hq2 x Hx) as [[?|Hx0]%elem_of_app|?]; [by left| |by right].
      apply list_elem_of_singleton in Hx0 as ->. right. set_solver.
    + intros x Hx.
      destruct (Hs x Hx) as [[Hx0|?]%elem_of_union
                            |(HxQ & dv' & Hin' & Heq & Hp)].
      * apply elem_of_singleton in Hx0 as ->. right. split.
        -- apply Hq1, elem_of_app. right. by apply list_elem_of_singleton.
        -- exists dv. split; [left|done].
      * by left.
      * right. split; [done|]. exists dv'. split; [by right|done].
    + intros dv' [->|Hin']%elem_of_cons; [|by apply Hcl].
      intros _. split; [done|]. intros _. set_solver.
    + rewrite Hm, length_app. simpl.
      rewrite <-(unseen_insert grid seen (shift pos dv)) by done. lia.
Qed.

Lemma scan_spec (r c : Z) (steps : list (Z * Z)) (seen : gset Coord)
    (Q : list Coord) :
  scan_post grid target (r, c) steps seen Q
    (scan grid (Z.of_nat (length grid)) (width_of grid) target r c steps
       seen Q).
Proof.
  revert seen Q. induction steps as [|[dr dc] rest IH]; intros seen Q.
  { simpl. split_and!; [done|done|by left|by left| |done].
    intros dv Hdv. by apply elem_of_nil in Hdv. }
  cbn [scan].
  change ((r + dr)%Z, (c + dc)%Z) with (shift (r, c) (dr, dc)).
  case_decide as Hin.
  - case_decide as Ht.
    + exists (dr, dc). split; [left|]. split; [exact Hin|done].
    + case_decide as Hseen.
      * apply scan_post_skip; [|apply IH]. intros _. by split.
      * destruct (grid_get grid (r + dr) (c + dc)) as [ch|] eqn:Hget.
        -- case_decide as HX.
           ++ apply scan_post_skip; [|apply IH]. intros _. split; [done|].
              intros (_ & ch' & Hget' & Hch'). simpl in Hget'. congruence.
           ++ apply scan_post_add; [exact Hin|done|done| |apply IH].
              split; [exact Hin|]. by exists ch.
        -- destruct (in_grid_get (shift (r, c) (dr, dc)) Hin) as [ch Hch].
           simpl in Hch. congruence.
  - apply scan_post_skip; [|apply IH]. intros Hin'. by destruct Hin.
Qed.

Lemma linked_seen_closed (seen : gset Coord) :
  home ∈ seen →
  (∀ x, x ∈ seen → closed grid target seen x) →
  ∀ pos, linked grid home pos → pos ∈ seen.
Proof.
  intros Hh Hcl pos Hl. induction Hl as [|pos dv Hl IH Hdv Hp]; [done|].
  destruct (Hcl pos IH dv Hdv) as [_ H]; [apply Hp|]. by apply H.
Qed.

Lemma bfs_spec (fuel : nat) (seen : gset Coord) (Q : list Coord) :
  home ∈ seen →
  (∀ x, x ∈ Q → x ∈ seen) →
  (∀ x, x ∈ seen → linked grid home x) →
  (∀ x, x ∈ seen → x ∈ Q ∨ closed grid target seen x) →
  size (cells_of grid ∖ seen) + length Q < fuel →
  ∃ found,
    bfs fuel grid (Z.of_nat (length grid)) (width_of grid) target seen Q
    = Reached found
    ∧ (found = true ↔ next_to_linked grid home target).
Proof.
  revert seen Q.
  induction fuel as [|fuel IH]; intros seen Q Hhome HQ Hlinked Hclosed Hm;
    [lia|].
  destruct Q as [|[r c] Q'].
  - exists false. split; [done|]. split; [done|].
    intros (Hin & pos & dv & Hl & Hdv & Heq).
    assert (Hall : ∀ x, x ∈ seen → closed grid target seen x).
    { intros x Hx. destruct (Hclosed x Hx) as [Hnil|]; [|done].
      by apply elem_of_nil in Hnil. }
    assert (Hpos : pos ∈ seen) by by eapply linked_seen_closed.
    destruct (Hall pos Hpos dv Hdv) as [Hne _]; [by rewrite Heq|]. done.
  - cbn [bfs]. pose proof (scan_spec r c STEPS seen Q') as Hscan.
    destruct (scan grid (Z.of_nat (length grid)) (width_of grid) target r c
                STEPS seen Q') as [| |seen' Q''].
    + exists true. split; [done|]. split; [|done]. intros _.
      destruct Hscan as (dv & Hdv & Hin & Heq).
      split; [by rewrite <-Heq|]. exists (r, c), dv.
      split_and!; [|done|done]. apply Hlinked, HQ. left.
    + done.
    + destruct Hscan as (Hsub & Hq1 & Hq2 & Hs & Hcl & Hmeasure).
      apply IH.
      * by apply Hsub.
      * intros x Hx. destruct (Hq2 x Hx) as [?|?]; [|done].
        apply Hsub, HQ. by right.
      * intros x Hx.
        destruct (Hs x Hx) as [?|(_ & dv & Hdv & -> & Hp)];
          [by apply Hlinked|].
        apply linked_step; [|done|done]. apply Hlinked, HQ. left.
      * intros x Hx. destruct (Hs x Hx) as [Hold|(HxQ & _)]; [|by left].
        destruct (Hclosed x Hold) as [[->|HxQ]%elem_of_cons|Hc].
        -- right. exact Hcl.
        -- left. by apply Hq1.
        -- right. intros dv Hdv. eapply step_closed_mono; [done|].
           by apply Hc.
      * simpl in Hm. lia.
Qed.
End Reach.

(** X11.  On a grid whose rows are as long as the first, [reachable]
    raises nothing and answers [True] exactly when the target is inside
    the grid and one step away from a cell joined to home by steps through
    cells that are inside the grid and not ['X'].  So a target outside the
    grid is never reachable, and an obstructed target next to such a cell
    is.  The loop takes at most one turn per cell of the grid, and one
    more. *)
Theorem reachable_iff_next_to_linked (grid : list string)
    (home target : Coord) (fuel : nat) :
  rectangular grid →
  length grid * Z.to_nat (width_of grid) + 1 < fuel →
  ∃ found,
    reachable fuel home target grid = Reached found
    ∧ (found = true ↔ next_to_linked grid home target).
Proof.
  intros Hrect Hfuel. unfold reachable.
  apply (bfs_spec grid home target Hrect).
  - set_solver.
  - intros x Hx. apply list_elem_of_singleton in Hx. set_solver.
  - intros x ->%elem_of_singleton. constructor.
  - intros x ->%elem_of_singleton. left. left.
  - pose proof (size_cells grid).
    assert (size (cells_of grid ∖ {[home]}) ≤ size (cells_of grid))
      by (apply subseteq_size; set_solver).
    simpl. lia.
Qed.

Lemma reachable_iff_next_to_linked_witness :
  rectangular bottleneck_maze
  ∧ length bottleneck_maze * Z.to_nat (width_of bottleneck_maze) + 1 < 50
  ∧ ∃ found,
      reachable 50 (0, 0)%Z (4, 8)%Z bottleneck_maze = Reached found
      ∧ (found = true ↔ next_to_linked bottleneck_maze (0, 0)%Z (4, 8)%Z).
Proof.
  assert (H : rectangular bottleneck_maze) by (repeat constructor).
  assert (Hf : length bottleneck_maze
               * Z.to_nat (width_of bottleneck_maze) + 1 < 50)
    by (vm_compute; lia).
  split; [exact H|]. split; [exact Hf|].
  exact (reachable_iff_next_to_linked bottleneck_maze (0, 0)%Z (4, 8)%Z 50
           H Hf).
Defined.

(** ** Mapping without a battery limit *)

Lemma size_difference_insert (F seen : gset Coord) (pos : Coord) :
  pos ∈ F → pos ∉ seen →
  size (F ∖ ({[pos]} ∪ seen)) + 1 = size (F ∖ seen).
Proof.
  intros Hin Hout.
  assert (F ∖ seen = {[pos]} ∪ (F ∖ ({[pos]} ∪ seen))) as ->.
  { apply set_eq. intros x.
    rewrite elem_of_union, !elem_of_difference, elem_of_union,
      elem_of_singleton.
    split.
    - intros [Hx Hs]. destruct (decide (x = pos)); [by left|right].
      split; [done|]. by intros [?|?].
    - intros [->|[Hx Hn]]; [done|].
      split; [done|]. intros ?. apply Hn. by right. }
  pose proof (size_union ({[pos]} : gset Coord)
                (F ∖ ({[pos]} ∪ seen))) as Hsize.
  rewrite Hsize, size_singleton by set_solver. lia.
Qed.

Lemma size_difference_mono (F seen seen' : gset Coord) :
  seen ⊆ seen' → size (F ∖ seen') ≤ size (F ∖ seen).
Proof. intros Hsub. apply subseteq_size. set_solver. Qed.

Section Dfs_proofs.
Context {R : Type} (ops : RoverOps R) (place : R → Coord).
Context (free : Coord → Prop) (symbol : Coord → string).
Context (F : gset Coord) (num_rows num_cols : Z) (start : Coord).
Hypothesis Hshort : never_short ops place free.
Hypothesis Hsymbol : ∀ x, get_current_location ops x = symbol (place x).
Hypothesis Hfinite : ∀ p, free p → p ∈ F.

Lemma ext_refl (s : MapSurface.state R) : ext free s s.
Proof. by split. Qed.

Lemma ext_same (s s' : MapSurface.state R) :
  MapSurface.visited s' = MapSurface.visited s →
  MapSurface.explored s' = MapSurface.explored s → ext free s s'.
Proof. intros Hv He. split; [by rewrite Hv|]. intros p v _. by rewrite He. Qed.

Lemma ext_trans (s1 s2 s3 : MapSurface.state R) :
  ext free s1 s2 → ext free s2 s3 → ext free s1 s3.
Proof.
  intros [Hv1 He1] [Hv2 He2]. split; [set_solver|].
  intros p v Hp Hv. by apply He2, He1.
Qed.

Lemma done_at_ext (s s' : MapSurface.state R) q d :
  ext free s s' →
  done_at free num_rows num_cols s q d →
  done_at free num_rows num_cols s' q d.
Proof.
  intros [Hv He] [Hfree Hwall]. split.
  - intros Hp. by apply Hv, Hfree.
  - intros Hp Hin. by apply He, Hwall.
Qed.

Lemma settled_ext (s s' : MapSurface.state R) (stack : Coord → Prop) :
  MapSurface.visited s' = MapSurface.visited s → ext free s s' →
  settled free num_rows num_cols s stack →
  settled free num_rows num_cols s' stack.
Proof.
  intros Hsame Hext Hs q Hq. rewrite Hsame in Hq.
  destruct (Hs q Hq) as [?|Hdone]; [by left|right].
  intros d. by eapply done_at_ext.
Qed.

(** The loop over the directions, for any [call] that behaves as [dfs]
    with [bound] frames left. *)
Lemma dfs_dirs_spec (bound : nat)
    (call : Z → Z → MapSurface.state R
            → MapSurface.answer (MapSurface.state R)) :
  (∀ nr nc s,
     place (MapSurface.rover s) = (nr, nc) → free (nr, nc) →
     joined free start (nr, nc) →
     good free symbol num_rows num_cols start s →
     size (F ∖ MapSurface.visited s) < bound →
     ∃ s', call nr nc s = MapSurface.Return s'
           ∧ dfs_post place free symbol num_rows num_cols start (nr, nc)
               s s') →
  ∀ (dirs : list Dir) (r c : Z) (s : MapSurface.state R),
    place (MapSurface.rover s) = (r, c) →
    (r, c) ∈ MapSurface.visited s →
    good free symbol num_rows num_cols start s →
    size (F ∖ MapSurface.visited s) < bound →
    ∃ s',
      MapSurface.dfs_dirs ops num_rows num_cols call r c
        ((λ d, (d, delta d)) <$> dirs) s = MapSurface.Return s'
      ∧ place (MapSurface.rover s') = (r, c)
      ∧ ext free s s'
      ∧ good free symbol num_rows num_cols start s'
      ∧ (∀ stack, settled free num_rows num_cols s stack →
           settled free num_rows num_cols s' stack)
      ∧ ∀ d, d ∈ dirs → done_at free num_rows num_cols s' (r, c) d.
Proof.
  intros Hcall dirs r c.
  induction dirs as [|d dirs IH]; intros s Hplace Hhere Hgood Hsize.
  { exists s. split_and!; [done|done|apply ext_refl|done|done|].
    intros d Hd. by apply elem_of_nil in Hd. }
  rewrite fmap_cons. cbn [MapSurface.dfs_dirs].
  destruct (delta d) as [dr dc] eqn:Hdelta.
  assert (Hnbr : shift (r, c) (delta d) = ((r + dr)%Z, (c + dc)%Z))
    by by rewrite Hdelta.
  destruct (Hshort d (MapSurface.rover s)) as (Hgo & Hthere & Hstay).
  rewrite Hplace, Hnbr in Hgo, Hthere.
  destruct (move ops d (MapSurface.rover s)) as [[success reason] rover1]
    eqn:Hmove.
  cbn [fst snd] in Hgo, Hthere, Hstay.
  destruct Hgood as [Hvis Hrest].
  destruct (Hvis _ Hhere) as (Hfree_here & Hjoined_here & _).
  destruct success.
  - destruct (Hthere eq_refl) as [Hplace1 Hfree1].
    destruct (Hcall (r + dr)%Z (c + dc)%Z
                (MapSurface.State rover1 (MapSurface.explored s)
                   (MapSurface.visited s)))
      as (s1 & -> & Hplace2 & Hext1 & Hin1 & Hgood1 & Hsettled1);
      [done|done| |done|done|].
    { rewrite <-Hnbr. by apply joined_step; [|rewrite Hnbr]. }
    cbn [mbind MapSurface.answer_bind].
    set (s2 := MapSurface.State
                 (move ops (OPPOSITE d) (MapSurface.rover s1)).2
                 (MapSurface.explored s1) (MapSurface.visited s1)).
    assert (Hback : place (MapSurface.rover s2) = (r, c)).
    { destruct (Hshort (OPPOSITE d) (MapSurface.rover s1))
        as (Hgo' & Hthere' & _).
      rewrite Hplace2, <-Hnbr, shift_back in Hgo', Hthere'.
      by apply Hthere', Hgo'. }
    destruct (IH s2) as (s3 & Hrun & Hplace3 & Hext3 & Hgood3 & Hsettled3
                         & Hdone3).
    + done.
    + by apply Hext1.
    + done.
    + pose proof (size_difference_mono F (MapSurface.visited s)
                    (MapSurface.visited s1) (proj1 Hext1)). simpl. lia.
    + exists s3. split; [done|]. split; [done|].
      assert (Hext : ext free s s3).
      { eapply ext_trans; [exact Hext1|]. exact Hext3. }
      split; [done|]. split; [done|]. split.
      * intros stack Hs. apply Hsettled3.
        eapply (settled_ext s1 s2); [done|by apply ext_same|].
        apply Hsettled1.
        eapply (settled_ext s); [done|by apply ext_same|done].
      * intros d' [->|Hd']%elem_of_cons; [|by apply Hdone3].
        eapply (done_at_ext s2); [done|]. split.
        -- intros _. by rewrite Hnbr.
        -- intros Hwall. destruct Hwall. by rewrite Hnbr.
  - assert (Hwall : ¬ free (r + dr, c + dc)%Z).
    { intros Hf. by specialize (Hgo Hf). }
    specialize (Hstay eq_refl). rewrite Hplace in Hstay.
    assert (Hout : (r + dr, c + dc)%Z ∉ MapSurface.visited s).
    { intros Hin. by destruct (Hvis _ Hin) as [? _]. }
    destruct (MapSurface.in_bounds num_rows num_cols (r + dr) (c + dc)
              && negb (bool_decide
                         (is_Some (MapSurface.explored s
                                   !! ((r + dr)%Z, (c + dc)%Z)))))
      eqn:Htest.
    + apply andb_true_iff in Htest as [Hin Hnew].
      apply negb_true_iff, bool_decide_eq_false in Hnew.
      rewrite <-eq_None_not_Some in Hnew.
      set (s2 := MapSurface.State rover1
                   (<[((r + dr)%Z, (c + dc)%Z) := "X"]>
                      (MapSurface.explored s))
                   (MapSurface.visited s)).
      assert (Hext2 : ext free s s2).
      { split; [done|]. intros p v Hp Hv. simpl.
        rewrite lookup_insert_ne; [done|]. intros <-. congruence. }
      destruct (IH s2)
        as (s3 & Hrun & Hplace3 & Hext3 & Hgood3 & Hsettled3 & Hdone3);
        [done|done| |done|].
      { split.
        - intros p Hp. destruct (Hvis p Hp) as (? & ? & ?).
          split_and!; [done|done|]. simpl.
          rewrite lookup_insert_ne; [done|]. by intros <-.
        - intros p v Hp. simpl.
          destruct (decide (p = ((r + dr)%Z, (c + dc)%Z))) as [->|Hne].
          + rewrite lookup_insert_eq. intros [= <-].
            split_and!; [done|done|done|].
            exists (r, c), d. by rewrite Hnbr.
          + rewrite lookup_insert_ne by done. by apply Hrest. }
      exists s3. split; [done|]. split; [done|].
      split; [by eapply ext_trans|]. split; [done|]. split.
      * intros stack Hs. apply Hsettled3. by eapply (settled_ext s).
      * intros d' [->|Hd']%elem_of_cons; [|by apply Hdone3].
        eapply (done_at_ext s2); [done|]. unfold done_at. rewrite Hnbr. split.
        -- intros ?. done.
        -- intros _ _. simpl. apply lookup_insert_eq.
    + set (s2 := MapSurface.State rover1 (MapSurface.explored s)
                   (MapSurface.visited s)).
      destruct (IH s2)
        as (s3 & Hrun & Hplace3 & Hext3 & Hgood3 & Hsettled3 & Hdone3);
        [done|done|done|done|].
      exists s3. split; [done|]. split; [done|].
      split; [done|]. split; [done|]. split.
      * intros stack Hs. apply Hsettled3.
        eapply (settled_ext s); [done|by apply ext_same|done].
      * intros d' [->|Hd']%elem_of_cons; [|by apply Hdone3].
        eapply (done_at_ext s2); [done|]. unfold done_at. rewrite Hnbr. split.
        -- intros ?. done.
        -- intros _ Hin. simpl in Hin. rewrite Hin in Htest.
           apply negb_false_iff, bool_decide_eq_true in Htest as [v Hv].
           simpl. rewrite Hv. f_equal.
           by destruct (Hrest _ v Hout Hv) as [-> _].
Qed.

Lemma dfs_spec (depth : nat) (r c : Z) (s : MapSurface.state R) :
  place (MapSurface.rover s) = (r, c) → free (r, c) →
  joined free start (r, c) →
  good free symbol num_rows num_cols start s →
  size (F ∖ MapSurface.visited s) < depth →
  ∃ s', MapSurface.dfs ops num_rows num_cols depth r c s
        = MapSurface.Return s'
        ∧ dfs_post place free symbol num_rows num_cols start (r, c) s s'.
Proof.
  revert r c s.
  induction depth as [|depth IH]; intros r c s Hplace Hfree Hjoined Hgood
    Hsize; [lia|].
  cbn [MapSurface.dfs]. case_decide as Hseen.
  { exists s. split; [done|]. split_and!; [done|apply ext_refl|done..]. }
  set (s1 := MapSurface.State (MapSurface.rover s)
               (<[(r, c) := get_current_location ops (MapSurface.rover s)]>
                  (MapSurface.explored s))
               ({[(r, c)]} ∪ MapSurface.visited s)).
  assert (Hext1 : ext free s s1).
  { split; [set_solver|]. intros p v Hp Hv. simpl.
    rewrite lookup_insert_ne; [done|]. by intros <-. }
  destruct Hgood as [Hvis Hrest].
  rewrite DIRS_delta.
  destruct (dfs_dirs_spec depth
              (MapSurface.dfs ops num_rows num_cols depth) IH
              [North; South; East; West] r c s1)
    as (s' & Hrun & Hplace' & Hext' & Hgood' & Hsettled' & Hdone').
  - done.
  - change ((r, c) ∈ {[(r, c)]} ∪ MapSurface.visited s). set_solver.
  - split.
    + intros p Hp. change (p ∈ {[(r, c)]} ∪ MapSurface.visited s) in Hp.
      apply elem_of_union in Hp as [Hp|Hp].
      * apply elem_of_singleton in Hp as ->. split_and!; [done|done|].
        simpl. by rewrite lookup_insert_eq, Hsymbol, Hplace.
      * destruct (Hvis p Hp) as (? & ? & ?). split_and!; [done|done|].
        simpl. destruct (decide (p = (r, c))) as [->|Hne]; [done|].
        by rewrite lookup_insert_ne.
    + intros p v Hp. change (p ∉ {[(r, c)]} ∪ MapSurface.visited s) in Hp.
      simpl. intros Hv.
      assert (Hne : p ≠ (r, c)) by set_solver.
      rewrite lookup_insert_ne in Hv by done.
      destruct (Hrest p v) as (? & ? & ? & q & d & ? & ?);
        [set_solver|done|].
      split_and!; [done..|]. exists q, d. split; [|done].
      change (q ∈ {[(r, c)]} ∪ MapSurface.visited s). set_solver.
  - pose proof (size_difference_insert F (MapSurface.visited s) (r, c)
                  (Hfinite _ Hfree) Hseen). simpl. lia.
  - exists s'. split; [done|]. split; [done|].
    split; [by eapply ext_trans|]. split.
    { apply Hext'. change ((r, c) ∈ {[(r, c)]} ∪ MapSurface.visited s).
      set_solver. }
    split; [done|]. intros stack Hs.
    assert (Hs1 : settled free num_rows num_cols s1
                    (λ q, stack q ∨ q = (r, c))).
    { intros q Hq. change (q ∈ {[(r, c)]} ∪ MapSurface.visited s) in Hq.
      apply elem_of_union in Hq as [Hq|Hq].
      - apply elem_of_singleton in Hq. left. by right.
      - destruct (Hs q Hq) as [?|Hd]; [left; by left|right].
        intros d. by eapply done_at_ext. }
    intros q Hq. destruct (Hsettled' _ Hs1 q Hq) as [[?| ->]|?].
    + by left.
    + right. intros d. apply Hdone'. destruct d; set_solver.
    + by right.
Qed.

Lemma joined_visited (s : MapSurface.state R) :
  start ∈ MapSurface.visited s →
  settled free num_rows num_cols s (λ _, False) →
  ∀ p, joined free start p → p ∈ MapSurface.visited s.
Proof.
  intros Hstart Hs p Hp. induction Hp as [|q d Hq IH Hfree]; [done|].
  destruct (Hs q IH) as [[]|Hdone]. by apply (Hdone d).
Qed.

Lemma visited_iff_joined (s : MapSurface.state R) :
  start ∈ MapSurface.visited s →
  good free symbol num_rows num_cols start s →
  settled free num_rows num_cols s (λ _, False) →
  ∀ p, p ∈ MapSurface.visited s ↔ joined free start p.
Proof.
  intros Hstart [Hvis _] Hs p. split.
  - intros Hp. by destruct (Hvis p Hp) as (_ & ? & _).
  - by apply joined_visited.
Qed.

Lemma unvisited_entries (s : MapSurface.state R) :
  good free symbol num_rows num_cols start s →
  settled free num_rows num_cols s (λ _, False) →
  ∀ p v, p ∉ MapSurface.visited s →
    MapSurface.explored s !! p = Some v
    ↔ v = "X"
      ∧ MapSurface.in_bounds num_rows num_cols p.1 p.2 = true
      ∧ ¬ free p
      ∧ ∃ q d, q ∈ MapSurface.visited s ∧ p = shift q (delta d).
Proof.
  intros [_ Hrest] Hs p v Hp. split; [by apply Hrest|].
  intros (-> & Hbounds & Hwall & q & d & Hq & ->).
  destruct (Hs q Hq) as [[]|Hdone]. destruct (Hdone d) as [_ HX].
  by apply HX.
Qed.

(** [dfs] from the start, with nothing visited. *)
Lemma dfs_top (depth : nat) (rover0 : R) :
  place rover0 = start → free start → size F < depth →
  ∃ s,
    MapSurface.dfs ops num_rows num_cols depth start.1 start.2
      (MapSurface.State rover0 ∅ ∅) = MapSurface.Return s
    ∧ place (MapSurface.rover s) = start
    ∧ start ∈ MapSurface.visited s
    ∧ good free symbol num_rows num_cols start s
    ∧ settled free num_rows num_cols s (λ _, False).
Proof.
  intros Hplace Hfree Hdepth.
  assert (Hstart : (start.1, start.2) = start) by by destruct start.
  destruct (dfs_spec depth start.1 start.2 (MapSurface.State rover0 ∅ ∅))
    as (s & Hrun & Hback & Hext & Hin & Hgood & Hsettled).
  - by rewrite Hstart.
  - by rewrite Hstart.
  - rewrite Hstart. constructor.
  - split.
    + intros p Hp. by apply elem_of_empty in Hp.
    + intros p v _ Hv. simpl in Hv. by rewrite lookup_empty in Hv.
  - simpl. assert (size (F ∖ ∅) ≤ size F); [|lia].
    apply subseteq_size. set_solver.
  - rewrite Hstart in Hback, Hin. exists s. split_and!; [done..|].
    apply Hsettled. intros q Hq. by apply elem_of_empty in Hq.
Qed.
End Dfs_proofs.

(** X12.  [dfs] of [map_surface], run from the cell the rover stands on
    with nothing visited, with a rover that is never short of battery (a
    move succeeds exactly when its destination is free, and a refused move
    leaves the rover in place) on a planet with finitely many free cells,
    and with more frames than there are free cells: it raises no
    [RecursionError], brings the rover back to the cell it started on,
    visits exactly the cells joined to that cell through free cells, maps
    every visited cell with the symbol read there, and maps nothing else
    but ['X'] on the cells inside the bounds that are not free and lie
    next to a visited cell, all of which it maps. *)
Theorem dfs_maps_joined_cells {R : Type} (ops : RoverOps R)
    (place : R → Coord) (free : Coord → Prop) (symbol : Coord → string)
    (F : gset Coord) (num_rows num_cols : Z) (depth : nat) (r c : Z)
    (rover0 : R) :
  never_short ops place free →
  (∀ x, get_current_location ops x = symbol (place x)) →
  (∀ p, free p → p ∈ F) →
  place rover0 = (r, c) → free (r, c) → size F < depth →
  ∃ s,
    MapSurface.dfs ops num_rows num_cols depth r c
      (MapSurface.State rover0 ∅ ∅) = MapSurface.Return s
    ∧ place (MapSurface.rover s) = (r, c)
    ∧ (∀ p, p ∈ MapSurface.visited s ↔ joined free (r, c) p)
    ∧ (∀ p, p ∈ MapSurface.visited s →
         MapSurface.explored s !! p = Some (symbol p))
    ∧ (∀ p v, p ∉ MapSurface.visited s →
         MapSurface.explored s !! p = Some v
         ↔ v = "X"
           ∧ MapSurface.in_bounds num_rows num_cols p.1 p.2 = true
           ∧ ¬ free p
           ∧ ∃ q d, q ∈ MapSurface.visited s ∧ p = shift q (delta d)).
Proof.
  intros Hshort Hsymbol Hfinite Hplace Hfree Hdepth.
  destruct (dfs_top ops place free symbol F num_rows num_cols (r, c)
              Hshort Hsymbol Hfinite depth rover0 Hplace Hfree Hdepth)
    as (s & Hrun & Hback & Hin & Hgood & Hs).
  exists s. split; [done|]. split; [done|]. split_and!.
  - by eapply visited_iff_joined.
  - intros p Hp. destruct Hgood as [Hvis _].
    by destruct (Hvis p Hp) as (_ & _ & ?).
  - by eapply unvisited_entries.
Qed.

Lemma string_get_Some_lt (s : string) n ch :
  String.get n s = Some ch → n < String.length s.
Proof.
  revert n. induction s as [|a s IH]; intros [|n] Hget; simpl in *;
    try done; try lia.
  apply IH in Hget. lia.
Qed.

Lemma roaming_free_cells (planet : list string) (p : Coord) :
  rectangular planet → RoverModel.find_home planet 0%Z = (0, 0)%Z →
  roaming_free planet p → p ∈ cells_of planet.
Proof.
  intros Hrect Hhome (ch & Hcell & _). apply elem_of_cells.
  unfold roaming_cell in Hcell. rewrite Hhome in Hcell.
  unfold RoverModel.cell, shift in Hcell. simpl in Hcell.
  rewrite !Z.add_0_l in Hcell.
  destruct (decide (0 ≤ p.1 ∧ 0 ≤ p.2)%Z) as [Hpos|]; [|done].
  destruct (planet !! Z.to_nat p.1) as [row|] eqn:Hrow; [|done].
  simpl in Hcell. apply string_get_Some_lt in Hcell.
  pose proof (lookup_lt_Some _ _ _ Hrow) as Hlt.
  eapply Forall_forall in Hrect; [|by eapply list_elem_of_lookup_2].
  simpl in Hrect. unfold in_grid. lia.
Qed.

Lemma dfs_maps_joined_cells_witness :
  never_short (roaming_ops bottleneck_maze) id (roaming_free bottleneck_maze)
  ∧ (∀ x, get_current_location (roaming_ops bottleneck_maze) x
          = get_current_location (roaming_ops bottleneck_maze) (id x))
  ∧ (∀ p, roaming_free bottleneck_maze p → p ∈ cells_of bottleneck_maze)
  ∧ id home = (0, 0)%Z
  ∧ roaming_free bottleneck_maze (0, 0)%Z
  ∧ size (cells_of bottleneck_maze) < 46
  ∧ ∃ s,
      MapSurface.dfs (roaming_ops bottleneck_maze) 5 9 46 0 0
        (MapSurface.State home ∅ ∅) = MapSurface.Return s
      ∧ id (MapSurface.rover s) = (0, 0)%Z
      ∧ (∀ p, p ∈ MapSurface.visited s
              ↔ joined (roaming_free bottleneck_maze) (0, 0)%Z p)
      ∧ (∀ p, p ∈ MapSurface.visited s →
           MapSurface.explored s !! p
           = Some (get_current_location (roaming_ops bottleneck_maze) p))
      ∧ (∀ p v, p ∉ MapSurface.visited s →
           MapSurface.explored s !! p = Some v
           ↔ v = "X"
             ∧ MapSurface.in_bounds 5 9 p.1 p.2 = true
             ∧ ¬ roaming_free bottleneck_maze p
             ∧ ∃ q d, q ∈ MapSurface.visited s ∧ p = shift q (delta d)).
Proof.
  assert (H1 : never_short (roaming_ops bottleneck_maze) id
                 (roaming_free bottleneck_maze))
    by apply roaming_never_short.
  assert (H2 : ∀ x, get_current_location (roaming_ops bottleneck_maze) x
                    = get_current_location (roaming_ops bottleneck_maze)
                        (id x)) by reflexivity.
  assert (H3 : ∀ p, roaming_free bottleneck_maze p
                    → p ∈ cells_of bottleneck_maze).
  { intros p. apply roaming_free_cells; [repeat constructor|reflexivity]. }
  assert (H4 : id home = (0, 0)%Z) by reflexivity.
  assert (H5 : roaming_free bottleneck_maze (0, 0)%Z).
  { exists "H"%char. split; [reflexivity|discriminate]. }
  assert (H6 : size (cells_of bottleneck_maze) < 46).
  { eapply Nat.le_lt_trans; [apply size_cells|]. vm_compute. lia. }
  split; [exact H1|]. split; [exact H2|]. split; [exact H3|].
  split; [exact H4|]. split; [exact H5|]. split; [exact H6|].
  exact (dfs_maps_joined_cells (roaming_ops bottleneck_maze) id
           (roaming_free bottleneck_maze)
           (get_current_location (roaming_ops bottleneck_maze))
           (cells_of bottleneck_maze) 5 9 46 0 0 home H1 H2 H3 H4 H5 H6).
Defined.

(** ** The start of the mapping *)

Lemma grid_get_nat (grid : list string) (i j : nat) :
  grid_get grid (Z.of_nat i) (Z.of_nat j)
  = (row ← grid !! i; String.get j row).
Proof. unfold grid_get. by rewrite !Nat2Z.id. Qed.

Lemma find_in_cols_spec (row : string) (r : Z) (n c : nat) :
  c + n ≤ String.length row →
  match MapSurface.find_in_cols row r c n with
  | MapSurface.Return (Some pos) =>
      ∃ j, pos = (r, Z.of_nat j) ∧ c ≤ j < c + n
           ∧ String.get j row = Some "H"%char
           ∧ ∀ j', c ≤ j' < j → String.get j' row ≠ Some "H"%char
  | MapSurface.Return None =>
      ∀ j, c ≤ j < c + n → String.get j row ≠ Some "H"%char
  | MapSurface.Raised _ => False
  end.
Proof.
  revert c. induction n as [|n IH]; intros c Hlen;
    cbn [MapSurface.find_in_cols].
  { intros j Hj. lia. }
  destruct (string_get_lt row c) as [ch Hch]; [lia|]. rewrite Hch.
  case_decide as HH.
  - subst ch. exists c. split; [done|]. split; [lia|]. split; [done|].
    intros j' Hj'. lia.
  - specialize (IH (S c) ltac:(lia)).
    destruct (MapSurface.find_in_cols row r (S c) n) as [[pos|]|e]; [| |done].
    + destruct IH as (j & Hpos & Hrange & Hget & Hbefore).
      exists j. split; [done|]. split; [lia|]. split; [done|].
      intros j' Hj'.
      destruct (decide (j' = c)) as [->|Hne]; [rewrite Hch; congruence|].
      apply Hbefore. lia.
    + intros j Hj.
      destruct (decide (j = c)) as [->|Hne]; [rewrite Hch; congruence|].
      apply IH. lia.
Qed.

Lemma find_start_spec (rows : list string) (r0 : Z) (n : nat) :
  Forall (λ row, n ≤ String.length row) rows →
  match MapSurface.find_start rows r0 n with
  | MapSurface.Return pos =>
      ∃ i j,
        pos = ((r0 + Z.of_nat i)%Z, Z.of_nat j) ∧ j < n
        ∧ grid_get rows (Z.of_nat i) (Z.of_nat j) = Some "H"%char
        ∧ ∀ i' j', j' < n → i' < i ∨ (i' = i ∧ j' < j) →
            grid_get rows (Z.of_nat i') (Z.of_nat j') ≠ Some "H"%char
  | MapSurface.Raised MapSurface.StopIteration => no_home rows n
  | MapSurface.Raised _ => False
  end.
Proof.
  revert r0. induction rows as [|row rows IH]; intros r0 Hrows;
    cbn [MapSurface.find_start].
  { intros i j _. by rewrite grid_get_nat. }
  apply Forall_cons in Hrows as [Hrow Hrows].
  pose proof (find_in_cols_spec row r0 n 0 ltac:(lia)) as Hcols.
  destruct (MapSurface.find_in_cols row r0 0 n) as [[pos|]|e]; [| |done];
    cbn [mbind MapSurface.answer_bind].
  - destruct Hcols as (j & -> & Hrange & Hget & Hbefore).
    exists 0, j. rewrite Z.add_0_r, grid_get_nat.
    split_and!; [done|lia|done|]. intros i' j' Hj' [Hi|[-> Hlt]]; [lia|].
    rewrite grid_get_nat. simpl. apply Hbefore. lia.
  - specialize (IH (r0 + 1)%Z Hrows).
    destruct (MapSurface.find_start rows (r0 + 1) n) as [pos|[]];
      [| |done|].
    + destruct IH as (i & j & -> & Hj & Hget & Hbefore).
      exists (S i), j. rewrite grid_get_nat in Hget. rewrite grid_get_nat.
      split_and!; [f_equal; lia|done|done|].
      intros i' j' Hj' Hless. rewrite grid_get_nat.
      destruct i' as [|i']; simpl.
      * apply Hcols. lia.
      * rewrite <-grid_get_nat. apply Hbefore; [done|lia].
    + done.
    + intros i j Hj. rewrite grid_get_nat. destruct i as [|i]; simpl.
      * apply Hcols. lia.
      * rewrite <-grid_get_nat. by apply IH.
Qed.

(** X13.  The search for the start in [map_surface], over [num_cols]
    columns of a grid none of whose rows is shorter than that: it raises no
    [IndexError]; it returns the first ['H'] in reading order, or raises
    [StopIteration] when there is no ['H']. *)
Theorem find_start_first_home (grid : list string) (num_cols : nat) :
  Forall (λ row, num_cols ≤ String.length row) grid →
  (∃ pos, MapSurface.find_start grid 0%Z num_cols = MapSurface.Return pos
          ∧ first_home grid num_cols pos)
  ∨ (MapSurface.find_start grid 0%Z num_cols
     = MapSurface.Raised MapSurface.StopIteration
     ∧ no_home grid num_cols).
Proof.
  intros Hrows. pose proof (find_start_spec grid 0%Z num_cols Hrows) as Hs.
  destruct (MapSurface.find_start grid 0 num_cols) as [pos|[]];
    [|done|done|].
  - left. exists pos. split; [done|].
    destruct Hs as (i & j & -> & Hrest). exists i, j.
    by rewrite Z.add_0_l.
  - by right.
Qed.

Lemma find_start_first_home_witness :
  Forall (λ row, 9 ≤ String.length row) bottleneck_maze
  ∧ ((∃ pos, MapSurface.find_start bottleneck_maze 0%Z 9
             = MapSurface.Return pos
             ∧ first_home bottleneck_maze 9 pos)
     ∨ (MapSurface.find_start bottleneck_maze 0%Z 9
        = MapSurface.Raised MapSurface.StopIteration
        ∧ no_home bottleneck_maze 9)).
Proof.
  assert (H : Forall (λ row, 9 ≤ String.length row) bottleneck_maze)
    by (repeat constructor).
  split; [exact H|]. exact (find_start_first_home bottleneck_maze 9 H).
Defined.

Lemma no_cell_in_empty_map i j x : grid_at [[]] i j = Some x → False.
Proof.
  intros (row & Hrow & Hj)%grid_at_lookup.
  destruct i as [|i]; [|done]. by injection Hrow as <-.
Qed.

(** The offsets of the window when there is a bounding box: every cell of
    the result is a cell of the box, and every entry inside the box whose
    symbol is not ['?'] is kept. *)
Lemma assembled_window_box (explored : gmap Coord string)
    (min_r max_r min_c max_c : Z) :
  bounding_box explored = Some (min_r, max_r, min_c, max_c) →
  ∃ top left : Z,
    (∀ i j x,
       grid_at (_sparse_to_dense explored) i j = Some x →
       (min_r ≤ top + Z.of_nat i ≤ max_r
        ∧ min_c ≤ left + Z.of_nat j ≤ max_c)%Z
       ∧ x = default "?"
               (explored !! ((top + Z.of_nat i)%Z, (left + Z.of_nat j)%Z)))
    ∧ (∀ r c ch,
         explored !! (r, c) = Some ch →
         (min_r ≤ r ≤ max_r ∧ min_c ≤ c ≤ max_c)%Z → ch ≠ "?" →
         cell_at (_sparse_to_dense explored) (r - top) (c - left) = Some ch).
Proof.
  intros Hbox. unfold _sparse_to_dense. rewrite Hbox.
  pose proof (dense_grid_dims explored min_r max_r min_c max_c) as Hdims.
  pose proof Hdims as [Hh Hw].
  assert (Hknown : ∀ r c ch,
            explored !! (r, c) = Some ch →
            (min_r ≤ r ≤ max_r ∧ min_c ≤ c ≤ max_c)%Z →
            grid_at (dense_grid explored (min_r, max_r, min_c, max_c))
              (Z.to_nat (r - min_r)) (Z.to_nat (c - min_c)) = Some ch).
  { intros r c ch Hch [Hr Hc].
    rewrite dense_grid_at by lia. rewrite !Z2Nat.id by lia.
    replace (min_r + (r - min_r))%Z with r by lia.
    replace (min_c + (c - min_c))%Z with c by lia. by rewrite Hch. }
  set (grid := dense_grid explored (min_r, max_r, min_c, max_c)) in *.
  set (w := Z.to_nat (max_c - min_c + 1)) in *.
  destruct (trim_rows_spec grid)
    as (top & rows & bottom & Hg & Hpop & Htop & Hbot & _ & _).
  assert (Hrow_in : ∀ i row j x,
            grid !! i = Some row → row !! j = Some x → x ≠ "?" →
            length top ≤ i ∧ rows !! (i - length top) = Some row).
  { intros i row j x Hi Hj Hx.
    pose proof (all_unknown_known row j x Hj Hx) as Hu.
    rewrite Hg in Hi. apply lookup_app_Some in Hi as [Hi|[Hge Hi]].
    { eapply Forall_lookup_1 in Htop; [|done]. simpl in Htop. congruence. }
    split; [done|]. apply lookup_app_Some in Hi as [Hi|[Hge' Hi]]; [done|].
    eapply Forall_lookup_1 in Hbot; [|done]. simpl in Hbot. congruence. }
  destruct (decide (rows = [])) as [Hnil|Hne].
  { exists 0%Z, 0%Z.
    assert (_trim_unknown_border grid = [[]]) as ->.
    { unfold _trim_unknown_border. by rewrite Hpop, Hnil. }
    split.
    - intros i j x Hx. by apply no_cell_in_empty_map in Hx.
    - intros r c ch Hch Hin Hq. pose proof (Hknown r c ch Hch Hin) as Hat.
      apply grid_at_lookup in Hat as (row & Hrow & Hj).
      destruct (Hrow_in _ _ _ _ Hrow Hj Hq) as [_ Hl].
      by rewrite Hnil in Hl. }
  destruct (trim_cut grid w Hw)
    as (left & width & Hpos & Hfit & Hout & _ & _ & ->);
    [by rewrite Hpop|].
  rewrite Hpop in *.
  exists (min_r + Z.of_nat (length top))%Z, (min_c + Z.of_nat left)%Z.
  split.
  - intros i j x Hx. apply grid_at_lookup in Hx as (row' & Hrow' & Hj).
    rewrite list_lookup_fmap in Hrow'.
    destruct (rows !! i) as [row|] eqn:Hrow; [|done]. injection Hrow' as <-.
    assert (Hlt : j < width).
    { apply lookup_lt_Some in Hj. rewrite length_take in Hj. lia. }
    rewrite cut_lookup in Hj by done.
    assert (Hat : grid_at grid (length top + i) (left + j) = Some x).
    { apply grid_at_lookup. exists row. split; [|done].
      rewrite Hg, lookup_app_r by lia.
      replace (length top + i - length top) with i by lia.
      by apply lookup_app_l_Some. }
    destruct (grid_at_dims _ _ _ _ _ Hdims (mk_is_Some _ _ Hat)) as [Hi' Hj'].
    split; [lia|].
    unfold grid in Hat. rewrite dense_grid_at in Hat by done.
    injection Hat as <-. do 3 f_equal; lia.
  - intros r c ch Hch Hin Hq. pose proof Hin as [Hr Hc].
    pose proof (Hknown r c ch Hch Hin) as Hat.
    apply grid_at_lookup in Hat as (row & Hrow & Hj).
    destruct (Hrow_in _ _ _ _ Hrow Hj Hq) as [Hge Hl].
    assert (Hlen : Z.to_nat (c - min_c) < w).
    { eapply Forall_lookup_1 in Hw; [|exact Hrow]. simpl in Hw.
      rewrite <-Hw. by eapply lookup_lt_Some. }
    assert (Hcol : left ≤ Z.to_nat (c - min_c) < left + width).
    { destruct (decide (Z.to_nat (c - min_c) < left
                        ∨ left + width ≤ Z.to_nat (c - min_c)))
        as [Hbad|]; [|lia].
      pose proof (Hout _ Hlen Hbad row) as Hu. rewrite Hu in Hj.
      - congruence.
      - by eapply list_elem_of_lookup_2. }
    unfold cell_at. rewrite decide_True by lia. apply grid_at_lookup.
    exists (take width (drop left row)). split.
    + rewrite list_lookup_fmap.
      replace (Z.to_nat (r - (min_r + Z.of_nat (length top))))
        with (Z.to_nat (r - min_r) - length top) by lia.
      by rewrite Hl.
    + rewrite cut_lookup by lia.
      replace (left + Z.to_nat (c - (min_c + Z.of_nat left)))
        with (Z.to_nat (c - min_c)) by lia.
      done.
Qed.

(** The offsets of the window, and what the window shows. *)
Lemma assembled_window (explored : gmap Coord string) :
  ∃ top left : Z,
    (∀ i j x,
       grid_at (_sparse_to_dense explored) i j = Some x →
       x = default "?"
             (explored !! ((top + Z.of_nat i)%Z, (left + Z.of_nat j)%Z)))
    ∧ (∀ r c ch,
         explored !! (r, c) = Some ch → ch ≠ "X" → ch ≠ "?" →
         cell_at (_sparse_to_dense explored) (r - top) (c - left) = Some ch).
Proof.
  destruct (bounding_box explored) as [[[[min_r max_r] min_c] max_c]|]
    eqn:Hbox.
  - destruct (assembled_window_box explored min_r max_r min_c max_c Hbox)
      as (top & left & Hcells & Hkept).
    pose proof (bounding_box_tight _ _ Hbox) as (Hin & _).
    exists top, left. split.
    + intros i j x Hx. by destruct (Hcells i j x Hx) as [_ ?].
    + intros r c ch Hch HX Hq. apply Hkept; [done| |done].
      apply Hin. by exists ch.
  - exists 0%Z, 0%Z. unfold _sparse_to_dense. rewrite Hbox. split.
    + intros i j x Hx. by apply no_cell_in_empty_map in Hx.
    + intros r c ch Hch HX _.
      destruct (proj1 (bounding_box_None explored) Hbox (r, c)).
      by exists ch.
Qed.

Lemma first_home_unique (grid : list string) (n : nat) (p q : Coord) :
  first_home grid n p → first_home grid n q → p = q.
Proof.
  intros (i & j & -> & Hj & Hget & Hmin) (i' & j' & -> & Hj' & Hget' & Hmin').
  destruct (decide (i < i' ∨ (i = i' ∧ j < j'))) as [Hlt|Hge].
  { by destruct (Hmin' i j Hj Hlt). }
  destruct (decide (i' < i ∨ (i' = i ∧ j' < j))) as [Hlt|Hge'].
  { by destruct (Hmin i' j' Hj' Hlt). }
  f_equal; lia.
Qed.

Lemma assembled_shape (explored : gmap Coord string) :
  _sparse_to_dense explored ≠ []
  ∧ ∃ w, Forall (λ row, length row = w) (_sparse_to_dense explored).
Proof.
  unfold _sparse_to_dense.
  destruct (bounding_box explored) as [[[[min_r max_r] min_c] max_c]|].
  - destruct (dense_grid_dims explored min_r max_r min_c max_c) as [_ Hw].
    destruct (trim_shape _ _ Hw) as (Hne & w' & _ & Hrect). eauto.
  - split; [done|]. exists 0. by repeat constructor.
Qed.

(** X14.  [map_surface] as a whole, on a planet whose rows are as long as
    the first and that has an ['H'], with a rover that is never short of
    battery and stands on the first ['H'], finitely many free cells and
    more frames than free cells: it raises nothing, neither [IndexError]
    nor [StopIteration] nor [RecursionError]; it returns the assembled map
    of what [dfs] explored from that ['H'], which has at least one row and
    rows of one length; and every cell joined to the start through free
    cells, if its symbol is neither ['X'] nor ['?'], is shown with its
    symbol, at its place relative to the others. *)
Theorem map_surface_returns {R : Type} (ops : RoverOps R)
    (place : R → Coord) (free : Coord → Prop) (symbol : Coord → string)
    (F : gset Coord) (depth : nat) (grid : list string) (rover0 : R)
    (start : Coord) :
  rectangular grid →
  first_home grid (Z.to_nat (width_of grid)) start →
  never_short ops place free →
  (∀ x, get_current_location ops x = symbol (place x)) →
  (∀ p, free p → p ∈ F) →
  place rover0 = start → free start → size F < depth →
  ∃ s rows,
    MapSurface.dfs ops (Z.of_nat (length grid)) (width_of grid) depth
      start.1 start.2 (MapSurface.State rover0 ∅ ∅) = MapSurface.Return s
    ∧ rows = _sparse_to_dense (MapSurface.explored s)
    ∧ MapSurface.map_surface ops depth grid rover0 = MapSurface.Return rows
    ∧ rows ≠ []
    ∧ (∃ w, Forall (λ row, length row = w) rows)
    ∧ ∃ top left : Z, ∀ p,
        joined free start p → symbol p ≠ "X" → symbol p ≠ "?" →
        cell_at rows (p.1 - top) (p.2 - left) = Some (symbol p).
Proof.
  intros Hrect Hfirst Hshort Hsymbol Hfinite Hplace Hfree Hdepth.
  destruct (dfs_top ops place free symbol F (Z.of_nat (length grid))
              (width_of grid) start Hshort Hsymbol Hfinite depth rover0
              Hplace Hfree Hdepth) as (s & Hrun & _ & Hin & Hgood & Hs).
  exists s, (_sparse_to_dense (MapSurface.explored s)).
  split; [done|]. split; [done|].
  destruct (assembled_shape (MapSurface.explored s)) as [Hrows Hwidth].
  split; [|split; [done|split; [done|]]].
  2:{ destruct (assembled_window (MapSurface.explored s))
        as (top & left & _ & Hknown).
      exists top, left. intros [r c] Hp HX Hq. apply Hknown; [|done|done].
      apply (joined_visited free (Z.of_nat (length grid)) (width_of grid)
               start s Hin Hs) in Hp.
      by destruct (proj1 Hgood _ Hp) as (_ & _ & ?). }
  unfold MapSurface.map_surface.
  destruct grid as [|row0 grid'] eqn:Hgrid.
  { destruct Hfirst as (i & j & _ & _ & Hget & _).
    by rewrite grid_get_nat in Hget. }
  rewrite <-Hgrid in *.
  assert (Hcols : width_of grid = Z.of_nat (String.length row0))
    by by rewrite Hgrid.
  rewrite Hcols, Nat2Z.id in Hfirst.
  assert (Hlong : Forall (λ row, String.length row0 ≤ String.length row)
                    grid).
  { eapply Forall_impl; [exact Hrect|]. intros row Hrow. simpl in Hrow. lia. }
  pose proof (find_start_spec grid 0%Z (String.length row0) Hlong) as Hfind.
  destruct (MapSurface.find_start grid 0 (String.length row0))
    as [pos|[]].
  - assert (pos = start) as ->.
    { apply (first_home_unique grid (String.length row0)); [|done].
      destruct Hfind as (i & j & -> & Hrest). exists i, j.
      by rewrite Z.add_0_l. }
    cbn [mbind MapSurface.answer_bind]. rewrite <-Hcols, Hrun. done.
  - done.
  - done.
  - destruct Hfirst as (i & j & _ & Hj & Hget & _). by destruct (Hfind i j).
Qed.

Lemma map_surface_returns_witness :
  rectangular bottleneck_maze
  ∧ first_home bottleneck_maze (Z.to_nat (width_of bottleneck_maze)) home
  ∧ never_short (roaming_ops bottleneck_maze) id
      (roaming_free bottleneck_maze)
  ∧ (∀ x, get_current_location (roaming_ops bottleneck_maze) x
          = get_current_location (roaming_ops bottleneck_maze) (id x))
  ∧ (∀ p, roaming_free bottleneck_maze p → p ∈ cells_of bottleneck_maze)
  ∧ id home = home
  ∧ roaming_free bottleneck_maze home
  ∧ size (cells_of bottleneck_maze) < 46
  ∧ ∃ s rows,
      MapSurface.dfs (roaming_ops bottleneck_maze)
        (Z.of_nat (length bottleneck_maze)) (width_of bottleneck_maze) 46
        home.1 home.2 (MapSurface.State home ∅ ∅) = MapSurface.Return s
      ∧ rows = _sparse_to_dense (MapSurface.explored s)
      ∧ MapSurface.map_surface (roaming_ops bottleneck_maze) 46
          bottleneck_maze home = MapSurface.Return rows
      ∧ rows ≠ []
      ∧ (∃ w, Forall (λ row, length row = w) rows)
      ∧ ∃ top left : Z, ∀ p,
          joined (roaming_free bottleneck_maze) home p →
          get_current_location (roaming_ops bottleneck_maze) p ≠ "X" →
          get_current_location (roaming_ops bottleneck_maze) p ≠ "?" →
          cell_at rows (p.1 - top) (p.2 - left)
          = Some (get_current_location (roaming_ops bottleneck_maze) p).
Proof.
  assert (H0 : rectangular bottleneck_maze) by (repeat constructor).
  assert (H1 : first_home bottleneck_maze
                 (Z.to_nat (width_of bottleneck_maze)) home).
  { exists 0, 0. split; [reflexivity|]. split; [vm_compute; lia|].
    split; [reflexivity|]. intros i' j' _ Hless. lia. }
  assert (H2 : never_short (roaming_ops bottleneck_maze) id
                 (roaming_free bottleneck_maze))
    by apply roaming_never_short.
  assert (H3 : ∀ x, get_current_location (roaming_ops bottleneck_maze) x
                    = get_current_location (roaming_ops bottleneck_maze)
                        (id x)) by reflexivity.
  assert (H4 : ∀ p, roaming_free bottleneck_maze p
                    → p ∈ cells_of bottleneck_maze).
  { intros p. apply roaming_free_cells; [repeat constructor|reflexivity]. }
  assert (H5 : id home = home) by reflexivity.
  assert (H6 : roaming_free bottleneck_maze home).
  { exists "H"%char. split; [reflexivity|discriminate]. }
  assert (H7 : size (cells_of bottleneck_maze) < 46).
  { eapply Nat.le_lt_trans; [apply size_cells|]. vm_compute. lia. }
  split; [exact H0|]. split; [exact H1|]. split; [exact H2|].
  split; [exact H3|]. split; [exact H4|]. split; [exact H5|].
  split; [exact H6|]. split; [exact H7|].
  exact (map_surface_returns (roaming_ops bottleneck_maze) id
           (roaming_free bottleneck_maze)
           (get_current_location (roaming_ops bottleneck_maze))
           (cells_of bottleneck_maze) 46 bottleneck_maze home home
           H0 H1 H2 H3 H4 H5 H6 H7).
Defined.

(** ** What is reachable and what is mapped *)

Lemma delta_in_STEPS (d : Dir) : delta d ∈ STEPS.
Proof. destruct d; unfold STEPS; simpl; set_solver. Qed.

Lemma STEPS_delta (dv : Z * Z) : dv ∈ STEPS → ∃ d, dv = delta d.
Proof.
  unfold STEPS. rewrite !elem_of_cons, elem_of_nil.
  intros [->|[->|[->|[->|[]]]]];
    [by exists North|by exists South|by exists East|by exists West].
Qed.

Lemma joined_linked (grid : list string) (home p : Coord) :
  joined (passable grid) home p ↔ linked grid home p.
Proof.
  split.
  - intros Hj. induction Hj as [|q d Hq IH Hfree]; [constructor|].
    apply linked_step; [done|apply delta_in_STEPS|done].
  - intros Hl. induction Hl as [|q dv Hq IH Hdv Hfree]; [constructor|].
    destruct (STEPS_delta dv Hdv) as [d ->]. by apply joined_step.
Qed.

Lemma joined_inv (free : Coord → Prop) (start p : Coord) :
  joined free start p →
  p = start ∨ ∃ q d, joined free start q ∧ p = shift q (delta d).
Proof. intros [|q d Hq Hfree]; [by left|right; eauto]. Qed.

Lemma in_bounds_in_grid (grid : list string) (p : Coord) :
  MapSurface.in_bounds (Z.of_nat (length grid)) (width_of grid) p.1 p.2 = true
  ↔ in_grid grid p.
Proof. unfold MapSurface.in_bounds. by rewrite bool_decide_eq_true. Qed.

Lemma never_short_iff {R : Type} (ops : RoverOps R) (place : R → Coord)
    (free free' : Coord → Prop) :
  (∀ p, free p ↔ free' p) →
  never_short ops place free → never_short ops place free'.
Proof.
  intros Hiff Hshort d r. destruct (Hshort d r) as (Hgo & Hthere & Hstay).
  split_and!; [|by rewrite <-Hiff|done].
  intros Hf. by apply Hgo, Hiff.
Qed.

Lemma roaming_free_passable (planet : list string) (p : Coord) :
  rectangular planet → RoverModel.find_home planet 0%Z = (0, 0)%Z →
  roaming_free planet p ↔ passable planet p.
Proof.
  intros Hrect Hhome.
  assert (Hcell : (0 ≤ p.1 ∧ 0 ≤ p.2)%Z →
                  roaming_cell planet p = grid_get planet p.1 p.2).
  { intros Hpos. unfold roaming_cell. rewrite Hhome.
    unfold RoverModel.cell, shift. simpl. rewrite !Z.add_0_l.
    by rewrite decide_True. }
  split.
  - intros Hfree.
    pose proof (roaming_free_cells planet p Hrect Hhome Hfree) as Hin.
    apply elem_of_cells in Hin. split; [done|].
    destruct Hfree as (ch & Hch & Hne). exists ch. split; [|done].
    rewrite <-Hcell; [done|]. unfold in_grid in Hin. lia.
  - intros [Hin (ch & Hch & Hne)]. exists ch. split; [|done].
    rewrite Hcell; [done|]. unfold in_grid in Hin. lia.
Qed.

(** X15.  [reachable] of [run_maps.py] and [dfs] of [map_surface] agree.
    On a planet whose rows are as long as the first, with a rover that is
    never short of battery and moves exactly onto the cells inside the grid
    that are not ['X'], started on such a cell [home]: for every target
    inside the grid other than [home], [reachable(home, target, planet)] is
    [True] exactly when the map explored by [dfs] from [home] has an entry
    for the target. *)
Theorem reachable_iff_mapped {R : Type} (ops : RoverOps R)
    (place : R → Coord) (symbol : Coord → string) (grid : list string)
    (home' target : Coord) (depth fuel : nat) (rover0 : R) :
  rectangular grid →
  never_short ops place (passable grid) →
  (∀ x, get_current_location ops x = symbol (place x)) →
  place rover0 = home' → passable grid home' →
  in_grid grid target → target ≠ home' →
  length grid * Z.to_nat (width_of grid) < depth →
  length grid * Z.to_nat (width_of grid) + 1 < fuel →
  ∃ s found,
    MapSurface.dfs ops (Z.of_nat (length grid)) (width_of grid) depth
      home'.1 home'.2 (MapSurface.State rover0 ∅ ∅) = MapSurface.Return s
    ∧ reachable fuel home' target grid = Reached found
    ∧ (found = true ↔ is_Some (MapSurface.explored s !! target)).
Proof.
  intros Hrect Hshort Hsymbol Hplace Hhome Htarget Hne Hdepth Hfuel.
  pose proof (size_cells grid) as Hcells.
  assert (Hfinite : ∀ p, passable grid p → p ∈ cells_of grid).
  { intros p [Hin _]. by apply elem_of_cells. }
  destruct (dfs_top ops place (passable grid) symbol (cells_of grid)
              (Z.of_nat (length grid)) (width_of grid) home' Hshort Hsymbol
              Hfinite depth rover0 Hplace Hhome ltac:(lia))
    as (s & Hrun & _ & Hin & Hgood & Hs).
  pose proof (visited_iff_joined (passable grid) symbol
                (Z.of_nat (length grid)) (width_of grid) home' s Hin Hgood
                Hs) as Hvisited.
  pose proof (unvisited_entries (passable grid) symbol
                (Z.of_nat (length grid)) (width_of grid) home' s Hgood Hs)
    as Hentries.
  destruct (bfs_spec grid home' target Hrect fuel {[home']} [home'])
    as (found & Hbfs & Hfound).
  { set_solver. }
  { intros x Hx. apply list_elem_of_singleton in Hx. set_solver. }
  { intros x ->%elem_of_singleton. constructor. }
  { intros x ->%elem_of_singleton. left. left. }
  { assert (size (cells_of grid ∖ {[home']}) ≤ size (cells_of grid))
      by (apply subseteq_size; set_solver).
    simpl. lia. }
  exists s, found. split; [done|]. split; [done|]. rewrite Hfound.
  split.
  - intros (_ & pos & dv & Hl & Hdv & Heq).
    destruct (STEPS_delta dv Hdv) as [d ->].
    apply joined_linked in Hl. pose proof (proj2 (Hvisited pos) Hl) as Hpos.
    destruct (in_grid_get grid Hrect target Htarget) as [ch Hch].
    destruct (decide (ch = "X"%char)) as [->|HX].
    + assert (Hwall : ¬ passable grid target).
      { intros (_ & ch' & Hch' & Hne'). congruence. }
      assert (Hout : target ∉ MapSurface.visited s).
      { intros Hv. by destruct (proj1 Hgood target Hv) as [? _]. }
      exists "X". apply Hentries; [done|].
      split_and!; [done|by apply in_bounds_in_grid|done|].
      by exists pos, d.
    + assert (Hfree : passable grid target).
      { split; [done|]. by exists ch. }
      assert (Hv : target ∈ MapSurface.visited s).
      { apply Hvisited. rewrite <-Heq. apply joined_step; [done|].
        by rewrite Heq. }
      destruct (proj1 Hgood target Hv) as (_ & _ & Hsym). by rewrite Hsym.
  - intros [v Hv].
    destruct (decide (target ∈ MapSurface.visited s)) as [Hin_t|Hout].
    + apply Hvisited, joined_inv in Hin_t as [->|(q & d & Hq & ->)];
        [done|].
      split; [done|]. exists q, (delta d).
      split_and!; [by apply joined_linked|apply delta_in_STEPS|done].
    + apply Hentries in Hv as (_ & _ & _ & q & d & Hq & ->); [|done].
      split; [done|]. exists q, (delta d).
      split_and!; [|apply delta_in_STEPS|done].
      by apply joined_linked, Hvisited.
Qed.

Lemma reachable_iff_mapped_witness :
  rectangular bottleneck_maze
  ∧ never_short (roaming_ops bottleneck_maze) id (passable bottleneck_maze)
  ∧ (∀ x, get_current_location (roaming_ops bottleneck_maze) x
          = get_current_location (roaming_ops bottleneck_maze) (id x))
  ∧ id home = home
  ∧ passable bottleneck_maze home
  ∧ in_grid bottleneck_maze (4, 8)%Z
  ∧ (4, 8)%Z ≠ home
  ∧ length bottleneck_maze * Z.to_nat (width_of bottleneck_maze) < 46
  ∧ length bottleneck_maze * Z.to_nat (width_of bottleneck_maze) + 1 < 50
  ∧ ∃ s found,
      MapSurface.dfs (roaming_ops bottleneck_maze)
        (Z.of_nat (length bottleneck_maze)) (width_of bottleneck_maze) 46
        home.1 home.2 (MapSurface.State home ∅ ∅) = MapSurface.Return s
      ∧ reachable 50 home (4, 8)%Z bottleneck_maze = Reached found
      ∧ (found = true ↔ is_Some (MapSurface.explored s !! (4, 8)%Z)).
Proof.
  assert (H0 : rectangular bottleneck_maze) by (repeat constructor).
  assert (H1 : never_short (roaming_ops bottleneck_maze) id
                 (passable bottleneck_maze)).
  { apply (never_short_iff _ _ (roaming_free bottleneck_maze)).
    - intros p. by apply roaming_free_passable.
    - apply roaming_never_short. }
  assert (H2 : ∀ x, get_current_location (roaming_ops bottleneck_maze) x
                    = get_current_location (roaming_ops bottleneck_maze)
                        (id x)) by reflexivity.
  assert (H3 : id home = home) by reflexivity.
  assert (H4 : passable bottleneck_maze home).
  { split; [vm_compute; intuition discriminate|].
    exists "H"%char. split; [reflexivity|discriminate]. }
  assert (H5 : in_grid bottleneck_maze (4, 8)%Z)
    by (vm_compute; intuition discriminate).
  assert (H6 : (4, 8)%Z ≠ home) by discriminate.
  assert (H7 : length bottleneck_maze
               * Z.to_nat (width_of bottleneck_maze) < 46)
    by (vm_compute; lia).
  assert (H8 : length bottleneck_maze
               * Z.to_nat (width_of bottleneck_maze) + 1 < 50)
    by (vm_compute; lia).
  split; [exact H0|]. split; [exact H1|]. split; [exact H2|].
  split; [exact H3|]. split; [exact H4|]. split; [exact H5|].
  split; [exact H6|]. split; [exact H7|]. split; [exact H8|].
  exact (reachable_iff_mapped (roaming_ops bottleneck_maze) id
           (get_current_location (roaming_ops bottleneck_maze))
           bottleneck_maze home (4, 8)%Z 46 50 home
           H0 H1 H2 H3 H4 H5 H6 H7 H8).
Defined.

(** ** The assembled map as a window on the Discovered-Map *)

(** X16.  The map [_sparse_to_dense] returns is a window on the
    Discovered-Map: there are offsets [top] and [left] such that every cell
    of the result, in row [i] and column [j], holds the entry of the
    coordinate [(top + i, left + j)], or ['?'] when that coordinate has no
    entry; and every entry whose symbol is neither ['X'] nor ['?'] is
    inside the window.  So trimming moves no cell relative to another and
    drops no known cell. *)
Theorem sparse_to_dense_window (explored : gmap Coord string) :
  ∃ top left : Z,
    (∀ i j x,
       grid_at (_sparse_to_dense explored) i j = Some x →
       x = default "?"
             (explored !! ((top + Z.of_nat i)%Z, (left + Z.of_nat j)%Z)))
    ∧ (∀ r c ch,
         explored !! (r, c) = Some ch → ch ≠ "X" → ch ≠ "?" →
         cell_at (_sparse_to_dense explored) (r - top) (c - left) = Some ch).
Proof.
  destruct (assembled_window explored) as (top & left & Hcells & Hknown).
  exists top, left. split.
  - intros i j x Hx. by apply Hcells.
  - intros r c ch Hch HX Hq. by apply Hknown.
Qed.

(** ** Entries inside and outside the bounding box *)





